(** * MMM-CloudPhotos: the sync-and-prefetch engine

  A shallow embedding of the photo-frame backend described by the
  repository's design documents (TECH_DESIGN_V3.md, TECH_DESIGN.md,
  CHANGELOG.md) and exercised by tests/unit/CacheManager.test.js.

  The SQLite table [photos] is a list of rows whose [id] column is a
  primary key; timestamps and sizes are integers ([Z]); a nullable column
  is an [option].  Everything the code obtains from outside (the clock,
  SQL's RANDOM(), the network, the file system's answers) is an explicit
  argument of the function that consumes it. *)

From Stdlib Require Import List ZArith String Bool Lia Permutation.
From Stdlib Require Import Sorting.Sorted.
Import ListNotations.
Local Open Scope Z_scope.

(** ** The metadata store (TECH_DESIGN_V3.md, lines 275-306: "Database
       Schema") *)

Module PhotoDatabase.

(** CREATE TABLE photos (id TEXT PRIMARY KEY, folder_id TEXT NOT NULL,
    filename TEXT, creation_time INTEGER, width INTEGER, height INTEGER,
    last_viewed_at INTEGER, cached_path TEXT, cached_at INTEGER,
    cached_size_bytes INTEGER) *)
Record Photo := mkPhoto {
  id : string;
  folder_id : string;
  filename : option string;
  creation_time : option Z;
  width : option Z;
  height : option Z;
  last_viewed_at : option Z;
  cached_path : option string;
  cached_at : option Z;
  cached_size_bytes : option Z
}.

Definition Table := list Photo.

(** The PRIMARY KEY constraint on [id]. *)
Definition primary_key (db : Table) : Prop := NoDup (map id db).

Definition isSome {A} (o : option A) : bool :=
  match o with Some _ => true | None => false end.

(** WHERE cached_path IS NOT NULL *)
Definition isCached (p : Photo) : bool := isSome (cached_path p).

Definition cachedRows (db : Table) : list Photo := filter isCached db.

(** WHERE cached_path IS NULL *)
Definition uncachedRows (db : Table) : list Photo :=
  filter (fun p => negb (isCached p)) db.

(** ORDER BY last_viewed_at ASC NULLS FIRST: NULL sorts before every
    timestamp (this is also SQLite's default for a plain ASC). *)
Definition viewed_le (a b : option Z) : bool :=
  match a, b with
  | None, _ => true
  | Some _, None => false
  | Some x, Some y => x <=? y
  end.

Definition viewed_eqb (a b : option Z) : bool :=
  match a, b with
  | None, None => true
  | Some x, Some y => x =? y
  | _, _ => false
  end.

(** Row [a] comes no later than row [b] in that order. *)
Definition olderEq (a b : Photo) : Prop :=
  viewed_le (last_viewed_at a) (last_viewed_at b) = true.

(** UPDATE photos SET last_viewed_at = ? WHERE id = ? *)
Definition set_last_viewed_at (v : option Z) (p : Photo) : Photo :=
  mkPhoto (id p) (folder_id p) (filename p) (creation_time p) (width p)
          (height p) v (cached_path p) (cached_at p) (cached_size_bytes p).

Definition markViewed (now : Z) (i : string) (db : Table) : Table :=
  map (fun p => if String.eqb (id p) i
                then set_last_viewed_at (Some now) p else p) db.

(** UPDATE photos SET cached_path = NULL, cached_size_bytes = NULL
    WHERE id = ? *)
Definition clear_cache_columns (p : Photo) : Photo :=
  mkPhoto (id p) (folder_id p) (filename p) (creation_time p) (width p)
          (height p) (last_viewed_at p) None (cached_at p) None.

Definition clearPhotoCache (i : string) (db : Table) : Table :=
  map (fun p => if String.eqb (id p) i then clear_cache_columns p else p) db.

(** UPDATE photos SET cached_path = ?, cached_at = ?, cached_size_bytes = ?
    WHERE id = ? *)
Definition set_cache_columns (path : string) (at_ : Z) (size : Z)
           (p : Photo) : Photo :=
  mkPhoto (id p) (folder_id p) (filename p) (creation_time p) (width p)
          (height p) (last_viewed_at p) (Some path) (Some at_) (Some size).

Definition updatePhotoCache (i path : string) (at_ size : Z)
           (db : Table) : Table :=
  map (fun p => if String.eqb (id p) i
                then set_cache_columns path at_ size p else p) db.

(** Insertion of a row into a list already ordered by [last_viewed_at];
    rows with equal keys keep their table order. *)
Fixpoint insertByViewed (p : Photo) (l : list Photo) : list Photo :=
  match l with
  | [] => [p]
  | q :: l' =>
      if viewed_le (last_viewed_at p) (last_viewed_at q)
      then p :: q :: l'
      else q :: insertByViewed p l'
  end.

(** ORDER BY last_viewed_at ASC (NULLS FIRST) *)
Fixpoint orderByViewed (l : list Photo) : list Photo :=
  match l with
  | [] => []
  | p :: l' => insertByViewed p (orderByViewed l')
  end.

(** The table [settings (key TEXT PRIMARY KEY, value TEXT)]. *)
Definition Settings := list (string * string).

Fixpoint getSetting (k : string) (s : Settings) : option string :=
  match s with
  | [] => None
  | (k', v) :: s' => if String.eqb k' k then Some v else getSetting k s'
  end.

(** INSERT OR REPLACE INTO settings (key, value) VALUES (?, ?) *)
Fixpoint saveSetting (k v : string) (s : Settings) : Settings :=
  match s with
  | [] => [(k, v)]
  | (k', v') :: s' =>
      if String.eqb k' k then (k, v) :: s' else (k', v') :: saveSetting k v s'
  end.

(** What [db.query(sql, params)] resolves to.  The class PhotoDatabase is
    not part of the sources, and its callers read the result in two ways:
    as the array of the selected rows ([photos.length], [photos.map] in
    [tick], [evictOldest] and [evictOldPhotos]; [photoRecord.length] and
    [photoRecord[0]] in test_file_resize.js, lines 109-114), and as the
    selected row itself ([photo.cached_path] in [displayNext],
    [cacheState.totalBytes] in [cacheTick]).  The functions that read a
    row take the shape of the result as an argument; the array is the
    shape the rest of the code and the test script rely on. *)
Inductive QueryShape :=
| RowArray
| SingleRow.

End PhotoDatabase.

(** ** The display scheduler (TECH_DESIGN_V3.md, lines 502-547: class
       PhotoDisplay) *)

Module PhotoDisplay.
Import PhotoDatabase.

(** What one timer firing of [displayNext] reads from its environment:
    [Date.now()], the draw of SQL's RANDOM(), the answer of
    [fs.promises.readFile] ([None] when the read rejects) and whether the
    fire-and-forget UPDATE went through. *)
Record Tick := mkTick {
  now : Z;
  rnd : nat;
  readFile : string -> option string;
  update_ok : bool
}.

(** The payload of the DISPLAY_PHOTO socket notification (the base64
    transport encoding of the buffer is left out). *)
Record Notification := mkNotification {
  n_id : string;
  n_image : string;
  n_filename : option string
}.

(** The smallest [last_viewed_at] of [k] and the rows of [l]. *)
Fixpoint oldestKey (k : option Z) (l : list Photo) : option Z :=
  match l with
  | [] => k
  | p :: l' =>
      oldestKey (if viewed_le k (last_viewed_at p)
                 then k else last_viewed_at p) l'
  end.

(** SELECT id, cached_path, filename FROM photos
    WHERE cached_path IS NOT NULL
    ORDER BY last_viewed_at ASC NULLS FIRST, RANDOM() LIMIT 1:
    among the cached rows with the smallest key, the draw picks one. *)
Definition nextPhoto (draw : nat) (db : Table) : option Photo :=
  match cachedRows db with
  | [] => None
  | p :: rest =>
      let k := oldestKey (last_viewed_at p) rest in
      let ties :=
        filter (fun q => viewed_eqb (last_viewed_at q) k) (p :: rest) in
      nth_error ties (Nat.modulo draw (List.length ties))
  end.

(** [photo] as [displayNext] goes on to use it, [selected] being the row
    the SELECT yields.  When [db.query] resolves to the row (or to null),
    that is the row.  When it resolves to an array, [!photo] is false also
    for the empty array and [photo.cached_path] is undefined, so
    [fs.promises.readFile(undefined)] throws into the catch block: there
    is no row to go on with. *)
Definition rowOf (shape : QueryShape) (selected : option Photo)
  : option Photo :=
  match shape with
  | SingleRow => selected
  | RowArray => None
  end.

(** [displayNext] (lines 511-546): query, read the file, notify the
    front-end, then update the view time.  A failed read lands in the
    catch block: nothing is sent and nothing is updated. *)
Definition displayNext (shape : QueryShape) (t : Tick) (db : Table)
  : option Notification * Table :=
  match rowOf shape (nextPhoto (rnd t) db) with
  | None => (None, db)
  | Some photo =>
      match cached_path photo with
      | None => (None, db)
      | Some path =>
          match readFile t path with
          | None => (None, db)
          | Some buffer =>
              (Some (mkNotification (id photo) buffer (filename photo)),
               if update_ok t then markViewed (now t) (id photo) db else db)
          end
      end
  end.

(** Successive firings of the 60 s display timer. *)
Fixpoint displayTicks (shape : QueryShape) (ts : list Tick) (db : Table)
  : list Notification * Table :=
  match ts with
  | [] => ([], db)
  | t :: ts' =>
      let '(sent, db1) := displayNext shape t db in
      let '(later, db2) := displayTicks shape ts' db1 in
      (match sent with Some n => n :: later | None => later end, db2)
  end.

Definition shownIds (shape : QueryShape) (ts : list Tick) (db : Table)
  : list string :=
  map n_id (fst (displayTicks shape ts db)).

(** A row whose stored view time, if any, lies before every clock reading
    of the window: it has not been shown by a tick of the window. *)
Definition viewedBefore (window : list Tick) (p : Photo) : Prop :=
  forall t v, In t window -> last_viewed_at p = Some v -> v < now t.

(** A row whose view time was written by a tick of the window. *)
Definition viewedDuring (window : list Tick) (p : Photo) : Prop :=
  exists t, In t window /\ last_viewed_at p = Some (now t).

(** The table right after photo [last] was shown at time [t0]: its row
    carries [t0] and every other row was viewed before [t0] or never.  With
    [last = None] nothing has been shown yet. *)
Definition shownLast (db : Table) (last : option string) (t0 : Z) : Prop :=
  forall p, In p db ->
    (Some (id p) = last -> last_viewed_at p = Some t0) /\
    (Some (id p) <> last -> forall v, last_viewed_at p = Some v -> v < t0).

(** No element of [l] equals its predecessor; [prev] precedes the head. *)
Fixpoint noRepeat (prev : option string) (l : list string) : Prop :=
  match l with
  | [] => True
  | x :: l' => Some x <> prev /\ noRepeat (Some x) l'
  end.

End PhotoDisplay.

(** ** The cache engine (TECH_DESIGN_V3.md, lines 364-487: class
       CacheManager) *)

Module CacheManager.
Import PhotoDatabase.

Record Config := mkConfig {
  cachePath : string;
  maxCacheSizeMB : Z
}.

(** The cache directory: the size in bytes of each regular file, by path. *)
Definition Files := string -> option Z.

Definition writeFile (path : string) (size : Z) (fs : Files) : Files :=
  fun q => if String.eqb q path then Some size else fs q.

Definition removeFile (path : string) (fs : Files) : Files :=
  fun q => if String.eqb q path then None else fs q.

(** path.join(this.config.cachePath, `${photoId}.jpg`) *)
Definition filePath (cfg : Config) (photoId : string) : string :=
  (cachePath cfg ++ "/" ++ photoId ++ ".jpg")%string.

(** How one call of [downloadPhoto] ends, as decided by the network:
    [drive.files.get] rejects before anything is written; the stream
    breaks after some bytes reached the file; or the stream finishes and
    [fs.promises.stat] reports the size. *)
Inductive Download :=
| Rejected
| Broken (partial : Z)
| Complete (size : Z).

(** What a tick reads from its environment. *)
Record World := mkWorld {
  download : string -> Download;
  downloadedAt : string -> Z;
  unlink_ok : string -> bool
}.

Record State := mkState {
  db : Table;
  files : Files;
  isRunning : bool;
  consecutiveFailures : Z
}.

(** The observable actions of a tick, in program order. *)
Inductive Effect :=
| Unlink (path : string)
| Fetch (photoId : string)
| Sleep (ms : Z).

Definition sizeOf (p : Photo) : Z :=
  match cached_size_bytes p with Some n => n | None => 0 end.

(** Modelled from the spec: [getCacheSizeBytes] is called by [tick] but its
    body is not part of the design document; the spec's store query is
    "Sum of cachedSizeBytes over all cached rows" (TECH_DESIGN.md has
    SELECT COALESCE(SUM(cached_size_bytes), 0) FROM photos
    WHERE cached_path IS NOT NULL). *)
Definition getCacheSizeBytes (d : Table) : Z :=
  fold_right (fun p acc => sizeOf p + acc) 0 (cachedRows d).

(** SELECT id, cached_path FROM photos WHERE cached_path IS NOT NULL
    ORDER BY last_viewed_at ASC LIMIT ? *)
Definition oldestCached (count : nat) (d : Table) : list Photo :=
  firstn count (orderByViewed (cachedRows d)).

Definition pathsOf (photos : list Photo) : list string :=
  flat_map (fun p => match cached_path p with
                     | Some path => [path] | None => [] end) photos.

(** Promise.allSettled(photos.map(p => fs.promises.unlink(p.cached_path))):
    an unlink that rejects leaves its file where it is. *)
Definition unlinkAll (w : World) (paths : list string) (fs : Files) : Files :=
  fold_left (fun f path => if unlink_ok w path then removeFile path f else f)
            paths fs.

(** for (const photo of photos) UPDATE ... WHERE id = photo.id *)
Definition clearAll (photos : list Photo) (d : Table) : Table :=
  fold_left (fun t p => clearPhotoCache (id p) t) photos d.

(** [evictOldest(count)] (lines 458-482): select, unlink, clear. *)
Definition evictOldest (count : nat) (w : World) (st : State)
  : State * list Effect :=
  let photos := oldestCached count (db st) in
  (mkState (clearAll photos (db st))
           (unlinkAll w (pathsOf photos) (files st))
           (isRunning st) (consecutiveFailures st),
   map Unlink (pathsOf photos)).

(** [downloadPhoto] (lines 427-456): the stream is piped into the file of the
    photo, the file is measured and the row is updated; the boolean tells
    whether the promise fulfilled. *)
Definition downloadPhoto (cfg : Config) (w : World) (photoId : string)
           (st : State) : State * bool :=
  let path := filePath cfg photoId in
  match download w photoId with
  | Rejected => (st, false)
  | Broken partial =>
      (mkState (db st) (writeFile path partial (files st))
               (isRunning st) (consecutiveFailures st), false)
  | Complete size =>
      (mkState (updatePhotoCache photoId path (downloadedAt w photoId) size
                                 (db st))
               (writeFile path size (files st))
               (isRunning st) (consecutiveFailures st), true)
  end.

(** Promise.allSettled(photos.map(p => this.downloadPhoto(p.id))), with
    the number of rejected promises.  Each download touches the file and
    the row of its own photo only, so the downloads are run one after the
    other in the order of the batch. *)
Fixpoint downloadAll (cfg : Config) (w : World) (ids : list string)
         (st : State) : State * Z :=
  match ids with
  | [] => (st, 0)
  | i :: ids' =>
      let '(st1, ok) := downloadPhoto cfg w i st in
      let '(st2, failures) := downloadAll cfg w ids' st1 in
      (st2, if ok then failures else failures + 1)
  end.

(** SELECT id FROM photos WHERE cached_path IS NULL
    ORDER BY last_viewed_at ASC NULLS FIRST LIMIT 5 *)
Definition photosToCache (d : Table) : list string :=
  map id (firstn 5 (orderByViewed (uncachedRows d))).

(** Steps 1 and 2 of [tick]: measure the cache, evict a batch of 10 when
    it is over the limit. *)
Definition evictionStep (cfg : Config) (w : World) (st : State)
  : State * list Effect :=
  if getCacheSizeBytes (db st) >? maxCacheSizeMB cfg * 1024 * 1024
  then evictOldest 10 w st
  else (st, []).

(** Steps 3 to 5 of [tick]: the offline pause, or the batch of downloads
    and the failure counter. *)
Definition prefetchStep (cfg : Config) (w : World) (st : State)
  : State * list Effect :=
  if consecutiveFailures st >? 3
  then (mkState (db st) (files st) (isRunning st) 0, [Sleep 60000])
  else
    let photos := photosToCache (db st) in
    match photos with
    | [] => (st, [])
    | _ :: _ =>
        let '(st1, failures) := downloadAll cfg w photos st in
        (mkState (db st1) (files st1) (isRunning st1)
                 (if failures =? Z.of_nat (List.length photos)
                  then consecutiveFailures st + 1 else 0),
         map Fetch photos)
    end.

(** [tick] (lines 376-425): dropped while another tick runs; otherwise the flag is raised,
    the two steps run, and the finally block lowers the flag. *)
Definition tick (cfg : Config) (w : World) (st : State)
  : State * list Effect :=
  if isRunning st then (st, [])
  else
    let '(st1, freed) := evictionStep cfg w st in
    let '(st2, fetched) := prefetchStep cfg w st1 in
    (mkState (db st2) (files st2) false (consecutiveFailures st2),
     freed ++ fetched).

(** Successive firings of the 30 s timer, each in its own world, with the
    effects of each firing. *)
Fixpoint ticks (cfg : Config) (ws : list World) (st : State)
  : State * list (list Effect) :=
  match ws with
  | [] => (st, [])
  | w :: ws' =>
      let '(st1, effects) := tick cfg w st in
      let '(st2, later) := ticks cfg ws' st1 in
      (st2, effects :: later)
  end.

(** The row is one of those whose id is in [ids]. *)
Definition selected (ids : list string) (p : Photo) : bool :=
  existsb (String.eqb (id p)) ids.

(** The cache columns of a row are all NULL. *)
Definition cacheFieldsNull (p : Photo) : Prop :=
  cached_path p = None /\ cached_size_bytes p = None /\ cached_at p = None.

(** The cache columns of a row describe the file of its photo: the path is
    the photo's own, the size is that of the file on disk, and the
    cached-at time is set. *)
Definition cacheFieldsConsistent (cfg : Config) (fs : Files) (p : Photo)
  : Prop :=
  exists size at_,
    cached_path p = Some (filePath cfg (id p)) /\
    cached_size_bytes p = Some size /\
    fs (filePath cfg (id p)) = Some size /\
    cached_at p = Some at_.

(** The row invariant of spec section 4.3.4. *)
Definition cacheFieldsOk (cfg : Config) (fs : Files) (p : Photo) : Prop :=
  cacheFieldsNull p \/ cacheFieldsConsistent cfg fs p.

(** The row invariant the code keeps: an uncached row has no path and no
    size (its cached-at time may be left over from an earlier caching). *)
Definition cacheFieldsKept (cfg : Config) (fs : Files) (p : Photo) : Prop :=
  (cached_path p = None /\ cached_size_bytes p = None) \/
  cacheFieldsConsistent cfg fs p.

(** The columns eviction has no business with. *)
Definition sameOtherColumns (p q : Photo) : Prop :=
  id q = id p /\ folder_id q = folder_id p /\ filename q = filename p /\
  creation_time q = creation_time p /\ width q = width p /\
  height q = height p /\ last_viewed_at q = last_viewed_at p /\
  cached_at q = cached_at p.

End CacheManager.

(** ** Download retry (TECH_DESIGN_V3.md, lines 619-631, and TECH_DESIGN.md,
       lines 887-902: downloadWithRetry) *)

Module Retry.

Inductive Event :=
| Request (attempt : Z)
| Wait (ms : Z).

Inductive Outcome (R : Type) :=
| Resolved (response : R)
| Threw
| FellThrough.
Arguments Resolved {R} _.
Arguments Threw {R}.
Arguments FellThrough {R}.

(** for (let attempt = 1; attempt <= maxRetries; attempt++) { try { return
    await get } catch { if (attempt === maxRetries) throw error;
    await this.sleep(attempt * 1000) } }.  [get k] is the answer to the
    request of attempt [k], [None] when it rejects; [n] counts the
    iterations left. *)
Fixpoint attemptLoop {R} (n : nat) (attempt maxRetries : Z)
         (get : Z -> option R) : Outcome R * list Event :=
  match n with
  | O => (FellThrough, [])
  | S n' =>
      match get attempt with
      | Some response => (Resolved response, [Request attempt])
      | None =>
          if attempt =? maxRetries then (Threw, [Request attempt])
          else
            let '(out, evs) := attemptLoop n' (attempt + 1) maxRetries get in
            (out, Request attempt :: Wait (attempt * 1000) :: evs)
      end
  end.

Definition downloadWithRetry {R} (maxRetries : Z) (get : Z -> option R)
  : Outcome R * list Event :=
  attemptLoop (Z.to_nat maxRetries) 1 maxRetries get.

Definition delays (evs : list Event) : list Z :=
  flat_map (fun e => match e with Wait ms => [ms] | Request _ => [] end) evs.

Definition requests (evs : list Event) : list Z :=
  flat_map (fun e => match e with Request k => [k] | Wait _ => [] end) evs.

(** The back-off the spec describes: 2 s doubling, capped at 60 s. *)
Definition exponentialDelay (k : nat) : Z :=
  Z.min (2000 * 2 ^ Z.of_nat k) 60000.

End Retry.

(** ** The Drive client (TECH_DESIGN_V3.md, lines 170-214: GDriveAPI.scanFolder;
       lines 226-263: scanForChanges) *)

Module GDriveAPI.
Import PhotoDatabase.

(** The Drive as the two [files.list] calls of [scanFolder] see it: the
    ids of the image files of a folder and the ids of its subfolders
    ([None] is the Drive root).  The filters of the queries (mime type,
    trashed, RAW extensions) are applied by the server. *)
Record Drive := mkDrive {
  imagesIn : option string -> list string;
  foldersIn : option string -> list string
}.

(** [scanFolder(folderId, maxDepth = -1, currentDepth = 0)].  The set
    [visitedFolders] is created by each call ([const visitedFolders =
    new Set()]) and consulted by the loop over the subfolders of that call.
    [fuel] bounds the depth of the recursion; [None] means it ran out. *)
Fixpoint scanFolder (fuel : nat) (drive : Drive) (folderId : option string)
         (maxDepth currentDepth : Z) : option (list string) :=
  match fuel with
  | O => None
  | S fuel' =>
      let photos := imagesIn drive folderId in
      if (maxDepth =? -1) || (currentDepth <? maxDepth) then
        (fix subfolders (pending visitedFolders photos : list string)
           : option (list string) :=
           match pending with
           | [] => Some photos
           | folder :: rest =>
               if existsb (String.eqb folder) visitedFolders
               then subfolders rest visitedFolders photos
               else
                 match scanFolder fuel' drive (Some folder) maxDepth
                                  (currentDepth + 1) with
                 | None => None
                 | Some subPhotos =>
                     subfolders rest (folder :: visitedFolders)
                                (photos ++ subPhotos)
                 end
           end) (foldersIn drive folderId) [] photos
      else Some photos
  end.

(** One entry of [response.data.changes]. *)
Record ChangedFile := mkChangedFile {
  cf_id : string;
  mimeType : option string;
  trashed : bool
}.

Record Change := mkChange {
  fileId : string;
  removed : bool;
  file : option ChangedFile
}.

(** One answer of [drive.changes.list]. *)
Record Page := mkPage {
  changes : list Change;
  nextPageToken : option string;
  newStartPageToken : option string
}.

Record Store := mkStore {
  photos : Table;
  settings : Settings
}.

Definition emptyStore : Store := mkStore [] [].

(** What [scanForChanges] does to the store and to the scanner, in
    program order. *)
Inductive Action :=
| DeletePhoto (photoId : string)
| SaveSetting (key value : string)
| FullScan.

(** JavaScript truthiness of a string that may be null. *)
Definition truthy (o : option string) : bool :=
  match o with
  | Some s => negb (String.eqb s "")
  | None => false
  end.

(** change.removed || change.file?.trashed *)
Definition isDeletion (c : Change) : bool :=
  removed c || match file c with Some f => trashed f | None => false end.

(** change.file?.mimeType?.startsWith('image/') *)
Definition isImage (c : Change) : bool :=
  match file c with
  | Some f => match mimeType f with
              | Some m => String.prefix "image/" m
              | None => false
              end
  | None => false
  end.

(** Modelled from the spec: [db.deletePhoto] is called by [scanForChanges]
    but the class PhotoDatabase is not part of the sources.  The spec applies
    a deletion by retiring the row, so that the photo is never displayed or
    prefetched again; the V3 schema has no column for that, so the row
    leaves the table. *)
Definition deletePhoto (i : string) (d : Table) : Table :=
  filter (fun p => negb (String.eqb (id p) i)) d.

Definition perform (a : Action) (st : Store) : Store :=
  match a with
  | DeletePhoto i => mkStore (deletePhoto i (photos st)) (settings st)
  | SaveSetting k v => mkStore (photos st) (saveSetting k v (settings st))
  | FullScan => st
  end.

(** The result of a scan: the value of the promise ([None] when it
    rejects), the store it leaves and the actions it took. *)
Record Scan := mkScan {
  returned : option (list ChangedFile);
  store : Store;
  actions : list Action
}.

(** for (const change of response.data.changes) { ... } *)
Fixpoint applyChanges (cs : list Change) (st : Store)
         (changedPhotos : list ChangedFile) (log : list Action)
  : Store * list ChangedFile * list Action :=
  match cs with
  | [] => (st, changedPhotos, log)
  | c :: cs' =>
      if isDeletion c then
        applyChanges cs' (perform (DeletePhoto (fileId c)) st) changedPhotos
                     (log ++ [DeletePhoto (fileId c)])
      else if isImage c then
        match file c with
        | Some f => applyChanges cs' st (changedPhotos ++ [f]) log
        | None => applyChanges cs' st changedPhotos log
        end
      else applyChanges cs' st changedPhotos log
  end.

(** do { ... } while (pageToken): [responses] are the answers to the
    successive [changes.list] calls; a call beyond them rejects. *)
Fixpoint changePages (responses : list Page) (st : Store)
         (changedPhotos : list ChangedFile) (log : list Action) : Scan :=
  match responses with
  | [] => mkScan None st log
  | page :: rest =>
      let '(st1, changed1, log1) :=
        applyChanges (changes page) st changedPhotos log in
      let '(st2, log2) :=
        if truthy (newStartPageToken page) then
          match newStartPageToken page with
          | Some tok =>
              (perform (SaveSetting "changes_token" tok) st1,
               log1 ++ [SaveSetting "changes_token" tok])
          | None => (st1, log1)
          end
        else (st1, log1) in
      if truthy (nextPageToken page)
      then changePages rest st2 changed1 log2
      else mkScan (Some changed1) st2 log2
  end.

(** What a scan obtains from the Drive. *)
Record Remote := mkRemote {
  startPageToken : option string;
  fullScan : option (list ChangedFile);
  responses : list Page
}.

(** [scanForChanges]: without a stored token the start token is saved and a
    full scan is returned; with one, the pages of changes are read. *)
Definition scanForChanges (r : Remote) (st : Store) : Scan :=
  if truthy (getSetting "changes_token" (settings st)) then
    changePages (responses r) st [] []
  else
    match startPageToken r with
    | None => mkScan None st []
    | Some tok =>
        mkScan (fullScan r) (perform (SaveSetting "changes_token" tok) st)
               [SaveSetting "changes_token" tok; FullScan]
    end.

(** The pages a scan consumes: up to the first one without a next-page
    token. *)
Fixpoint consumed (responses : list Page) : list Page :=
  match responses with
  | [] => []
  | page :: rest =>
      page :: (if truthy (nextPageToken page) then consumed rest else [])
  end.

Definition deletionsOf (cs : list Change) : list Action :=
  map (fun c => DeletePhoto (fileId c)) (filter isDeletion cs).

Definition cursorOf (page : Page) : list Action :=
  if truthy (newStartPageToken page) then
    match newStartPageToken page with
    | Some tok => [SaveSetting "changes_token" tok]
    | None => []
    end
  else [].

(** The images a list of changes reports as created or updated. *)
Definition imagesOf (cs : list Change) : list ChangedFile :=
  flat_map (fun c => if isDeletion c then []
                     else if isImage c
                          then match file c with Some f => [f] | None => [] end
                          else []) cs.

(** The store actions of one page: its deletions, then its cursor. *)
Definition pageActions (page : Page) : list Action :=
  deletionsOf (changes page) ++ cursorOf page.

End GDriveAPI.

(** ** The OneDrive provider (CHANGELOG.md, lines 261-820: class
       OneDriveProvider) *)

Module OneDriveProvider.

(** One entry of [data.value] in a folder listing: an image file
    ([item.file && item.image]), a folder ([item.folder]) or anything else. *)
Inductive Item :=
| ImageItem (itemId : string)
| FolderItem (itemId : string)
| OtherItem.

(** The children of a folder ([None] is the root), all pages of the listing
    one after the other. *)
Definition Drive := option string -> list Item.

(** The loop over the items of a listing; [scan] is the recursive call for a
    subfolder and [descend] is [maxDepth === -1 || currentDepth < maxDepth].
    The set of visited folders is threaded through the calls; adding to it
    is consing, so the list records every entry into a folder. *)
Fixpoint scanItems
         (scan : string -> list string -> option (list string * list string))
         (descend : bool) (pending : list Item)
         (photos visitedFolders : list string)
  : option (list string * list string) :=
  match pending with
  | [] => Some (photos, visitedFolders)
  | ImageItem i :: rest =>
      scanItems scan descend rest (photos ++ [i]) visitedFolders
  | FolderItem i :: rest =>
      if descend then
        match scan i visitedFolders with
        | None => None
        | Some (subPhotos, visited') =>
            scanItems scan descend rest (photos ++ subPhotos) visited'
        end
      else scanItems scan descend rest photos visitedFolders
  | OtherItem :: rest => scanItems scan descend rest photos visitedFolders
  end.

(** [scanFolder(folderId, maxDepth = -1, currentDepth = 0, visitedFolders =
    new Set())] (CHANGELOG.md, lines 470-542): the set is an argument and
    every recursive call receives the set of its caller.  The result carries
    the set as the call leaves it; [None] means the fuel ran out. *)
Fixpoint scanFolder (fuel : nat) (drive : Drive) (folderId : option string)
         (maxDepth currentDepth : Z) (visitedFolders : list string)
  : option (list string * list string) :=
  match fuel with
  | O => None
  | S fuel' =>
      let named := match folderId with
                   | Some f => negb (String.eqb f "")
                   | None => false
                   end in
      let seen := match folderId with
                  | Some f => existsb (String.eqb f) visitedFolders
                  | None => false
                  end in
      if named && seen then Some ([], visitedFolders)
      else
        scanItems
          (fun i visited =>
             scanFolder fuel' drive (Some i) maxDepth (currentDepth + 1) visited)
          ((maxDepth =? -1) || (currentDepth <? maxDepth))
          (drive folderId) []
          (match folderId with
           | Some f => if named then f :: visitedFolders else visitedFolders
           | None => visitedFolders
           end)
  end.

(** The answer to one HTTP request of [makeRequest]: data, an error the
    policy retries (network error, 5xx, 429), or any other error. *)
Inductive Answer (R : Type) :=
| Data (response : R)
| Transient
| Permanent.
Arguments Data {R} _.
Arguments Transient {R}.
Arguments Permanent {R}.

(** The while loop of [makeRequest] (CHANGELOG.md, lines 426-459):
    [attempt] counts the failures so far; after a failure that may be
    retried the loop waits min(1000 * 2^attempt, 60000) ms. *)
Fixpoint requestLoop {R} (n : nat) (attempt maxRetries : Z)
         (ask : Z -> Answer R) : Retry.Outcome R * list Retry.Event :=
  match n with
  | O => (Retry.FellThrough, [])
  | S n' =>
      match ask attempt with
      | Data response => (Retry.Resolved response, [Retry.Request attempt])
      | Transient =>
          if attempt + 1 <? maxRetries then
            let '(out, evs) := requestLoop n' (attempt + 1) maxRetries ask in
            (out, Retry.Request attempt
                    :: Retry.Wait (Z.min (1000 * 2 ^ (attempt + 1)) 60000)
                    :: evs)
          else (Retry.Threw, [Retry.Request attempt])
      | Permanent => (Retry.Threw, [Retry.Request attempt])
      end
  end.

(** What [refreshAccessToken] (CHANGELOG.md, lines 349-390) does when it
    is called: the POST to the token endpoint rejects and nothing changes;
    or the new token is taken over, with its expiry time, and the write of
    the token file throws; or the token is taken over and saved. *)
Inductive Refresh :=
| RefreshFails
| TokenNotSaved (expiry : Z)
| Refreshed (expiry : Z).

(** What a call of [makeRequest] meets before its first request: the
    answer of [isOnline()], the reading of [Date.now()] and the outcome of
    [refreshAccessToken], should it be called. *)
Record Preflight := mkPreflight {
  online : bool;
  clock : Z;
  refresh : Refresh
}.

(** Date.now() >= this.tokenExpiry - 300000 *)
Definition tokenStale (pre : Preflight) (tokenExpiry : Z) : bool :=
  clock pre >=? tokenExpiry - 300000.

(** [makeRequest(endpoint, options, maxRetries = 3)] (CHANGELOG.md, lines
    414-460): offline, it throws before any request; a token that expires
    within five minutes is refreshed first, and a failed refresh is thrown
    on; then the loop runs.  The result carries the requests and waits of
    the loop and [this.tokenExpiry] as the call leaves it. *)
Definition makeRequest {R} (pre : Preflight) (tokenExpiry maxRetries : Z)
           (ask : Z -> Answer R)
  : Retry.Outcome R * list Retry.Event * Z :=
  if negb (online pre) then (Retry.Threw, [], tokenExpiry)
  else if tokenStale pre tokenExpiry then
    match refresh pre with
    | RefreshFails => (Retry.Threw, [], tokenExpiry)
    | TokenNotSaved expiry => (Retry.Threw, [], expiry)
    | Refreshed expiry =>
        (requestLoop (Z.to_nat maxRetries) 0 maxRetries ask, expiry)
    end
  else (requestLoop (Z.to_nat maxRetries) 0 maxRetries ask, tokenExpiry).

(** The call gets as far as its loop: the device is online and the token
    is fresh or has been refreshed. *)
Definition reachesLoop (pre : Preflight) (tokenExpiry : Z) : Prop :=
  online pre = true /\
  (tokenStale pre tokenExpiry = true ->
   exists expiry, refresh pre = Refreshed expiry).

End OneDriveProvider.

(** ** The OneDrive provider, continued (CHANGELOG.md, lines 548-582:
       fullScan; lines 758-813: isPhotoInMonitoredFolders, isDescendantOf) *)

Module OneDriveSync.
Import OneDriveProvider.

(** One entry of [config.folders]: [{ id, depth }], either of which may be
    left out. *)
Record FolderConfig := mkFolderConfig {
  fc_id : option string;
  fc_depth : option Z
}.

(** [map.set(key, value)] on a JavaScript Map, the map being the list of its
    values in insertion order: a key that is present keeps its place and
    takes the new value, a new key goes to the end. *)
Fixpoint mapSet {A} (key : A -> string) (x : A) (m : list A) : list A :=
  match m with
  | [] => [x]
  | y :: m' =>
      if String.eqb (key y) (key x) then x :: m' else y :: mapSet key x m'
  end.

(** Array.from(new Map(allPhotos.map(photo => [photo.id, photo])).values()) *)
Definition uniqueById {A} (key : A -> string) (l : list A) : list A :=
  fold_left (fun m x => mapSet key x m) l [].

(** [folderConfig.id || null] *)
Definition folderIdOf (fc : FolderConfig) : option string :=
  match fc_id fc with
  | Some f => if String.eqb f "" then None else Some f
  | None => None
  end.

(** [folderConfig.depth !== undefined ? folderConfig.depth : -1] *)
Definition depthOf (fc : FolderConfig) : Z :=
  match fc_depth fc with Some d => d | None => -1 end.

(** The loop of [fullScan] over the configured folders: each folder is
    scanned with a set of visited folders of its own and the results are
    appended. *)
Fixpoint scanAll (fuel : nat) (drive : Drive) (folders : list FolderConfig)
         (allPhotos : list string) : option (list string) :=
  match folders with
  | [] => Some allPhotos
  | fc :: rest =>
      match scanFolder fuel drive (folderIdOf fc) (depthOf fc) 0 [] with
      | None => None
      | Some (photos, _) => scanAll fuel drive rest (allPhotos ++ photos)
      end
  end.

(** [fullScan]: nothing to do without configured folders; otherwise scan
    them all and drop the duplicates. *)
Definition fullScan (fuel : nat) (drive : Drive) (folders : list FolderConfig)
  : option (list string) :=
  match folders with
  | [] => Some []
  | _ :: _ =>
      match scanAll fuel drive folders [] with
      | None => None
      | Some allPhotos => Some (uniqueById (fun i => i) allPhotos)
      end
  end.

(** The answer to GET /me/drive/items/{id}, as far as [isDescendantOf] reads
    it: the id of the parent, no parent reference (the root), or a failed
    request. *)
Inductive Lookup :=
| ParentIs (parentId : string)
| NoParent
| LookupFails.

(** The while loop of [isDescendantOf]; [steps] is what is left of
    [maxDepth = 20], and the second component counts the requests sent. *)
Fixpoint climb (steps : nat) (parents : string -> Lookup)
         (currentId : string) (ancestorId : option string)
         (visited : list string) : bool * nat :=
  match steps with
  | O => (false, O)
  | S steps' =>
      if String.eqb currentId "" then (false, O)
      else if existsb (String.eqb currentId) visited then (false, O)
      else if match ancestorId with
              | Some a => String.eqb currentId a
              | None => false
              end
      then (true, O)
      else
        match parents currentId with
        | ParentIs p =>
            if String.eqb p "" then (false, 1%nat)
            else
              let '(found, sent) :=
                climb steps' parents p ancestorId (currentId :: visited) in
              (found, S sent)
        | NoParent => (false, 1%nat)
        | LookupFails => (false, 1%nat)
        end
  end.

Definition isDescendantOf (parents : string -> Lookup) (folderId : string)
           (ancestorId : option string) : bool * nat :=
  climb 20 parents folderId ancestorId [].

(** [isPhotoInMonitoredFolders(item)], [parentId] being
    [item.parentReference.id] when there is one. *)
Definition isPhotoInMonitoredFolders (folders : list FolderConfig)
           (parents : string -> Lookup) (parentId : option string) : bool :=
  match folders with
  | [] => true
  | _ :: _ =>
      match parentId with
      | None => false
      | Some parent =>
          if String.eqb parent "" then false
          else
            existsb (fun fc =>
                       match fc_id fc with
                       | Some m => String.eqb parent m
                       | None => false
                       end
                       || fst (isDescendantOf parents parent (fc_id fc)))
                    folders
      end
  end.

(** [a] is [x] or lies on the chain of parents above [x]. *)
Inductive Ancestor (parents : string -> Lookup) : string -> string -> Prop :=
| ancestor_self x : Ancestor parents x x
| ancestor_up x p a :
    parents x = ParentIs p -> Ancestor parents p a -> Ancestor parents x a.








End OneDriveSync.

(** ** Connection state and the API client (TECH_DESIGN.md, lines 1130-1219:
       class ConnectionState; lines 1221-1271: class GDriveClient) *)

Module ConnectionState.

Record State := mkState {
  isOnline : bool;
  failureCount : Z;
  lastSuccessTime : Z;
  consecutiveFailures : Z;
  backoffDelay : Z;
  maxBackoffDelay : Z
}.

(** The constructor, run at time [now]. *)
Definition init (now : Z) : State := mkState true 0 now 0 1000 300000.

(** [markFailure(error)]: the boolean tells whether the OFFLINE_MODE
    notification is sent.  The category of the error goes into the log and
    into that notification only. *)
Definition markFailure (s : State) : State * bool :=
  let failures := consecutiveFailures s + 1 in
  let goesOffline := (failures >=? 3) && isOnline s in
  (mkState (if goesOffline then false else isOnline s)
           (failureCount s + 1)
           (lastSuccessTime s)
           failures
           (Z.min (backoffDelay s * 2) (maxBackoffDelay s))
           (maxBackoffDelay s),
   goesOffline).

(** [markSuccess()], run at time [now]: the boolean tells whether the
    ONLINE_MODE notification is sent. *)
Definition markSuccess (now : Z) (s : State) : State * bool :=
  (mkState true (failureCount s) now 0 1000 (maxBackoffDelay s),
   negb (isOnline s)).

(** [shouldRetry()], run at time [now]. *)
Definition shouldRetry (now : Z) (s : State) : bool :=
  if negb (isOnline s) then false
  else now - lastSuccessTime s >=? backoffDelay s.

(** What happens to the connection, one call after the other. *)
Inductive Event :=
| Failure
| Success (now : Z).

Definition step (s : State) (e : Event) : State :=
  match e with
  | Failure => fst (markFailure s)
  | Success now => fst (markSuccess now s)
  end.

Definition run (events : list Event) (s : State) : State :=
  fold_left step events s.

End ConnectionState.

Module GDriveClient.
Import ConnectionState.

(** How one call of [fn] ends: with a result, or with an error that may
    carry the status of an HTTP response. *)
Inductive Answer (R : Type) :=
| Result (value : R)
| Error (status : option Z).
Arguments Result {R} _.
Arguments Error {R} _.

(** What attempt number [k] meets: the answer of [fn] and the three clock
    readings the attempt may take (the two [shouldRetry] checks and
    [markSuccess]). *)
Record Try (R : Type) := mkTry {
  answer : Answer R;
  clockCheck : Z;
  clockWait : Z;
  clockDone : Z
}.
Arguments mkTry {R} _ _ _ _.
Arguments answer {R} _.
Arguments clockCheck {R} _.
Arguments clockWait {R} _.
Arguments clockDone {R} _.

Inductive Effect :=
| Call (attempt : Z)
| Backoff (ms : Z)
| Delay (ms : Z).

(** [isNonRetryableError(error)] *)
Definition isNonRetryableError (status : option Z) : bool :=
  match status with
  | None => false
  | Some code => (code =? 401) || (code =? 403) || (code =? 404)
  end.

(** The waits before the call of an attempt: [waitForBackoff] is entered
    when [shouldRetry()] is false on a later attempt, and sleeps when
    [shouldRetry()] is still false. *)
Definition waitsBefore {R} (attempt : Z) (t : Try R) (s : State)
  : list Effect :=
  if negb (shouldRetry (clockCheck t) s) && (attempt >? 1) then
    if negb (shouldRetry (clockWait t) s) then [Backoff (backoffDelay s)]
    else []
  else [].

(** The for loop of [callAPI(fn, retries = 3)]; [n] counts the iterations
    left and [tries k] is what attempt [k] meets. *)
Fixpoint callLoop {R} (n : nat) (attempt retries : Z) (tries : Z -> Try R)
         (s : State) : Retry.Outcome R * State * list Effect :=
  match n with
  | O => (Retry.FellThrough, s, [])
  | S n' =>
      let t := tries attempt in
      let before := waitsBefore attempt t s in
      match answer t with
      | Result value =>
          (Retry.Resolved value, fst (markSuccess (clockDone t) s),
           before ++ [Call attempt])
      | Error status =>
          let s1 := fst (markFailure s) in
          if isNonRetryableError status then
            (Retry.Threw, s1, before ++ [Call attempt])
          else if attempt =? retries then
            (Retry.Threw, s1, before ++ [Call attempt])
          else
            let '(out, s2, effects) :=
              callLoop n' (attempt + 1) retries tries s1 in
            (out, s2,
             before ++ Call attempt
                    :: Delay (Z.min (attempt * 2000) 10000) :: effects)
      end
  end.

Definition callAPI {R} (retries : Z) (tries : Z -> Try R) (s : State)
  : Retry.Outcome R * State * list Effect :=
  callLoop (Z.to_nat retries) 1 retries tries s.

Definition calls (effects : list Effect) : list Z :=
  flat_map (fun e => match e with Call k => [k] | _ => [] end) effects.

Definition retryDelays (effects : list Effect) : list Z :=
  flat_map (fun e => match e with Delay ms => [ms] | _ => [] end) effects.


End GDriveClient.

(** ** Start-up of the store (TECH_DESIGN_V3.md, lines 318-354:
       initDatabase) *)

Module Startup.
Import PhotoDatabase GDriveAPI.

(** The database file at [dbPath]. *)
Inductive DbFile :=
| Absent
| Intact (content : Store)
| Damaged.

(** The answer to PRAGMA integrity_check raced against the 5 s timer. *)
Inductive Integrity :=
| IntegrityOk
| IntegrityNotOk
| IntegrityTimedOut
| IntegrityThrows.

(** What the start-up obtains from SQLite and the file system. *)
Record Env := mkEnv {
  open_ok : bool;
  check : Integrity;
  unlink_ok : bool;
  reopen_ok : bool;
  schema_ok : bool
}.

(** The promise of [initDatabase]: a handle on the file it opened, or a
    rejection. *)
Inductive Result :=
| Opened (content : DbFile)
| Rejects.

(** [sqlite.open] creates the file when it is missing. *)
Definition openOn (f : DbFile) : DbFile :=
  match f with
  | Absent => Intact emptyStore
  | _ => f
  end.

(** The catch block: unlink (failure swallowed), re-open, createSchema.
    The second component is the file left on disk. *)
Definition rebuild (e : Env) (f : DbFile) : Result * DbFile :=
  let f1 := if unlink_ok e then Absent else f in
  if reopen_ok e then
    let f2 := openOn f1 in
    if schema_ok e then (Opened f2, f2) else (Rejects, f2)
  else (Rejects, f1).

Definition initDatabase (e : Env) (f : DbFile) : Result * DbFile :=
  if open_ok e then
    match check e with
    | IntegrityOk => (Opened (openOn f), openOn f)
    | _ => rebuild e (openOn f)
    end
  else rebuild e f.

End Startup.

(** ** Image normalisation (TECH_DESIGN.md, lines 808-876:
       downloadAndCachePhoto; lines 950-965: isValidImage) *)

Module ImagePipeline.

Record Config := mkConfig {
  showWidth : Z;
  showHeight : Z
}.

(** The fields of [sharp(tempPath).metadata()] the validation reads. *)
Record Metadata := mkMetadata {
  format : string;
  width : Z;
  height : Z
}.

Definition lowerChar (c : Ascii.ascii) : Ascii.ascii :=
  let n := Ascii.nat_of_ascii c in
  if ((65 <=? n) && (n <=? 90))%nat then Ascii.ascii_of_nat (n + 32) else c.

Fixpoint toLowerCase (s : string) : string :=
  match s with
  | EmptyString => EmptyString
  | String c s' => String (lowerChar c) (toLowerCase s')
  end.

Definition supportedFormats : list string :=
  ["jpeg"; "jpg"; "png"; "webp"; "gif"; "heif"; "heic"; "tiff"; "bmp"]%string.

Definition isValidImage (m : Metadata) : bool :=
  if negb (existsb (String.eqb (toLowerCase (format m))) supportedFormats)
  then false
  else if (width m <? 100) || (height m <? 100) then false
  else if (width m >? 16384) || (height m >? 16384) then false
  else true.






End ImagePipeline.

(** ** The adaptive cache manager of the first design (TECH_DESIGN.md,
       lines 487-508: table photos; lines 620-970: class CacheManager) *)

Module CacheManagerV1.
Import PhotoDatabase.

(** A row of the first design's table: the columns of [Photo] and the
    discovery and view tracking (discovered_at INTEGER, last_seen_in_scan
    INTEGER, is_deleted INTEGER DEFAULT 0, view_count INTEGER DEFAULT 0). *)
Record Row := mkRow {
  photo : Photo;
  discovered_at : option Z;
  last_seen_in_scan : option Z;
  is_deleted : option Z;
  view_count : option Z
}.

Definition Table := list Row.

Definition rowId (r : Row) : string := id (photo r).

(** The PRIMARY KEY constraint on [id]. *)
Definition primary_key (db : Table) : Prop := NoDup (map rowId db).

Record Config := mkConfig {
  cachePath : string;
  maxCacheSizeMB : Z;
  prefetchAheadCount : Z;
  cacheTickInterval : Z;
  batchDownloadSize : Z
}.

(** [downloadMetrics]: the window of the last tick durations and their
    average.  The code stores the average as the double [sum / length];
    here it is the pair of the sum and the length. *)
Record Metrics := mkMetrics {
  avgSum : Z;
  avgCount : Z;
  recentDownloads : list Z
}.

(** The metrics the constructor sets: an estimate of 5 s, no measurement. *)
Definition initialMetrics : Metrics := mkMetrics 5000 1 [].

Record State := mkState {
  db : Table;
  files : CacheManager.Files;
  isTickRunning : bool;
  downloadMetrics : Metrics
}.

(** WHERE cached_path IS NOT NULL *)
Definition cachedRows (d : Table) : list Row :=
  filter (fun r => isCached (photo r)) d.

(** The row that the query of [getCacheState()] yields:
    SELECT COUNT( * ) as cachedCount,
    COALESCE(SUM(cached_size_bytes), 0) as totalBytes FROM photos
    WHERE cached_path IS NOT NULL.  [getCacheState] returns what
    [db.query] resolves to; see [fieldOf] for what its caller reads. *)
Record CacheState := mkCacheState {
  cachedCount : Z;
  totalBytes : Z
}.

Definition getCacheState (d : Table) : CacheState :=
  mkCacheState
    (Z.of_nat (List.length (cachedRows d)))
    (fold_right (fun r acc => CacheManager.sizeOf (photo r) + acc) 0
                (cachedRows d)).

(** [avgTickTime > cacheTickInterval * 0.8], on the exact quotient. *)
Definition ticksTooLong (cfg : Config) (m : Metrics) : bool :=
  5 * avgSum m >? 4 * cacheTickInterval cfg * avgCount m.

(** A number read off the result of [getCacheState()], as
    [cacheState.totalBytes] or by [const { cachedCount } = cacheState]: the
    column of the row when [db.query] resolves to the row, undefined when
    it resolves to an array. *)
Definition fieldOf (shape : QueryShape) (value : Z) : option Z :=
  match shape with
  | SingleRow => Some value
  | RowArray => None
  end.

(** [a > b] and [a < b] for a number [a] that may be undefined: a
    comparison with undefined is false. *)
Definition gtNumber (a : option Z) (b : Z) : bool :=
  match a with
  | Some x => x >? b
  | None => false
  end.

Definition ltNumber (a : option Z) (b : Z) : bool :=
  match a with
  | Some x => x <? b
  | None => false
  end.

(** [calculateOptimalBatchSize(cacheState)] (lines 686-715), [cachedCount]
    being what the destructuring of [cacheState] gives. *)
Definition calculateOptimalBatchSize (cfg : Config) (m : Metrics)
           (cachedCount : option Z) : Z :=
  let photosAhead := cachedCount in
  if ltNumber photosAhead 10 then 10
  else if gtNumber photosAhead (prefetchAheadCount cfg) then 0
  else if ticksTooLong cfg m then Z.max 1 (batchDownloadSize cfg / 2)
  else batchDownloadSize cfg.

(** [updateMetrics(tickDuration)] (lines 717-728): push, shift when more
    than ten are held, average what is held. *)
Definition updateMetrics (tickDuration : Z) (m : Metrics) : Metrics :=
  let pushed := recentDownloads m ++ [tickDuration] in
  let kept := if (10 <? List.length pushed)%nat then tl pushed else pushed in
  mkMetrics (fold_left Z.add kept 0) (Z.of_nat (List.length kept)) kept.

(** Insertion into a list ordered by [le]; rows with equal keys keep their
    table order. *)
Fixpoint insertRow (le : Row -> Row -> bool) (r : Row) (l : list Row)
  : list Row :=
  match l with
  | [] => [r]
  | q :: l' => if le r q then r :: q :: l' else q :: insertRow le r l'
  end.

Fixpoint orderRows (le : Row -> Row -> bool) (l : list Row) : list Row :=
  match l with
  | [] => []
  | r :: l' => insertRow le r (orderRows le l')
  end.

(** ORDER BY last_viewed_at ASC *)
Definition byViewed (a b : Row) : bool :=
  viewed_le (last_viewed_at (photo a)) (last_viewed_at (photo b)).

(** ORDER BY last_viewed_at ASC NULLS FIRST, discovered_at ASC *)
Definition byViewedThenDiscovered (a b : Row) : bool :=
  if viewed_eqb (last_viewed_at (photo a)) (last_viewed_at (photo b))
  then viewed_le (discovered_at a) (discovered_at b)
  else viewed_le (last_viewed_at (photo a)) (last_viewed_at (photo b)).

(** WHERE cached_path IS NOT NULL AND last_viewed_at < ? : a row that was
    never viewed does not satisfy the comparison. *)
Definition evictable (threshold : Z) (r : Row) : bool :=
  isCached (photo r) &&
  match last_viewed_at (photo r) with
  | Some v => v <? threshold
  | None => false
  end.

(** The query of [evictOldPhotos] at time [now]:
    SELECT id, cached_path FROM photos WHERE cached_path IS NOT NULL AND
    last_viewed_at < ? ORDER BY last_viewed_at ASC LIMIT 20,
    with [now - 10 * 60 * 1000] for the parameter. *)
Definition photosToEvict (now : Z) (d : Table) : list Row :=
  firstn 20 (orderRows byViewed (filter (evictable (now - 10 * 60 * 1000)) d)).

Definition onPhoto (f : Photo -> Photo) (r : Row) : Row :=
  mkRow (f (photo r)) (discovered_at r) (last_seen_in_scan r) (is_deleted r)
        (view_count r).

(** UPDATE photos SET cached_path = NULL, cached_size_bytes = NULL
    WHERE id = ? , for every selected photo. *)
Definition clearSelected (photos : list Row) (d : Table) : Table :=
  fold_left
    (fun t p =>
       map (fun r => if String.eqb (rowId r) (rowId p)
                     then onPhoto clear_cache_columns r else r) t)
    photos d.

Definition pathsOf (photos : list Row) : list string :=
  CacheManager.pathsOf (map photo photos).

Definition unlinkEach (unlink_ok : string -> bool) (paths : list string)
           (fs : CacheManager.Files) : CacheManager.Files :=
  fold_left
    (fun f path => if unlink_ok path then CacheManager.removeFile path f
                   else f)
    paths fs.

(** [evictOldPhotos()] (lines 741-783): nothing selected, nothing done;
    otherwise every file is unlinked (a failed unlink is logged), then the
    rows are updated in one transaction, which is rolled back and rethrown
    when a statement fails.  The result is the number of rows evicted. *)
Definition evictOldPhotos (now : Z) (unlink_ok : string -> bool)
           (commit_ok : bool) (d : Table) (fs : CacheManager.Files)
  : Retry.Outcome Z * Table * CacheManager.Files :=
  let photos := photosToEvict now d in
  match photos with
  | [] => (Retry.Resolved 0, d, fs)
  | _ :: _ =>
      let fs' := unlinkEach unlink_ok (pathsOf photos) fs in
      if commit_ok
      then (Retry.Resolved (Z.of_nat (List.length photos)),
            clearSelected photos d, fs')
      else (Retry.Threw, d, fs')
  end.

(** The events of a download, as the response stream, the write stream and
    the timer deliver them. *)
Inductive StreamEvent :=
| Chunk (length : N)
| SourceError
| WriteError
| Finish
| TimerFires.

Inductive Promise :=
| Pending
| Fulfilled
| Rejected.

(** A promise settles once: later calls of resolve and reject do nothing. *)
Definition settle (p to : Promise) : Promise :=
  match p with
  | Pending => to
  | _ => p
  end.

Record Stream := mkStream {
  promise : Promise;
  downloadedBytes : Z
}.

(** The handlers of [streamDownload]; the timer exists only when [timeout]
    is not zero. *)
Definition onEvent (maxBytes timeout : Z) (st : Stream) (e : StreamEvent)
  : Stream :=
  match e with
  | Chunk n =>
      let received := downloadedBytes st + Z.of_N n in
      mkStream (if received >? maxBytes then settle (promise st) Rejected
                else promise st)
               received
  | SourceError => mkStream (settle (promise st) Rejected) (downloadedBytes st)
  | WriteError => mkStream (settle (promise st) Rejected) (downloadedBytes st)
  | Finish => mkStream (settle (promise st) Fulfilled) (downloadedBytes st)
  | TimerFires =>
      if timeout =? 0 then st
      else mkStream (settle (promise st) Rejected) (downloadedBytes st)
  end.

(** [streamDownload(response, targetPath, { maxSizeMB, timeout })]
    (lines 904-948): the state of the promise after the events. *)
Definition streamDownload (maxSizeMB timeout : Z) (events : list StreamEvent)
  : Promise :=
  promise (fold_left (onEvent (maxSizeMB * 1024 * 1024) timeout) events
                     (mkStream Pending 0)).

(** The bytes of a list of chunks. *)
Definition bytesOf (chunks : list N) : Z :=
  fold_right (fun n acc => Z.of_N n + acc) 0 chunks.

(** What one call of [downloadAndCachePhoto] meets: the answers of
    [drive.files.get] by attempt, the events of the stream and the size of
    the temporary file they leave, the metadata sharp reads ([None] when it
    throws), the size of the JPEG sharp writes ([None] when it throws),
    whether the unlinks and the two updates of the row go through, and the
    clock. *)
Record Source := mkSource {
  get : Z -> option unit;
  stream : list StreamEvent;
  tempSize : Z;
  metadata : option ImagePipeline.Metadata;
  encoded : option Z;
  unlinkTemp_ok : bool;
  update_ok : bool;
  cleanupTemp_ok : bool;
  cleanupFinal_ok : bool;
  mark_ok : bool;
  clock : Z
}.

(** path.join(this.config.cachePath, `${photoId}_temp`) *)
Definition tempPath (cfg : Config) (photoId : string) : string :=
  (cachePath cfg ++ "/" ++ photoId ++ "_temp")%string.

(** path.join(this.config.cachePath, `${photoId}.jpg`) *)
Definition finalPath (cfg : Config) (photoId : string) : string :=
  (cachePath cfg ++ "/" ++ photoId ++ ".jpg")%string.

(** Modelled from the spec: the body of [db.updatePhoto(id, fields)] is not
    part of the design document; it is the store's per-photoId update,
    UPDATE photos SET <fields> WHERE id = ?, like the UPDATE statements the
    document spells out. *)
Definition updatePhoto (photoId : string) (fields : Row -> Row) (d : Table)
  : Table :=
  map (fun r => if String.eqb (rowId r) photoId then fields r else r) d.

(** { cached_path: finalPath, cached_at: Date.now(),
      cached_size_bytes: stats.size } *)
Definition cachedFields (path : string) (at_ size : Z) (r : Row) : Row :=
  onPhoto (set_cache_columns path at_ size) r.

(** { is_deleted: 1, cached_path: null } *)
Definition problematicFields (r : Row) : Row :=
  mkRow (mkPhoto (id (photo r)) (folder_id (photo r)) (filename (photo r))
                 (creation_time (photo r)) (width (photo r))
                 (height (photo r)) (last_viewed_at (photo r)) None
                 (cached_at (photo r)) (cached_size_bytes (photo r)))
        (discovered_at r) (last_seen_in_scan r) (Some 1) (view_count r).

(** [cleanupFailedDownload(tempPath, finalPath)] (lines 878-885): a path
    that is still null is skipped, an unlink that throws is ignored. *)
Definition cleanupFailedDownload (src : Source) (temp final : option string)
           (fs : CacheManager.Files) : CacheManager.Files :=
  let fs1 := match temp with
             | Some path => if cleanupTemp_ok src
                            then CacheManager.removeFile path fs else fs
             | None => fs
             end in
  match final with
  | Some path => if cleanupFinal_ok src
                 then CacheManager.removeFile path fs1 else fs1
  | None => fs1
  end.

(** How a call of [downloadAndCachePhoto] ends: it returns
    [{ success, size }], its promise rejects, or it waits for a stream that
    never settles. *)
Inductive Ending :=
| Returned (success : bool) (size : option Z)
| Rejects
| NeverSettles.

(** The catch block of [downloadAndCachePhoto]. *)
Definition failedDownload (src : Source) (photoId : string)
           (temp final : option string) (d : Table) (fs : CacheManager.Files)
  : Ending * Table * CacheManager.Files :=
  let fs' := cleanupFailedDownload src temp final fs in
  if mark_ok src
  then (Returned false None, updatePhoto photoId problematicFields d, fs')
  else (Rejects, d, fs').

(** [downloadAndCachePhoto(photoId)] (lines 808-876) *)
Definition downloadAndCachePhoto (cfg : Config) (src : Source)
           (photoId : string) (d : Table) (fs : CacheManager.Files)
  : Ending * Table * CacheManager.Files :=
  match fst (Retry.downloadWithRetry 3 (get src)) with
  | Retry.Resolved _ =>
      let temp := tempPath cfg photoId in
      let final := finalPath cfg photoId in
      let failed := failedDownload src photoId (Some temp) (Some final) d in
      let fs1 := CacheManager.writeFile temp (tempSize src) fs in
      match streamDownload 50 60000 (stream src) with
      | Pending => (NeverSettles, d, fs1)
      | Rejected => failed fs1
      | Fulfilled =>
          match metadata src with
          | None => failed fs1
          | Some m =>
              if negb (ImagePipeline.isValidImage m) then failed fs1
              else
                match encoded src with
                | None => failed fs1
                | Some size =>
                    let fs2 := CacheManager.writeFile final size fs1 in
                    if size <? 1024 then failed fs2
                    else if negb (unlinkTemp_ok src) then failed fs2
                    else
                      let fs3 := CacheManager.removeFile temp fs2 in
                      if update_ok src
                      then (Returned true (Some size),
                            updatePhoto photoId
                              (cachedFields final (clock src) size) d,
                            fs3)
                      else failed fs3
                end
          end
      end
  | _ => failedDownload src photoId None None d fs
  end.

(** Promise.allSettled(photos.map(photo =>
    this.downloadAndCachePhoto(photo.id))).  Each download touches the
    files and the row of its own photo only, so the downloads are run one
    after the other in the order of the batch. *)
Fixpoint downloadEach (cfg : Config) (source : string -> Source)
         (ids : list string) (d : Table) (fs : CacheManager.Files)
  : list Ending * Table * CacheManager.Files :=
  match ids with
  | [] => ([], d, fs)
  | i :: ids' =>
      let '(e, d1, fs1) := downloadAndCachePhoto cfg (source i) i d fs in
      let '(es, d2, fs2) := downloadEach cfg source ids' d1 fs1 in
      (e :: es, d2, fs2)
  end.

Definition isReturned (e : Ending) : bool :=
  match e with Returned _ _ => true | _ => false end.

Definition isRejects (e : Ending) : bool :=
  match e with Rejects => true | _ => false end.

Definition isNeverSettles (e : Ending) : bool :=
  match e with NeverSettles => true | _ => false end.

(** [batchDownloadPhotos(photos)] (lines 785-806): [{ succeeded, failed }]
    of the result, or [None] while a download has not settled. *)
Definition batchDownloadPhotos (cfg : Config) (source : string -> Source)
           (ids : list string) (d : Table) (fs : CacheManager.Files)
  : option (Z * Z) * Table * CacheManager.Files :=
  let '(results, d', fs') := downloadEach cfg source ids d fs in
  (if existsb isNeverSettles results then None
   else Some (Z.of_nat (List.length (filter isReturned results)),
              Z.of_nat (List.length (filter isRejects results))),
   d', fs').

(** WHERE cached_path IS NULL AND is_deleted = 0 *)
Definition wanted (r : Row) : bool :=
  negb (isCached (photo r)) &&
  match is_deleted r with
  | Some flag => flag =? 0
  | None => false
  end.

(** The query of step 4 of [cacheTick]:
    SELECT id, filename FROM photos WHERE cached_path IS NULL AND
    is_deleted = 0 ORDER BY last_viewed_at ASC NULLS FIRST,
    discovered_at ASC LIMIT ? *)
Definition photosToDownload (batchSize : Z) (d : Table) : list Row :=
  firstn (Z.to_nat batchSize)
         (orderRows byViewedThenDiscovered (filter wanted d)).

(** What a tick reads from its environment. *)
Record World := mkWorld {
  now : Z;
  unlink_ok : string -> bool;
  commit_ok : bool;
  source : string -> Source;
  tickDuration : Z
}.

(** [cacheTick()] (lines 635-684): skipped while another tick runs;
    otherwise the cache is measured, evicted when over the limit, and
    filled with a batch whose size comes from the measurement taken before
    the eviction.  The measurement is read as a row; [shape] tells what
    [db.query] hands back.  An eviction that throws ends the tick without
    new metrics; a download that never settles leaves the flag raised. *)
Definition cacheTick (shape : QueryShape) (cfg : Config) (w : World)
           (st : State) : State * list CacheManager.Effect :=
  if isTickRunning st then (st, [])
  else
    let cacheState := getCacheState (db st) in
    let over :=
      gtNumber (fieldOf shape (totalBytes cacheState))
               (maxCacheSizeMB cfg * 1024 * 1024) in
    let '(evicted, d1, fs1) :=
      if over
      then evictOldPhotos (now w) (unlink_ok w) (commit_ok w)
                          (db st) (files st)
      else (Retry.Resolved 0, db st, files st) in
    let freed :=
      if over then map CacheManager.Unlink (pathsOf (photosToEvict (now w) (db st)))
      else [] in
    match evicted with
    | Retry.Resolved _ =>
        let batchSize :=
          calculateOptimalBatchSize cfg (downloadMetrics st)
            (fieldOf shape (cachedCount cacheState)) in
        let ids :=
          if batchSize >? 0
          then map rowId (photosToDownload batchSize d1) else [] in
        let '(result, d2, fs2) :=
          batchDownloadPhotos cfg (source w) ids d1 fs1 in
        match result with
        | Some _ =>
            (mkState d2 fs2 false
                     (updateMetrics (tickDuration w) (downloadMetrics st)),
             freed ++ map CacheManager.Fetch ids)
        | None =>
            (mkState d2 fs2 true (downloadMetrics st),
             freed ++ map CacheManager.Fetch ids)
        end
    | _ => (mkState d1 fs1 false (downloadMetrics st), freed)
    end.

(** Successive firings of the timer, each in its own world, with the
    effects of each firing. *)
Fixpoint cacheTicks (shape : QueryShape) (cfg : Config) (ws : list World)
         (st : State) : State * list (list CacheManager.Effect) :=
  match ws with
  | [] => (st, [])
  | w :: ws' =>
      let '(st1, effects) := cacheTick shape cfg w st in
      let '(st2, later) := cacheTicks shape cfg ws' st1 in
      (st2, effects :: later)
  end.

Definition fetched (effects : list CacheManager.Effect) : list string :=
  flat_map (fun e => match e with
                     | CacheManager.Fetch i => [i]
                     | _ => []
                     end) effects.

Definition unlinked (effects : list CacheManager.Effect) : list string :=
  flat_map (fun e => match e with
                     | CacheManager.Unlink path => [path]
                     | _ => []
                     end) effects.

End CacheManagerV1.

(** ** Concrete scenarios (after the end-to-end scenarios of the spec and
     the fixtures of tests/unit/CacheManager.test.js) *)

Module Scenario.
Import PhotoDatabase.
Local Open Scope string_scope.

Definition MiB : Z := 1024 * 1024.

Definition cfg : CacheManager.Config := CacheManager.mkConfig "cache" 200.

(** A row as the scan inserts it: nothing viewed, nothing cached. *)
Definition fresh (i : string) : Photo :=
  mkPhoto i "folder1" (Some (i ++ ".jpg")) None (Some 1920) (Some 1080)
          None None None None.

(** A row whose file is in the cache directory. *)
Definition cached (i : string) (viewed : option Z) (size at_ : Z) : Photo :=
  mkPhoto i "folder1" (Some (i ++ ".jpg")) None (Some 1920) (Some 1080)
          viewed (Some (CacheManager.filePath cfg i)) (Some at_) (Some size).

(** The cache directory that holds exactly the files of the cached rows. *)
Definition diskOf (d : Table) : CacheManager.Files :=
  fun q =>
    match find (fun p => match cached_path p with
                         | Some x => String.eqb x q
                         | None => false
                         end) d with
    | Some p => cached_size_bytes p
    | None => None
    end.

(** S1: three cached photos, one of them never shown. *)
Definition threePhotos : Table :=
  [cached "a" (Some 20) 204800 1; cached "b" None 204800 2;
   cached "c" (Some 10) 204800 3].

Definition threeTicks : list PhotoDisplay.Tick :=
  [PhotoDisplay.mkTick 60000 7 (fun _ => Some "jpeg bytes") true;
   PhotoDisplay.mkTick 120000 1 (fun _ => Some "jpeg bytes") true;
   PhotoDisplay.mkTick 180000 4 (fun _ => Some "jpeg bytes") true].

(** S3: the provider rejects every download. *)
Definition offline : CacheManager.World :=
  CacheManager.mkWorld (fun _ => CacheManager.Rejected) (fun _ => 0)
                       (fun _ => true).

Definition onePending : CacheManager.State :=
  CacheManager.mkState [fresh "a"] (fun _ => None) false 0.

(** Twelve cached photos of 100 MiB each under the 200 MiB limit. *)
Definition twelve : Table :=
  map (fun '(i, n) => cached i (Some n) (100 * MiB) n)
      [("a", 1); ("b", 2); ("c", 3); ("d", 4); ("e", 5); ("f", 6);
       ("g", 7); ("h", 8); ("i", 9); ("j", 10); ("k", 11); ("l", 12)].

Definition overfull : CacheManager.State :=
  CacheManager.mkState twelve (diskOf twelve) false 0.

(** One cached photo of 300 MiB, alone over the limit, and one pending. *)
Definition oneBig : CacheManager.State :=
  CacheManager.mkState [cached "a" (Some 5) (300 * MiB) 4; fresh "b"]
                       (diskOf [cached "a" (Some 5) (300 * MiB) 4])
                       false 0.

(** A provider that delivers 150 KiB for every photo at time 9000. *)
Definition online : CacheManager.World :=
  CacheManager.mkWorld (fun _ => CacheManager.Complete 153600)
                       (fun _ => 9000) (fun _ => true).

(** One page of changes: a new image, a removal, and the next cursor. *)
Definition newImage : GDriveAPI.ChangedFile :=
  GDriveAPI.mkChangedFile "img1" (Some "image/jpeg") false.

Definition onePage : GDriveAPI.Page :=
  GDriveAPI.mkPage
    [GDriveAPI.mkChange "img1" false (Some newImage);
     GDriveAPI.mkChange "b" true None]
    None (Some "t2").

Definition remote : GDriveAPI.Remote :=
  GDriveAPI.mkRemote (Some "t0") (Some []) [onePage].

Definition synced : GDriveAPI.Store :=
  GDriveAPI.mkStore [fresh "b"; fresh "c"] [("changes_token", "t1")].

(** A OneDrive whose folders "x" and "y" hold one photo each and each
    other. *)
Definition loopDrive : OneDriveProvider.Drive :=
  fun f =>
    match f with
    | None => [OneDriveProvider.FolderItem "x"]
    | Some g =>
        if String.eqb g "x"
        then [OneDriveProvider.ImageItem "p1"; OneDriveProvider.FolderItem "y"]
        else if String.eqb g "y"
        then [OneDriveProvider.ImageItem "p2"; OneDriveProvider.FolderItem "x"]
        else []
    end.

Definition loopFolders : list string := ["x"; "y"].

(** Both folders of the loop configured, the second with a depth limit. *)
Definition bothFolders : list OneDriveSync.FolderConfig :=
  [OneDriveSync.mkFolderConfig (Some "x") None;
   OneDriveSync.mkFolderConfig (Some "y") (Some 1)].

(** A row of the first design's table, discovered at [discovered], with
    its is_deleted flag. *)
Definition row (p : Photo) (discovered flag : Z) : CacheManagerV1.Row :=
  CacheManagerV1.mkRow p (Some discovered) None (Some flag) (Some 0).

(** Two cached photos, one pending, and one that was marked deleted. *)
Definition album : CacheManagerV1.Table :=
  [row (cached "a" (Some 20) 204800 1) 1 0;
   row (cached "b" None 204800 2) 2 0;
   row (fresh "c") 3 0;
   row (fresh "d") 4 1].

Definition cfgV1 : CacheManagerV1.Config :=
  CacheManagerV1.mkConfig "cache" 200 20 30000 5.

(** A download that goes through: 65 KiB arrive, a 4000 x 3000 JPEG is
    read and a 200 KiB JPEG is written. *)
Definition goodSource : CacheManagerV1.Source :=
  CacheManagerV1.mkSource
    (fun _ => Some tt)
    [CacheManagerV1.Chunk 65536; CacheManagerV1.Chunk 1024;
     CacheManagerV1.Finish]
    66560
    (Some (ImagePipeline.mkMetadata "jpeg" 4000 3000))
    (Some 204800) true true true true true 9000.

(** A download whose three requests are all rejected. *)
Definition deadSource : CacheManagerV1.Source :=
  CacheManagerV1.mkSource (fun _ => None) [] 0 None None
                          true true true true true 9000.

Definition worldV1 : CacheManagerV1.World :=
  CacheManagerV1.mkWorld 1000000 (fun _ => true) true (fun _ => goodSource)
                         1200.

Definition stateV1 : CacheManagerV1.State :=
  CacheManagerV1.mkState album (diskOf (map CacheManagerV1.photo album))
                         false CacheManagerV1.initialMetrics.

(** A duplicate-free list of strings, decided. *)
Fixpoint distinct (l : list string) : bool :=
  match l with
  | [] => true
  | x :: l' => negb (existsb (String.eqb x) l') && distinct l'
  end.

End Scenario.

(** * Properties *)

(** ** Facts about the ordering of view times *)

Section ViewOrder.
Import PhotoDatabase.

Lemma viewed_le_refl a : viewed_le a a = true.
Proof. destruct a; simpl; auto; lia. Qed.

Lemma viewed_le_trans a b c :
  viewed_le a b = true -> viewed_le b c = true -> viewed_le a c = true.
Proof.
  destruct a, b, c; simpl; intros; try congruence; lia.
Qed.

Lemma viewed_le_total a b : viewed_le a b = false -> viewed_le b a = true.
Proof. destruct a, b; simpl; intros; try congruence; lia. Qed.

Lemma viewed_eqb_eq a b : viewed_eqb a b = true <-> a = b.
Proof.
  destruct a, b; simpl; split; intros H; try congruence.
  - apply Z.eqb_eq in H. congruence.
  - inversion H. apply Z.eqb_refl.
Qed.

End ViewOrder.

(** ** The display query *)

Section DisplayQuery.
Import PhotoDatabase PhotoDisplay.

Lemma oldestKey_le_init l : forall k, viewed_le (oldestKey k l) k = true.
Proof.
  induction l as [|p l IH]; intros k; simpl.
  - apply viewed_le_refl.
  - destruct (viewed_le k (last_viewed_at p)) eqn:E; [apply IH|].
    eapply viewed_le_trans; [apply IH|]. now apply viewed_le_total.
Qed.

Lemma oldestKey_le_all l : forall k q,
  In q l -> viewed_le (oldestKey k l) (last_viewed_at q) = true.
Proof.
  induction l as [|p l IH]; intros k q Hin; simpl in *; [contradiction|].
  destruct Hin as [->|Hin].
  - eapply viewed_le_trans; [apply oldestKey_le_init|].
    destruct (viewed_le k (last_viewed_at q)) eqn:E; auto using viewed_le_refl.
  - now apply IH.
Qed.

Lemma oldestKey_attained l : forall k,
  oldestKey k l = k \/ exists q, In q l /\ last_viewed_at q = oldestKey k l.
Proof.
  induction l as [|p l IH]; intros k; simpl; [now left|].
  destruct (viewed_le k (last_viewed_at p)) eqn:E.
  - destruct (IH k) as [H|(q & Hq & Hk)]; [now left|right; eauto].
  - destruct (IH (last_viewed_at p)) as [H|(q & Hq & Hk)]; right; eauto.
Qed.

(** The query answers whenever a cached row exists, and its answer is a
    cached row whose view time is smallest, whatever RANDOM() draws. *)
Lemma nextPhoto_oldest draw db :
  cachedRows db <> [] ->
  exists p, nextPhoto draw db = Some p /\ In p (cachedRows db) /\
    forall q, In q (cachedRows db) ->
              viewed_le (last_viewed_at p) (last_viewed_at q) = true.
Proof.
  unfold nextPhoto. destruct (cachedRows db) as [|p0 rest]; [congruence|].
  intros _. set (k := oldestKey (last_viewed_at p0) rest).
  set (ties := filter _ _).
  assert (Hne : ties <> []).
  { assert (exists q, In q (p0 :: rest) /\ last_viewed_at q = k) as (q & Hq & Hk).
    { destruct (oldestKey_attained rest (last_viewed_at p0)) as [H|(q & Hq & Hk)].
      - exists p0. split; [now left|]. now symmetry.
      - exists q. split; [now right|]. exact Hk. }
    assert (In q ties) as Hin.
    { apply filter_In. split; auto. now apply viewed_eqb_eq. }
    intros Hnil. rewrite Hnil in Hin. destruct Hin. }
  assert (Hlt : (Nat.modulo draw (List.length ties) < List.length ties)%nat).
  { apply Nat.mod_upper_bound. destruct ties; simpl; congruence. }
  apply nth_error_Some in Hlt.
  destruct (nth_error ties _) as [p|] eqn:Hp; [|congruence].
  exists p. split; auto. apply nth_error_In in Hp.
  apply filter_In in Hp as [Hp Hk]. apply viewed_eqb_eq in Hk.
  split; auto. intros q Hq. rewrite Hk. destruct Hq as [<-|Hq].
  - apply oldestKey_le_init.
  - now apply oldestKey_le_all.
Qed.

Lemma markViewed_ids t i db : map id (markViewed t i db) = map id db.
Proof.
  unfold markViewed. rewrite map_map. apply map_ext.
  intros p. now destruct (String.eqb (id p) i).
Qed.

Lemma markViewed_cachedRows t i db :
  cachedRows (markViewed t i db) = markViewed t i (cachedRows db).
Proof.
  unfold cachedRows, markViewed. induction db as [|p db IH]; simpl; auto.
  assert (H : isCached (if String.eqb (id p) i
                        then set_last_viewed_at (Some t) p else p)
              = isCached p) by now destruct (String.eqb (id p) i).
  rewrite H. destruct (isCached p); simpl; now rewrite IH.
Qed.

Lemma in_markViewed t i db q :
  In q (markViewed t i db) ->
  exists p, In p db /\ cached_path q = cached_path p /\ id q = id p /\
    ((id p = i /\ last_viewed_at q = Some t) \/ (id p <> i /\ q = p)).
Proof.
  unfold markViewed. rewrite in_map_iff. intros (p & Hq & Hp).
  exists p. split; auto. destruct (String.eqb (id p) i) eqn:E; subst q; simpl.
  - apply String.eqb_eq in E. auto.
  - apply String.eqb_neq in E. auto.
Qed.

End DisplayQuery.

(** ** One cycle of the display scheduler *)

Section DisplayCycle.
Import PhotoDatabase PhotoDisplay.

Lemma fresh_id (l : list string) : forall shown,
  NoDup l -> (List.length shown < List.length l)%nat ->
  exists x, In x l /\ ~ In x shown.
Proof.
  induction l as [|a l IH]; intros shown Hnd Hlen; simpl in *; [lia|].
  apply NoDup_cons_iff in Hnd as [Ha Hnd].
  destruct (in_dec string_dec a shown) as [Hin|Hout].
  - destruct (IH (remove string_dec a shown) Hnd) as (x & Hx & Hnx).
    { pose proof (remove_length_lt string_dec shown a Hin). lia. }
    exists x. split; [now right|]. intros Hs. apply Hnx.
    apply in_in_remove; auto. intros ->. contradiction.
  - exists a. split; [now left|assumption].
Qed.

Lemma primary_key_filter f db :
  primary_key db -> NoDup (map id (filter f db)).
Proof.
  unfold primary_key. induction db as [|p db IH]; simpl; intros H; auto.
  apply NoDup_cons_iff in H as [Hp H]. destruct (f p); simpl; auto.
  constructor; auto. intros Hin. apply Hp.
  apply in_map_iff in Hin as (q & Hq & Hin). apply in_map_iff.
  exists q. split; auto. now apply filter_In in Hin.
Qed.

Lemma shownIds_cons shape t ts db :
  shownIds shape (t :: ts) db =
  (match fst (displayNext shape t db) with
   | Some n => [n_id n]
   | None => []
   end)
    ++ shownIds shape ts (snd (displayNext shape t db)).
Proof.
  unfold shownIds. simpl. destruct (displayNext shape t db) as [sent db1].
  simpl. destruct (displayTicks shape ts db1) as [later db2].
  destruct sent; reflexivity.
Qed.

Variable window : list Tick.
Hypothesis window_updates : forall t, In t window -> update_ok t = true.

Lemma seen_not_unseen p u :
  viewedDuring window p -> viewedBefore window u ->
  viewed_le (last_viewed_at p) (last_viewed_at u) = false.
Proof.
  intros (t & Ht & Hp) Hu. rewrite Hp.
  destruct (last_viewed_at u) as [v|] eqn:E; simpl; auto.
  specialize (Hu t v Ht E). lia.
Qed.

Lemma cycle_suffix ts : forall db shown,
  incl ts window ->
  primary_key db ->
  (forall t p path, In t ts -> In p db ->
     cached_path p = Some path -> readFile t path <> None) ->
  (forall p, In p (cachedRows db) -> In (id p) shown ->
     viewedDuring window p) ->
  (forall p, In p (cachedRows db) -> ~ In (id p) shown ->
     viewedBefore window p) ->
  (List.length shown + List.length ts <= List.length (cachedRows db))%nat ->
  NoDup (shownIds SingleRow ts db) /\
  (forall x, In x (shownIds SingleRow ts db) -> ~ In x shown) /\
  incl (shownIds SingleRow ts db) (map id (cachedRows db)) /\
  List.length (shownIds SingleRow ts db) = List.length ts.
Proof.
  induction ts as [|t ts IH]; intros db shown Hw Hpk Hread Hseen Hunseen Hlen.
  { unfold shownIds; simpl. split; [constructor|].
    split; [intros x []|]. split; [intros x []|reflexivity]. }
  simpl in Hlen.
  assert (Hne : cachedRows db <> []).
  { intros E. rewrite E in Hlen. simpl in Hlen. lia. }
  destruct (fresh_id (map id (cachedRows db)) shown) as (x & Hx & Hnx).
  { now apply primary_key_filter. }
  { rewrite length_map. lia. }
  apply in_map_iff in Hx as (u & <- & Hu).
  destruct (nextPhoto_oldest (rnd t) db Hne) as (p & Hnext & Hp & Hmin).
  assert (Hfresh : ~ In (id p) shown).
  { intros Hin.
    pose proof (seen_not_unseen p u (Hseen p Hp Hin) (Hunseen u Hu Hnx)) as E.
    rewrite (Hmin u Hu) in E. discriminate. }
  assert (Hpdb : In p db) by (apply filter_In in Hp; tauto).
  assert (exists path, cached_path p = Some path) as (path & Hpath).
  { apply filter_In in Hp as [_ Hc]. unfold isCached in Hc.
    destruct (cached_path p); [eauto|discriminate]. }
  assert (exists buffer, readFile t path = Some buffer) as (buffer & Hbuf).
  { specialize (Hread t p path (or_introl eq_refl) Hpdb Hpath).
    destruct (readFile t path); [eauto|congruence]. }
  assert (Hnow : displayNext SingleRow t db =
                 (Some (mkNotification (id p) buffer (filename p)),
                  markViewed (now t) (id p) db)).
  { unfold displayNext, rowOf. rewrite Hnext, Hpath, Hbuf.
    rewrite (window_updates t); auto. apply Hw. now left. }
  rewrite shownIds_cons, Hnow. simpl.
  set (db1 := markViewed (now t) (id p) db).
  assert (Hids : map id (cachedRows db1) = map id (cachedRows db)).
  { unfold db1. now rewrite markViewed_cachedRows, markViewed_ids. }
  destruct (IH db1 (id p :: shown)) as (Hnd & Hout & Hincl & Hl).
  - intros t' Ht'. apply Hw. now right.
  - unfold primary_key, db1. now rewrite markViewed_ids.
  - intros t' q path' Ht' Hq Hpath'.
    apply in_markViewed in Hq as (q0 & Hq0 & Hc & _).
    apply (Hread t' q0 path'); [now right|assumption|congruence].
  - intros q Hq Hin. unfold db1 in Hq. rewrite markViewed_cachedRows in Hq.
    apply in_markViewed in Hq as (q0 & Hq0 & _ & Hid & [[E Hv]|[E ->]]).
    + exists t. split; [apply Hw; now left|assumption].
    + apply Hseen; auto. destruct Hin as [Hin|Hin]; [congruence|assumption].
  - intros q Hq Hin. unfold db1 in Hq. rewrite markViewed_cachedRows in Hq.
    apply in_markViewed in Hq as (q0 & Hq0 & _ & Hid & [[E Hv]|[E ->]]).
    + exfalso. apply Hin. left. congruence.
    + apply Hunseen; auto. intros H. apply Hin. now right.
  - simpl. rewrite <- (length_map id (cachedRows db1)), Hids, length_map. lia.
  - rewrite Hids in Hincl. repeat split.
    + constructor; auto. intros Hin. apply (Hout _ Hin). now left.
    + intros y [<-|Hy]; auto. intros Hin. apply (Hout _ Hy). now right.
    + intros y [<-|Hy]; [apply in_map; assumption|now apply Hincl].
    + simpl. now rewrite Hl.
Qed.

End DisplayCycle.

Section DisplayCycleTheorem.
Import PhotoDatabase PhotoDisplay.

(** The cycle [displayNext] is written for, had [db.query] handed back
    the row: take a table with n cached rows and n consecutive display
    ticks during which the cached files stay readable, the view-time UPDATE
    goes through and the clock reads later than every view time stored
    before the window.  Whatever RANDOM() draws, the ids sent to the
    front-end are a permutation of the cached ids, and every prefix of the
    emitted sequence is duplicate-free. *)
Lemma display_cycle (db : Table) (ts : list Tick) :
  primary_key db ->
  List.length ts = List.length (cachedRows db) ->
  (forall t p path, In t ts -> In p db ->
     cached_path p = Some path -> readFile t path <> None) ->
  (forall t, In t ts -> update_ok t = true) ->
  (forall t p v, In t ts -> In p db ->
     last_viewed_at p = Some v -> v < now t) ->
  Permutation (shownIds SingleRow ts db) (map id (cachedRows db)) /\
  forall k, NoDup (firstn k (shownIds SingleRow ts db)).
Proof.
  intros Hpk Hlen Hread Hupd Hclock.
  destruct (cycle_suffix ts Hupd ts db []) as (Hnd & _ & Hincl & Hl);
    auto using incl_refl.
  - intros p _ [].
  - intros p Hp _ t v Ht Hv. apply (Hclock t p v); auto.
    apply filter_In in Hp. tauto.
  - simpl. lia.
  - split.
    + apply NoDup_Permutation_bis; auto. rewrite length_map. lia.
    + intros k. rewrite <- (firstn_skipn k (shownIds SingleRow ts db)) in Hnd.
      now apply NoDup_app_remove_r in Hnd.
Qed.

Lemma displayTicks_array (ts : list Tick) (db : Table) :
  displayTicks RowArray ts db = ([], db).
Proof.
  induction ts as [|t ts IH]; simpl; [reflexivity|].
  rewrite IH. reflexivity.
Qed.

(** C1 fails in the code as it runs: [db.query] resolves to the array of
    the selected rows, as [tick], [evictOldest] and the test script read it,
    and [displayNext] reads that array as a row.  The read of
    [photo.cached_path] gives undefined, [fs.promises.readFile] throws and
    the catch block logs the error: no tick sends a notification and no view
    time is written, whatever the table, the clock and the files.  On the
    three cached photos of scenario S1 three ticks emit nothing, where the
    cycle property asks for each of the three once. *)
Theorem displayNext_array_shows_nothing :
  (forall ts db, displayTicks RowArray ts db = ([], db)) /\
  List.length (cachedRows Scenario.threePhotos) = 3%nat /\
  shownIds RowArray Scenario.threeTicks Scenario.threePhotos = [] /\
  ~ Permutation
      (shownIds RowArray Scenario.threeTicks Scenario.threePhotos)
      (map id (cachedRows Scenario.threePhotos)).
Proof.
  split; [exact displayTicks_array|]. split; [reflexivity|].
  split; [reflexivity|].
  intros H. apply Permutation_length in H. discriminate.
Qed.

End DisplayCycleTheorem.

(** ** Download retry *)

Section RetryPolicy.
Import Retry.

(** C8 (as the code has it).  [downloadWithRetry] with its default of 3
    makes at most three requests, that is at most two retries; it waits
    between consecutive requests only, 1000 ms times the number of the
    failed attempt (1 s, then 2 s: linear, so no cap comes into play); and
    it throws exactly when all three requests reject. *)
Theorem downloadWithRetry_linear_backoff {R} (get : Z -> option R) :
  let evs := snd (downloadWithRetry 3 get) in
  (List.length (requests evs) <= 3)%nat /\
  List.length (delays evs) = (List.length (requests evs) - 1)%nat /\
  (forall k d, nth_error (delays evs) k = Some d ->
               d = (Z.of_nat k + 1) * 1000) /\
  (fst (downloadWithRetry 3 get) = Threw <->
   get 1 = None /\ get 2 = None /\ get 3 = None).
Proof.
  unfold downloadWithRetry. simpl.
  destruct (get 1) eqn:E1; simpl.
  { repeat split; auto; try (intros [|k] d; simpl; congruence);
      try discriminate. intros (H & _); discriminate. }
  destruct (get 2) eqn:E2; simpl.
  { repeat split; auto; try discriminate.
    - intros [|[|k]] d; simpl; congruence.
    - intros (_ & H & _); discriminate. }
  destruct (get 3) eqn:E3; simpl.
  { repeat split; auto; try discriminate.
    - intros [|[|[|k]]] d; simpl; congruence.
    - intros (_ & _ & H); discriminate. }
  repeat split; auto.
  intros [|[|[|k]]] d; simpl; congruence.
Qed.

(** C8 (as stated) fails: when every request rejects, the first wait is
    1 s, not the 2 s of the exponential policy, and the second is 2 s, not
    4 s. *)
Lemma downloadWithRetry_first_delay_one_second :
  delays (snd (downloadWithRetry 3 (fun _ : Z => @None unit)))
    = [1000; 2000] /\
  1000 <> exponentialDelay 0 /\ 2000 <> exponentialDelay 1.
Proof. repeat split; vm_compute; congruence. Qed.

(** The exponential policy of the spec is that of the OneDrive provider's
    [makeRequest]: with the default of 3 it sends at most three requests and
    waits 2 s, then 4 s. *)
Lemma makeRequest_exponential_backoff {R}
      (pre : OneDriveProvider.Preflight) (tokenExpiry : Z)
      (ask : Z -> OneDriveProvider.Answer R) :
  let evs := snd (fst (OneDriveProvider.makeRequest pre tokenExpiry 3 ask)) in
  (List.length (requests evs) <= 3)%nat /\
  forall k d, nth_error (delays evs) k = Some d -> d = exponentialDelay k.
Proof.
  unfold OneDriveProvider.makeRequest.
  destruct (negb (OneDriveProvider.online pre));
    [simpl; split; [lia|intros [|k] d; simpl; congruence]|].
  assert (Hloop :
    let evs := snd (OneDriveProvider.requestLoop
                      (Z.to_nat 3) 0 3 ask) in
    (List.length (requests evs) <= 3)%nat /\
    forall k d, nth_error (delays evs) k = Some d -> d = exponentialDelay k);
    [|destruct (OneDriveProvider.tokenStale pre tokenExpiry);
      [destruct (OneDriveProvider.refresh pre);
       [simpl; split; [lia|intros [|k] d; simpl; congruence]
       |simpl; split; [lia|intros [|k] d; simpl; congruence]
       |exact Hloop]
      |exact Hloop]].
  simpl.
  destruct (ask 0); simpl;
    try (split; [lia|intros [|k] d; simpl; congruence]).
  destruct (ask 1); simpl;
    try (split; [lia|intros [|[|k]] d; simpl; intros H; inversion H;
                     reflexivity]).
  destruct (ask 2); simpl;
    split; try lia; intros [|[|[|k]]] d; simpl; intros H; inversion H;
      reflexivity.
Qed.

(** Whatever the number of attempts, no wait of [makeRequest] exceeds
    60 s. *)
Lemma requestLoop_delays_capped {R} (ask : Z -> OneDriveProvider.Answer R)
      (maxRetries : Z) (n : nat) : forall attempt,
  Forall (fun d => d <= 60000)
         (delays (snd (OneDriveProvider.requestLoop n attempt maxRetries ask))).
Proof.
  induction n as [|n IH]; intros attempt; simpl; [constructor|].
  destruct (ask attempt); simpl; try constructor.
  destruct (attempt + 1 <? maxRetries); simpl; [|constructor].
  specialize (IH (attempt + 1)).
  destruct (OneDriveProvider.requestLoop n (attempt + 1) maxRetries ask)
    as [out evs].
  simpl in *. constructor; auto. apply Z.le_min_r.
Qed.

End RetryPolicy.

(** ** Image normalisation *)

Section ImageNormalisation.
Import ImagePipeline.






End ImageNormalisation.

(** ** Recursive folder scan *)

Section FolderScan.
Import GDriveAPI.
Local Open Scope string_scope.

Lemma scanFolder_two_cycle_diverges (drive : Drive) (a b : string) :
  foldersIn drive (Some a) = [b] ->
  foldersIn drive (Some b) = [a] ->
  forall fuel folder depth,
    folder = a \/ folder = b ->
    scanFolder fuel drive (Some folder) (-1) depth = None.
Proof.
  intros Ha Hb. induction fuel as [|fuel IH]; intros folder depth Hf; auto.
  simpl. destruct Hf as [-> | ->].
  - rewrite Ha. simpl. rewrite (IH b); auto.
  - rewrite Hb. simpl. rewrite (IH a); auto.
Qed.

(** C6 at its failing input: folder A contains folder B and B contains A.
    With the default unbounded depth the scan of A never returns, whatever
    the bound on the recursion: the set of visited folders is created
    afresh by every call, so the call for B does not know that A has been
    entered. *)
Theorem scanFolder_cycle_never_returns :
  forall fuel,
    scanFolder fuel
      (mkDrive (fun _ => [])
               (fun f => match f with
                         | Some "A" => ["B"]
                         | Some "B" => ["A"]
                         | _ => []
                         end))
      (Some "A") (-1) 0 = None.
Proof.
  intros fuel.
  apply (scanFolder_two_cycle_diverges _ "A" "B"); auto.
Qed.

(** The same defect without a cycle: folder Z is reachable through X and
    through Y, is entered twice, and its photo is reported twice. *)
Lemma scanFolder_enters_shared_folder_twice :
  scanFolder 4
    (mkDrive (fun f => match f with Some "Z" => ["z.jpg"] | _ => [] end)
             (fun f => match f with
                       | None => ["X"; "Y"]
                       | Some "X" => ["Z"]
                       | Some "Y" => ["Z"]
                       | _ => []
                       end))
    None (-1) 0 = Some ["z.jpg"; "z.jpg"].
Proof. reflexivity. Qed.

(** With a depth limit the scan of the two-folder cycle returns, after
    walking round the cycle: the photo of A is reported three times. *)
Lemma scanFolder_bounded_depth_walks_cycle :
  scanFolder 6
    (mkDrive (fun f => match f with Some "A" => ["a.jpg"] | _ => [] end)
             (fun f => match f with
                       | Some "A" => ["B"]
                       | Some "B" => ["A"]
                       | _ => []
                       end))
    (Some "A") 4 0 = Some ["a.jpg"; "a.jpg"; "a.jpg"].
Proof. reflexivity. Qed.

End FolderScan.

(** The sibling: the OneDrive scan hands its set of visited folders down the
    recursion. *)

Section SharedVisitedSet.
Import OneDriveProvider.

Variable drive : Drive.
Variable universe : list string.
Hypothesis folders_known :
  forall f i, In (FolderItem i) (drive f) -> In i universe.
Hypothesis ids_nonempty : ~ In ""%string universe.

Lemma visited_room (visited : list string) f :
  NoDup visited -> incl visited universe -> In f universe ->
  ~ In f visited ->
  (List.length visited < List.length universe)%nat.
Proof.
  intros Hnd Hincl Hf Hnf.
  assert (H : (List.length (f :: visited) <= List.length universe)%nat).
  { apply NoDup_incl_length; [now constructor|].
    intros x [<-|Hx]; auto. }
  simpl in H. lia.
Qed.

Lemma existsb_eqb_In f l : existsb (String.eqb f) l = true <-> In f l.
Proof.
  rewrite existsb_exists. split.
  - intros (x & Hx & E). apply String.eqb_eq in E. now subst.
  - intros H. exists f. split; auto. apply String.eqb_refl.
Qed.

(** The loop over a listing returns when every recursive call does. *)
Lemma scanItems_returns scan descend (fuel : nat) :
  (forall i visited,
     In i universe -> NoDup visited -> incl visited universe ->
     (List.length universe < fuel + List.length visited)%nat ->
     exists photos visited',
       scan i visited = Some (photos, visited') /\
       NoDup visited' /\ incl visited' universe /\ incl visited visited') ->
  forall pending photos visited,
    (forall i, In (FolderItem i) pending -> In i universe) ->
    NoDup visited -> incl visited universe ->
    (List.length universe < fuel + List.length visited)%nat ->
    exists photos' visited',
      scanItems scan descend pending photos visited = Some (photos', visited') /\
      NoDup visited' /\ incl visited' universe /\ incl visited visited'.
Proof.
  intros Hscan. induction pending as [|item rest IH];
    intros photos visited Hk Hnd Hincl Hfuel; simpl.
  - exists photos, visited. repeat split; auto using incl_refl.
  - assert (Hrest : forall i, In (FolderItem i) rest -> In i universe)
      by (intros i Hi; apply Hk; now right).
    destruct item as [i|i|]; try (apply IH; auto).
    destruct descend; [|apply IH; auto].
    destruct (Hscan i visited) as (sub & v1 & E & Hnd1 & Hincl1 & Hmono); auto.
    { apply Hk. now left. }
    rewrite E.
    destruct (IH (photos ++ sub)%list v1) as (p2 & v2 & E2 & A & B & C); auto.
    { pose proof (NoDup_incl_length Hnd Hmono). lia. }
    exists p2, v2. repeat split; auto.
    intros x Hx. apply C, Hmono, Hx.
Qed.

Lemma scanFolder_returns maxDepth : forall fuel folderId depth visited,
  (forall f, folderId = Some f -> In f universe) ->
  NoDup visited -> incl visited universe ->
  (List.length universe + match folderId with Some _ => 0 | None => 1 end
   < fuel + List.length visited)%nat ->
  exists photos visited',
    scanFolder fuel drive folderId maxDepth depth visited
      = Some (photos, visited') /\
    NoDup visited' /\ incl visited' universe /\ incl visited visited'.
Proof.
  induction fuel as [|fuel IH]; intros folderId depth visited Hf Hnd Hincl Hfuel.
  { exfalso. pose proof (NoDup_incl_length Hnd Hincl).
    destruct folderId; simpl in Hfuel; lia. }
  assert (Hrec : forall i v,
             In i universe -> NoDup v -> incl v universe ->
             (List.length universe < fuel + List.length v)%nat ->
             exists photos visited',
               scanFolder fuel drive (Some i) maxDepth (depth + 1) v
                 = Some (photos, visited') /\
               NoDup visited' /\ incl visited' universe /\ incl v visited').
  { intros i v Hi Hv Hvi Hlen. apply IH; auto.
    - intros f E. inversion E. now subst.
    - simpl. lia. }
  simpl. destruct folderId as [f|].
  - assert (Hfu : In f universe) by now apply Hf.
    assert (Hne : negb (String.eqb f ""%string) = true).
    { apply negb_true_iff, String.eqb_neq. intros ->. contradiction. }
    rewrite Hne. simpl.
    destruct (existsb (String.eqb f) visited) eqn:E.
    + exists [], visited. repeat split; auto using incl_refl.
    + assert (Hnf : ~ In f visited).
      { intros H. apply existsb_eqb_In in H. congruence. }
      destruct (scanItems_returns
                  (fun i v => scanFolder fuel drive (Some i) maxDepth
                                         (depth + 1) v)
                  ((maxDepth =? -1) || (depth <? maxDepth)) fuel Hrec
                  (drive (Some f)) [] (f :: visited))
        as (p & v & Ep & A & B & C).
      * intros i Hi. now apply (folders_known (Some f)).
      * now constructor.
      * intros x [<-|Hx]; auto.
      * simpl in *. lia.
      * exists p, v. repeat split; auto.
        intros x Hx. apply C. now right.
  - simpl.
    apply (scanItems_returns
             (fun i v => scanFolder fuel drive (Some i) maxDepth (depth + 1) v)
             ((maxDepth =? -1) || (depth <? maxDepth)) fuel Hrec); auto.
    + intros i Hi. now apply (folders_known None).
    + simpl in Hfuel. lia.
Qed.

(** X6.  With the set of visited folders shared, the OneDrive scan of any
    finite folder graph returns, cycles or not, and no folder is entered
    twice. *)
Lemma OneDrive_scanFolder_enters_once folderId maxDepth :
  (forall f, folderId = Some f -> In f universe) ->
  exists photos visited,
    scanFolder (List.length universe + 2) drive folderId maxDepth 0 []
      = Some (photos, visited) /\
    NoDup visited /\ incl visited universe.
Proof.
  intros Hf.
  destruct (scanFolder_returns maxDepth (List.length universe + 2)
                               folderId 0 [])
    as (p & v & E & A & B & _); auto.
  - constructor.
  - intros x [].
  - destruct folderId; simpl; lia.
  - exists p, v. auto.
Qed.

End SharedVisitedSet.

(** The two-folder cycle that the Drive scan cannot leave is scanned by the
    OneDrive scan in three calls. *)
Lemma OneDrive_scanFolder_leaves_cycle :
  OneDriveProvider.scanFolder 4
    (fun f => match f with
              | Some "A" => [OneDriveProvider.ImageItem "a.jpg";
                             OneDriveProvider.FolderItem "B"]
              | Some "B" => [OneDriveProvider.FolderItem "A"]
              | _ => []
              end%string)
    (Some "A"%string) (-1) 0 []
  = Some (["a.jpg"], ["B"; "A"])%string.
Proof. reflexivity. Qed.

(** ** Start-up and corruption recovery *)

Section CorruptionRecovery.
Import PhotoDatabase GDriveAPI Startup.
Local Open Scope string_scope.

(** C4 (as the code has it).  When the first open fails or the integrity
    check does not answer ok within 5 s, and the file can be deleted, be
    re-opened and be given its schema, [initDatabase] leaves and returns
    an empty store.  Nothing is written to the settings: the full rescan
    follows from the missing change token, which sends the next
    [scanForChanges] to its full-scan branch. *)
Theorem initDatabase_rebuilds_empty (e : Env) (f : DbFile) :
  open_ok e = false \/ check e <> IntegrityOk ->
  unlink_ok e = true -> reopen_ok e = true -> schema_ok e = true ->
  initDatabase e f = (Opened (Intact emptyStore), Intact emptyStore) /\
  settings emptyStore = [] /\
  forall r tok, startPageToken r = Some tok ->
    actions (scanForChanges r emptyStore)
      = [SaveSetting "changes_token" tok; FullScan].
Proof.
  intros Hbad Hu Hr Hs.
  assert (Hre : forall g, rebuild e g
                          = (Opened (Intact emptyStore), Intact emptyStore)).
  { intros g. unfold rebuild. now rewrite Hu, Hr, Hs. }
  repeat split.
  - unfold initDatabase. destruct (open_ok e); auto.
    destruct Hbad as [Hbad|Hbad]; [discriminate|].
    destruct (check e); auto. congruence.
  - intros r tok Htok. unfold scanForChanges. simpl. now rewrite Htok.
Qed.

(** C4 (as stated) fails: after the rebuild of a damaged file the setting
    sync.needsFullRescan is not there; and when the re-open fails the
    promise rejects. *)
Lemma initDatabase_sets_no_rescan_flag :
  initDatabase (mkEnv true IntegrityNotOk true true true) Damaged
    = (Opened (Intact emptyStore), Intact emptyStore) /\
  getSetting "sync.needsFullRescan" (settings emptyStore) <> Some "true" /\
  fst (initDatabase (mkEnv true IntegrityNotOk true false true) Damaged)
    = Rejects.
Proof. repeat split; try reflexivity. discriminate. Qed.

End CorruptionRecovery.

(** ** Incremental scan and the change cursor *)

Section ChangeCursor.
Import PhotoDatabase GDriveAPI.
Local Open Scope string_scope.
Local Open Scope list_scope.
#[local] Arguments perform : simpl never.

Lemma applyChanges_spec cs : forall st changed log,
  applyChanges cs st changed log =
  (fold_left (fun s a => perform a s) (deletionsOf cs) st,
   changed ++ imagesOf cs,
   log ++ deletionsOf cs).
Proof.
  unfold deletionsOf, imagesOf.
  induction cs as [|c cs IH]; intros st changed log; simpl.
  - now rewrite !app_nil_r.
  - destruct (isDeletion c); simpl.
    + rewrite IH, <- app_assoc. reflexivity.
    + destruct (isImage c); [destruct (file c)|]; rewrite IH; simpl;
        rewrite ?app_nil_r, <- ?app_assoc; reflexivity.
Qed.

Lemma changePages_spec rs : forall st changed log,
  actions (changePages rs st changed log)
    = log ++ flat_map pageActions (consumed rs) /\
  store (changePages rs st changed log)
    = fold_left (fun s a => perform a s)
                (flat_map pageActions (consumed rs)) st /\
  forall imgs, returned (changePages rs st changed log) = Some imgs ->
    imgs = changed ++ flat_map (fun pg => imagesOf (changes pg)) (consumed rs).
Proof.
  induction rs as [|pg rs IH]; intros st changed log; simpl.
  - rewrite app_nil_r. repeat split; auto. discriminate.
  - rewrite applyChanges_spec. unfold pageActions at 1 3, cursorOf.
    destruct (truthy (newStartPageToken pg)) eqn:T;
      [destruct (newStartPageToken pg) as [tok|]; [|discriminate]|];
      destruct (truthy (nextPageToken pg)).
    + destruct (IH (perform (SaveSetting "changes_token" tok)
                      (fold_left (fun s a => perform a s)
                                 (deletionsOf (changes pg)) st))
                   (changed ++ imagesOf (changes pg))
                   ((log ++ deletionsOf (changes pg))
                      ++ [SaveSetting "changes_token" tok]))
        as (A & B & C).
      rewrite A, B. repeat split.
      * now rewrite <- !app_assoc.
      * now rewrite !fold_left_app.
      * intros imgs Hi. rewrite (C imgs Hi). now rewrite <- app_assoc.
    + simpl. rewrite !app_nil_r. repeat split.
      * now rewrite <- !app_assoc.
      * now rewrite fold_left_app.
      * intros imgs Hi. now inversion Hi.
    + destruct (IH (fold_left (fun s a => perform a s)
                              (deletionsOf (changes pg)) st)
                   (changed ++ imagesOf (changes pg))
                   (log ++ deletionsOf (changes pg)))
        as (A & B & C).
      rewrite A, B. repeat split.
      * now rewrite !app_nil_r, <- !app_assoc.
      * now rewrite !app_nil_r, !fold_left_app.
      * intros imgs Hi. rewrite (C imgs Hi). now rewrite <- app_assoc.
    + simpl. rewrite !app_nil_r. repeat split.
      intros imgs Hi. now inversion Hi.
Qed.

Lemma deletionsOf_no_cursor cs k v : ~ In (SaveSetting k v) (deletionsOf cs).
Proof.
  unfold deletionsOf. intros H. apply in_map_iff in H as (c & Hc & _).
  discriminate.
Qed.

(** Where a cursor write sits among the actions of a run of pages. *)
Lemma cursor_position ps : forall pre k v post,
  flat_map pageActions ps = pre ++ SaveSetting k v :: post ->
  exists before page after,
    ps = before ++ page :: after /\
    k = "changes_token" /\
    newStartPageToken page = Some v /\
    pre = flat_map pageActions before ++ deletionsOf (changes page).
Proof.
  induction ps as [|pg ps IH]; intros pre k v post H; simpl in H.
  { destruct pre; discriminate. }
  unfold pageActions at 1 in H. rewrite <- app_assoc in H.
  apply app_eq_app in H as [l [[H1 H2]|[H1 H2]]].
  - (* the deletions of this page reach up to the write or beyond *)
    destruct l as [|a l]; simpl in H2.
    + rewrite app_nil_r in H1. subst pre. unfold cursorOf in H2.
      destruct (truthy (newStartPageToken pg)) eqn:T;
        [destruct (newStartPageToken pg) as [tok|] eqn:N; [|discriminate]|].
      * simpl in H2. inversion H2; subst.
        exists [], pg, ps. repeat split; auto.
      * simpl in H2. symmetry in H2.
        destruct (IH [] k v post H2) as (b & page & a & E & Hk & Hn & Hp).
        exists (pg :: b), page, a. subst ps. repeat split; auto.
        simpl. unfold pageActions at 1, cursorOf. rewrite T.
        now rewrite <- !app_assoc, <- Hp, !app_nil_r.
    + exfalso. apply (deletionsOf_no_cursor (changes pg) k v).
      rewrite H1. inversion H2; subst.
      apply in_or_app. right. now left.
  - (* the write comes after the deletions of this page *)
    subst pre. unfold cursorOf in H2.
    destruct (truthy (newStartPageToken pg)) eqn:T;
      [destruct (newStartPageToken pg) as [tok|] eqn:N; [|discriminate]|].
    + simpl in H2. destruct l as [|a l]; simpl in H2.
      * inversion H2; subst. exists [], pg, ps.
        repeat split; auto. simpl. now rewrite app_nil_r.
      * inversion H2; subst a.
        destruct (IH l k v post) as (b & page & a & E & Hk & Hn & Hp); auto.
        exists (pg :: b), page, a. subst ps. repeat split; auto.
        simpl. unfold pageActions at 1, cursorOf. rewrite N, T.
        rewrite Hp. now rewrite <- !app_assoc.
    + simpl in H2.
      destruct (IH l k v post H2) as (b & page & a & E & Hk & Hn & Hp).
      exists (pg :: b), page, a. subst ps. repeat split; auto.
      simpl. unfold pageActions at 1, cursorOf. rewrite T.
      rewrite Hp. now rewrite app_nil_r, <- !app_assoc.
Qed.

End ChangeCursor.

Section ChangeCursorTheorem.
Import PhotoDatabase GDriveAPI.
Local Open Scope string_scope.
Local Open Scope list_scope.
#[local] Arguments perform : simpl never.

Lemma deletePhoto_incl i d p : In p (deletePhoto i d) -> In p d.
Proof. unfold deletePhoto. intros H. now apply filter_In in H. Qed.

Lemma perform_adds_no_row acts : forall st p,
  In p (photos (fold_left (fun s a => perform a s) acts st)) ->
  In p (photos st).
Proof.
  induction acts as [|a acts IH]; intros st p H; simpl in H; auto.
  apply IH in H. destruct a; unfold perform in H; simpl in H; auto.
  now apply deletePhoto_incl in H.
Qed.

(** C5 (as the code has it).  In an incremental scan every write of the
    change cursor is a write of the key changes_token with the
    newStartPageToken of one of the pages read, and the store actions taken
    before it are exactly those of the earlier pages followed by the
    deletions of that page: the cursor is persisted only after the
    deletions of the page it terminates have been applied.  Created and
    updated images are never applied by the scan: it adds no row to the
    store and hands them back in its result. *)
Theorem cursor_saved_after_deletions
        (r : Remote) (st : Store) (pre post : list Action) (k v : string) :
  truthy (getSetting "changes_token" (settings st)) = true ->
  actions (scanForChanges r st) = pre ++ SaveSetting k v :: post ->
  (exists before page after,
     consumed (responses r) = before ++ page :: after /\
     k = "changes_token" /\
     newStartPageToken page = Some v /\
     pre = flat_map pageActions before ++ deletionsOf (changes page)) /\
  (forall p, In p (photos (store (scanForChanges r st))) ->
             In p (photos st)) /\
  (forall imgs, returned (scanForChanges r st) = Some imgs ->
     imgs = flat_map (fun pg => imagesOf (changes pg))
                     (consumed (responses r))).
Proof.
  intros Htok Hact. unfold scanForChanges in *. rewrite Htok in *.
  destruct (changePages_spec (responses r) st [] []) as (A & B & C).
  rewrite A in Hact. simpl in Hact. repeat split.
  - now apply (cursor_position _ pre k v post).
  - intros p Hp. rewrite B in Hp. now apply perform_adds_no_row in Hp.
  - intros imgs Hi. now apply C in Hi.
Qed.

Lemma cursor_saved_after_deletions_witness :
  exists before page after,
    consumed (responses Scenario.remote) = before ++ page :: after /\
    "changes_token" = "changes_token" /\
    newStartPageToken page = Some "t2" /\
    [DeletePhoto "b"]
      = flat_map pageActions before ++ deletionsOf (changes page).
Proof.
  apply (cursor_saved_after_deletions
           Scenario.remote Scenario.synced [DeletePhoto "b"] []
           "changes_token" "t2"); reflexivity.
Defined.

(** C5 (as stated) fails for creations: the page reports the new image
    img1 and the removal of b; when the scan returns, the cursor t2 of that
    page is in the settings, b is gone, and img1 is in no row of the store,
    only in the list handed back to the caller. *)
Lemma cursor_saved_before_new_image_applied :
  actions (scanForChanges Scenario.remote Scenario.synced)
    = [DeletePhoto "b"; SaveSetting "changes_token" "t2"] /\
  getSetting "changes_token"
             (settings (store (scanForChanges Scenario.remote Scenario.synced)))
    = Some "t2" /\
  map id (photos (store (scanForChanges Scenario.remote Scenario.synced)))
    = ["c"] /\
  returned (scanForChanges Scenario.remote Scenario.synced)
    = Some [Scenario.newImage].
Proof. repeat split; reflexivity. Qed.

End ChangeCursorTheorem.

(** ** The failure counter of the cache tick *)

Section Cooling.
Import PhotoDatabase CacheManager.
Local Open Scope string_scope.

(** The offline pause is taken when the counter has passed 3. *)
Lemma prefetchStep_pauses_above_three cfg w st :
  consecutiveFailures st > 3 ->
  snd (prefetchStep cfg w st) = [Sleep 60000] /\
  consecutiveFailures (fst (prefetchStep cfg w st)) = 0 /\
  db (fst (prefetchStep cfg w st)) = db st.
Proof.
  intros H. unfold prefetchStep.
  assert (E : (consecutiveFailures st >? 3) = true) by (apply Z.gtb_lt; lia).
  now rewrite E.
Qed.

(** With the counter at 3 the batch is requested as usual. *)
Lemma prefetchStep_fetches_at_three cfg w st :
  consecutiveFailures st = 3 ->
  snd (prefetchStep cfg w st) = map Fetch (photosToCache (db st)).
Proof.
  intros H. unfold prefetchStep. rewrite H. simpl.
  destruct (photosToCache (db st)) as [|i ids] eqn:E; auto.
  now destruct (downloadAll cfg w (i :: ids) st).
Qed.

(** C2 at its failing input: one photo waits to be cached and the provider
    rejects every download.  Three ticks fail and bring the counter to 3;
    the tick that follows downloads again (and brings the counter to 4);
    only the tick after that one performs no download, sleeps 60 s and
    resets the counter. *)
Theorem tick_after_three_failures_still_downloads :
  consecutiveFailures
    (fst (ticks Scenario.cfg (repeat Scenario.offline 3) Scenario.onePending))
    = 3 /\
  snd (ticks Scenario.cfg (repeat Scenario.offline 5) Scenario.onePending)
    = [[Fetch "a"]; [Fetch "a"]; [Fetch "a"]; [Fetch "a"]; [Sleep 60000]] /\
  consecutiveFailures
    (fst (ticks Scenario.cfg (repeat Scenario.offline 4) Scenario.onePending))
    = 4 /\
  consecutiveFailures
    (fst (ticks Scenario.cfg (repeat Scenario.offline 5) Scenario.onePending))
    = 0.
Proof. repeat split; reflexivity. Qed.

End Cooling.

(** ** Selection of the oldest cached rows *)

Section OldestFirst.
Import PhotoDatabase CacheManager.

Lemma insertByViewed_perm p l : Permutation (insertByViewed p l) (p :: l).
Proof.
  induction l as [|q l IH]; simpl; auto.
  destruct (viewed_le _ _); auto.
  rewrite IH. apply perm_swap.
Qed.

Lemma orderByViewed_perm l : Permutation (orderByViewed l) l.
Proof.
  induction l as [|p l IH]; simpl; auto.
  rewrite insertByViewed_perm. now constructor.
Qed.

Lemma insertByViewed_sorted p l :
  StronglySorted olderEq l -> StronglySorted olderEq (insertByViewed p l).
Proof.
  induction l as [|q l IH]; intros Hs; simpl.
  - repeat constructor.
  - inversion Hs as [|? ? Hl Hq]; subst.
    destruct (viewed_le (last_viewed_at p) (last_viewed_at q)) eqn:E.
    + constructor; auto. constructor; auto.
      rewrite Forall_forall in *. intros x Hx.
      eapply viewed_le_trans; [exact E|]. now apply Hq.
    + constructor; auto.
      rewrite Forall_forall in *. intros x Hx.
      apply (Permutation_in _ (insertByViewed_perm p l)) in Hx.
      destruct Hx as [<-|Hx]; [now apply viewed_le_total|now apply Hq].
Qed.

Lemma orderByViewed_sorted l : StronglySorted olderEq (orderByViewed l).
Proof.
  induction l as [|p l IH]; simpl; [constructor|].
  now apply insertByViewed_sorted.
Qed.

Lemma sorted_app_le (l1 l2 : list Photo) :
  StronglySorted olderEq (l1 ++ l2) ->
  forall a b, In a l1 -> In b l2 -> olderEq a b.
Proof.
  induction l1 as [|x l1 IH]; simpl; intros Hs a b Ha Hb; [contradiction|].
  inversion Hs as [|? ? Hl Hx]; subst. destruct Ha as [<-|Ha].
  - rewrite Forall_forall in Hx. apply Hx. apply in_or_app. now right.
  - now apply IH.
Qed.

Lemma oldestCached_incl count d p :
  In p (oldestCached count d) -> In p (cachedRows d).
Proof.
  unfold oldestCached. intros H.
  apply (Permutation_in _ (orderByViewed_perm (cachedRows d))).
  rewrite <- (firstn_skipn count (orderByViewed (cachedRows d))).
  apply in_or_app. now left.
Qed.

Lemma oldestCached_oldest count d v s :
  In v (oldestCached count d) -> In s (cachedRows d) ->
  ~ In s (oldestCached count d) -> olderEq v s.
Proof.
  unfold oldestCached. intros Hv Hs Hns.
  apply (Permutation_in _ (Permutation_sym
                             (orderByViewed_perm (cachedRows d)))) in Hs.
  rewrite <- (firstn_skipn count (orderByViewed (cachedRows d))) in Hs.
  apply in_app_or in Hs as [Hs|Hs]; [contradiction|].
  apply (sorted_app_le (firstn count (orderByViewed (cachedRows d)))
                       (skipn count (orderByViewed (cachedRows d)))); auto.
  rewrite firstn_skipn. apply orderByViewed_sorted.
Qed.

Lemma oldestCached_length count d :
  List.length (oldestCached count d)
    = Nat.min count (List.length (cachedRows d)).
Proof.
  unfold oldestCached. rewrite length_firstn.
  now rewrite (Permutation_length (orderByViewed_perm (cachedRows d))).
Qed.

End OldestFirst.

(** ** Eviction *)

Section Eviction.
Import PhotoDatabase CacheManager.

(** The loop of UPDATEs clears the rows whose id was selected and leaves
    the other rows as they are. *)
Lemma clearAll_map photos : forall d,
  clearAll photos d =
  map (fun p => if selected (map id photos) p
                then clear_cache_columns p else p) d.
Proof.
  unfold clearAll, selected.
  induction photos as [|q photos IH]; intros d; simpl.
  - now rewrite map_id.
  - rewrite IH. unfold clearPhotoCache. rewrite map_map.
    apply map_ext. intros p.
    destruct (String.eqb (id p) (id q)) eqn:E; simpl.
    + now destruct (existsb _ _).
    + reflexivity.
Qed.

Lemma selected_In ids p : selected ids p = true <-> In (id p) ids.
Proof.
  unfold selected. rewrite existsb_exists. split.
  - intros (x & Hx & E). apply String.eqb_eq in E. now subst.
  - intros H. exists (id p). split; auto. apply String.eqb_refl.
Qed.

Lemma primary_key_inj d p q :
  primary_key d -> In p d -> In q d -> id p = id q -> p = q.
Proof.
  unfold primary_key. induction d as [|x d IH]; simpl; intros Hn Hp Hq E.
  - contradiction.
  - apply NoDup_cons_iff in Hn as [Hx Hn].
    destruct Hp as [->|Hp], Hq as [->|Hq]; auto.
    + exfalso. apply Hx. rewrite E. now apply in_map.
    + exfalso. apply Hx. rewrite <- E. now apply in_map.
Qed.

Lemma selected_victim count d p :
  primary_key d -> In p d ->
  (selected (map id (oldestCached count d)) p = true
   <-> In p (oldestCached count d)).
Proof.
  intros Hpk Hp. rewrite selected_In, in_map_iff. split.
  - intros (v & E & Hv).
    assert (In v d).
    { apply oldestCached_incl in Hv. apply filter_In in Hv. tauto. }
    now rewrite (primary_key_inj d p v Hpk Hp H (eq_sym E)).
  - intros H. now exists p.
Qed.

Lemma Forall2_map_self {A} (R : A -> A -> Prop) (f : A -> A) l :
  (forall x, In x l -> R x (f x)) -> Forall2 R l (map f l).
Proof.
  induction l as [|x l IH]; simpl; intros H; constructor; auto.
Qed.

(** C10.  Frame condition of [evictOldest]: row by row, the table after
    the pass has the same id, folder_id, filename, creation_time, width,
    height, last_viewed_at and cached_at as before; a selected row differs
    from its old self in cached_path and cached_size_bytes only, which are
    NULL; a row that was not selected is untouched. *)
Theorem evictOldest_frame (count : nat) (w : World) (st : State) :
  primary_key (db st) ->
  Forall2 (fun p q =>
             sameOtherColumns p q /\
             (In p (oldestCached count (db st)) ->
              q = clear_cache_columns p) /\
             (~ In p (oldestCached count (db st)) -> q = p))
          (db st) (db (fst (evictOldest count w st))).
Proof.
  intros Hpk. unfold evictOldest. simpl. rewrite clearAll_map.
  apply Forall2_map_self. intros p Hp.
  pose proof (selected_victim count (db st) p Hpk Hp) as Hsel.
  destruct (selected _ p) eqn:E.
  - repeat split; auto. intros Hn. exfalso. apply Hn. now apply Hsel.
  - repeat split; auto. intros Hin. apply Hsel in Hin. discriminate.
Qed.

Lemma cachedRows_after_clear ids d :
  cachedRows (map (fun p => if selected ids p
                            then clear_cache_columns p else p) d)
  = filter (fun p => negb (selected ids p)) (cachedRows d).
Proof.
  unfold cachedRows. induction d as [|p d IH]; [reflexivity|].
  cbn [map filter]. destruct (selected ids p) eqn:E.
  - change (isCached (clear_cache_columns p)) with false. rewrite IH.
    destruct (isCached p); cbn [filter]; rewrite ?E; reflexivity.
  - destruct (isCached p); cbn [filter]; rewrite ?E, IH; reflexivity.
Qed.

(** C3 (as the code has it).  When a tick starts with more cached bytes
    than maxCacheSizeMB allows, its eviction step selects the ten cached
    rows that come first by last_viewed_at (never-viewed rows first), or
    all cached rows when there are fewer than ten; it requests the unlink
    of their files and clears their cache columns; every other cached row
    stays cached.  The pass does not look at the number of bytes it
    frees. *)
Theorem evictionStep_evicts_ten_oldest
        (cfg : Config) (w : World) (st : State) :
  getCacheSizeBytes (db st) > maxCacheSizeMB cfg * 1024 * 1024 ->
  List.length (oldestCached 10 (db st))
    = Nat.min 10 (List.length (cachedRows (db st))) /\
  (forall v s, In v (oldestCached 10 (db st)) ->
               In s (cachedRows (db st)) ->
               ~ In s (oldestCached 10 (db st)) -> olderEq v s) /\
  snd (evictionStep cfg w st) = map Unlink (pathsOf (oldestCached 10 (db st))) /\
  db (fst (evictionStep cfg w st))
    = map (fun p => if selected (map id (oldestCached 10 (db st))) p
                    then clear_cache_columns p else p) (db st) /\
  cachedRows (db (fst (evictionStep cfg w st)))
    = filter (fun p => negb (selected (map id (oldestCached 10 (db st))) p))
             (cachedRows (db st)).
Proof.
  intros Hover. unfold evictionStep.
  assert (E : (getCacheSizeBytes (db st) >? maxCacheSizeMB cfg * 1024 * 1024)
              = true) by (apply Z.gtb_lt; lia).
  rewrite E. unfold evictOldest. simpl. rewrite clearAll_map.
  repeat split.
  - apply oldestCached_length.
  - intros v s. apply oldestCached_oldest.
  - apply cachedRows_after_clear.
Qed.

(** Below the limit the eviction step does nothing. *)
Lemma evictionStep_idle cfg w st :
  getCacheSizeBytes (db st) <= maxCacheSizeMB cfg * 1024 * 1024 ->
  evictionStep cfg w st = (st, []).
Proof.
  intros H. unfold evictionStep.
  assert (E : (getCacheSizeBytes (db st) >? maxCacheSizeMB cfg * 1024 * 1024)
              = false) by (rewrite Z.gtb_ltb; apply Z.ltb_ge; lia).
  now rewrite E.
Qed.

(** C3 (as stated) fails: twelve cached photos of 100 MiB under a limit of
    200 MiB.  The tick evicts ten of them and stops at 200 MiB, above the
    190 MiB the headroom asks for, with two evictable rows left. *)
Lemma eviction_stops_above_headroom :
  getCacheSizeBytes (db Scenario.overfull)
    > maxCacheSizeMB Scenario.cfg * 1024 * 1024 /\
  getCacheSizeBytes
    (db (fst (tick Scenario.cfg Scenario.offline Scenario.overfull)))
    = 200 * 1024 * 1024 /\
  200 * 1024 * 1024 > maxCacheSizeMB Scenario.cfg * 1024 * 1024
                      - 10 * 1024 * 1024 /\
  map id (cachedRows
            (db (fst (tick Scenario.cfg Scenario.offline Scenario.overfull))))
    = ["k"; "l"]%string.
Proof. repeat split; vm_compute; reflexivity. Qed.

End Eviction.

(** ** Paths of the cache directory *)

Section CachePaths.
Import CacheManager.
Local Open Scope string_scope.

Lemma append_cancel_l s a b : s ++ a = s ++ b -> a = b.
Proof. induction s as [|c s IH]; simpl; intros H; auto. inversion H; auto. Qed.

Lemma length_append a b :
  String.length (a ++ b) = (String.length a + String.length b)%nat.
Proof. induction a as [|c a IH]; simpl; auto. Qed.

Lemma append_cancel_r s : forall a b, a ++ s = b ++ s -> a = b.
Proof.
  induction a as [|c a IH]; intros [|c' b] H; simpl in H; auto.
  - apply (f_equal String.length) in H. simpl in H.
    rewrite length_append in H. lia.
  - apply (f_equal String.length) in H. simpl in H.
    rewrite length_append in H. lia.
  - inversion H; subst. f_equal. now apply IH.
Qed.

(** Different photos have different cache files. *)
Lemma filePath_inj cfg a b : filePath cfg a = filePath cfg b -> a = b.
Proof.
  unfold filePath. intros H.
  apply append_cancel_l, append_cancel_l in H.
  now apply append_cancel_r in H.
Qed.

End CachePaths.

(** ** The cache columns across a tick *)

Section CacheFields.
Import PhotoDatabase CacheManager.

Variable cfg : Config.

Lemma kept_uncached fs fs' p :
  cached_path p = None -> cacheFieldsKept cfg fs p ->
  cacheFieldsKept cfg fs' p.
Proof.
  intros Hn [H|(size & at_ & Hp & _)]; [now left|congruence].
Qed.

Lemma kept_same_file fs fs' p :
  fs' (filePath cfg (id p)) = fs (filePath cfg (id p)) ->
  cacheFieldsKept cfg fs p -> cacheFieldsKept cfg fs' p.
Proof.
  intros E [H|(size & at_ & Hp & Hs & Hf & Ha)]; [now left|].
  right. exists size, at_. rewrite E. auto.
Qed.

Lemma unlinkAll_other w paths : forall fs q,
  ~ In q paths -> unlinkAll w paths fs q = fs q.
Proof.
  unfold unlinkAll. induction paths as [|x paths IH]; intros fs q Hq; simpl.
  - reflexivity.
  - rewrite IH by (intros H; apply Hq; now right).
    destruct (unlink_ok w x); auto. unfold removeFile.
    destruct (String.eqb q x) eqn:E; auto.
    apply String.eqb_eq in E. exfalso. apply Hq. now left.
Qed.

Lemma in_pathsOf q photos :
  In q (pathsOf photos) ->
  exists v, In v photos /\ cached_path v = Some q.
Proof.
  unfold pathsOf. rewrite in_flat_map. intros (v & Hv & Hq).
  exists v. split; auto. destruct (cached_path v); simpl in Hq; [|tauto].
  destruct Hq as [->|[]]. reflexivity.
Qed.

Lemma evictOldest_keeps count w st :
  Forall (cacheFieldsKept cfg (files st)) (db st) ->
  Forall (cacheFieldsKept cfg (files (fst (evictOldest count w st))))
         (db (fst (evictOldest count w st))).
Proof.
  intros Hinv. unfold evictOldest. simpl. rewrite clearAll_map.
  rewrite Forall_forall in *. intros q Hq.
  apply in_map_iff in Hq as (p & <- & Hp).
  destruct (selected _ p) eqn:E.
  - left. split; reflexivity.
  - apply (kept_same_file (files st)); [|now apply Hinv].
    apply unlinkAll_other. intros Hin.
    apply in_pathsOf in Hin as (v & Hv & Hpath).
    assert (Hvd : In v (db st)).
    { apply oldestCached_incl in Hv. apply filter_In in Hv. tauto. }
    destruct (Hinv v Hvd) as [[Hnone _]|(size & at_ & Hvp & _)];
      [congruence|].
    rewrite Hvp in Hpath. inversion Hpath as [Hpe].
    apply filePath_inj in Hpe.
    assert (selected (map id (oldestCached count (db st))) p = true).
    { apply selected_In. rewrite <- Hpe. now apply in_map. }
    congruence.
Qed.

Lemma writeFile_other path size fs q :
  q <> path -> writeFile path size fs q = fs q.
Proof.
  intros H. unfold writeFile. apply String.eqb_neq in H. now rewrite H.
Qed.

Lemma writeFile_same path size fs : writeFile path size fs path = Some size.
Proof. unfold writeFile. now rewrite String.eqb_refl. Qed.

Lemma downloadPhoto_ids w i st :
  map id (db (fst (downloadPhoto cfg w i st))) = map id (db st).
Proof.
  unfold downloadPhoto. destruct (download w i); simpl; auto.
  unfold updatePhotoCache. rewrite map_map. apply map_ext.
  intros p. now destruct (String.eqb (id p) i).
Qed.

(** A download touches the rows with the id of its photo only. *)
Lemma downloadPhoto_other_rows w i st q :
  In q (db (fst (downloadPhoto cfg w i st))) -> id q <> i -> In q (db st).
Proof.
  unfold downloadPhoto. destruct (download w i); simpl; auto.
  unfold updatePhotoCache. rewrite in_map_iff. intros (p & Hq & Hp) Hne.
  destruct (String.eqb (id p) i) eqn:E.
  - apply String.eqb_eq in E. subst q. simpl in Hne. contradiction.
  - now subst q.
Qed.

Lemma downloadPhoto_keeps w i st :
  (forall p, In p (db st) -> id p = i -> cached_path p = None) ->
  Forall (cacheFieldsKept cfg (files st)) (db st) ->
  Forall (cacheFieldsKept cfg (files (fst (downloadPhoto cfg w i st))))
         (db (fst (downloadPhoto cfg w i st))).
Proof.
  intros Hun Hinv. rewrite Forall_forall in *.
  unfold downloadPhoto. destruct (download w i) as [|partial|size]; simpl.
  - assumption.
  - intros p Hp. destruct (string_dec (id p) i) as [E|E].
    + apply (kept_uncached (files st)); auto.
    + apply (kept_same_file (files st)); auto.
      apply writeFile_other. intros H. now apply filePath_inj in H.
  - intros q Hq. unfold updatePhotoCache in Hq.
    apply in_map_iff in Hq as (p & <- & Hp).
    destruct (String.eqb (id p) i) eqn:E.
    + apply String.eqb_eq in E. right.
      exists size, (downloadedAt w i). simpl. rewrite E.
      repeat split; auto. apply writeFile_same.
    + apply String.eqb_neq in E.
      apply (kept_same_file (files st)); auto.
      apply writeFile_other. intros H. now apply filePath_inj in H.
Qed.

Lemma downloadAll_keeps w ids : forall st,
  NoDup ids ->
  (forall i p, In i ids -> In p (db st) -> id p = i ->
               cached_path p = None) ->
  Forall (cacheFieldsKept cfg (files st)) (db st) ->
  Forall (cacheFieldsKept cfg (files (fst (downloadAll cfg w ids st))))
         (db (fst (downloadAll cfg w ids st))) /\
  map id (db (fst (downloadAll cfg w ids st))) = map id (db st).
Proof.
  induction ids as [|i ids IH]; intros st Hnd Hun Hinv; simpl; auto.
  apply NoDup_cons_iff in Hnd as [Hi Hnd].
  pose proof (downloadPhoto_keeps w i st) as K.
  pose proof (downloadPhoto_ids w i st) as I.
  pose proof (downloadPhoto_other_rows w i st) as O.
  destruct (downloadPhoto cfg w i st) as [st1 ok]. simpl in K, I, O.
  destruct (IH st1) as [K2 I2]; auto.
  - intros j p Hj Hp E. apply (Hun j p); [now right| |assumption].
    apply O; auto. intros E2. apply Hi. congruence.
  - apply K; auto. intros p Hp E. apply (Hun i p); auto. now left.
  - destruct (downloadAll cfg w ids st1) as [st2 failures]. simpl in *.
    split; congruence.
Qed.

End CacheFields.

Section CacheFieldsTheorem.
Import PhotoDatabase CacheManager.

Lemma photosToCache_NoDup d : primary_key d -> NoDup (photosToCache d).
Proof.
  intros Hpk. unfold photosToCache. rewrite <- firstn_map.
  assert (H : NoDup (map id (orderByViewed (uncachedRows d)))).
  { apply (Permutation_NoDup
             (Permutation_map id
                (Permutation_sym (orderByViewed_perm (uncachedRows d))))).
    now apply primary_key_filter. }
  rewrite <- (firstn_skipn 5 (map id (orderByViewed (uncachedRows d)))) in H.
  now apply NoDup_app_remove_r in H.
Qed.

Lemma photosToCache_uncached d i p :
  primary_key d -> In i (photosToCache d) -> In p d -> id p = i ->
  cached_path p = None.
Proof.
  intros Hpk Hi Hp E. unfold photosToCache in Hi.
  apply in_map_iff in Hi as (u & Hu & Hin).
  assert (Hud : In u (uncachedRows d)).
  { apply (Permutation_in _ (orderByViewed_perm (uncachedRows d))).
    rewrite <- (firstn_skipn 5 (orderByViewed (uncachedRows d))).
    apply in_or_app. now left. }
  apply filter_In in Hud as [Hud Hc].
  assert (p = u) by (apply (primary_key_inj d); auto; congruence).
  subst p. unfold isCached in Hc. now destruct (cached_path u).
Qed.

Lemma evictionStep_keeps cfg w st :
  Forall (cacheFieldsKept cfg (files st)) (db st) ->
  Forall (cacheFieldsKept cfg (files (fst (evictionStep cfg w st))))
         (db (fst (evictionStep cfg w st))) /\
  map id (db (fst (evictionStep cfg w st))) = map id (db st) /\
  consecutiveFailures (fst (evictionStep cfg w st)) = consecutiveFailures st.
Proof.
  intros Hinv. unfold evictionStep.
  destruct (getCacheSizeBytes (db st) >? _); [|auto].
  split; [now apply evictOldest_keeps|].
  unfold evictOldest. simpl. rewrite clearAll_map, map_map.
  split; auto. apply map_ext. intros p. now destruct (selected _ p).
Qed.

Lemma prefetchStep_keeps cfg w st :
  primary_key (db st) ->
  Forall (cacheFieldsKept cfg (files st)) (db st) ->
  Forall (cacheFieldsKept cfg (files (fst (prefetchStep cfg w st))))
         (db (fst (prefetchStep cfg w st))) /\
  map id (db (fst (prefetchStep cfg w st))) = map id (db st).
Proof.
  intros Hpk Hinv. unfold prefetchStep.
  destruct (consecutiveFailures st >? 3); [auto|].
  destruct (photosToCache (db st)) as [|i ids] eqn:E; [auto|].
  destruct (downloadAll_keeps cfg w (i :: ids) st) as [K I]; auto.
  - rewrite <- E. now apply photosToCache_NoDup.
  - intros j p Hj Hp Hid. rewrite <- E in Hj.
    now apply (photosToCache_uncached (db st) j p).
  - destruct (downloadAll cfg w (i :: ids) st) as [st1 failures].
    simpl in *. auto.
Qed.

(** C7 (as the code has it).  A tick keeps this invariant of the table:
    every row either has no cached_path and no cached_size_bytes, or has
    the path of its own cache file, the size of that file on disk and a
    cached_at time.  It holds on both paths of the tick, for every answer
    of the network and of the file system.  (The cached_at of an evicted
    row is left as it was, so an uncached row need not be all-NULL.) *)
Theorem tick_keeps_cache_fields (cfg : Config) (w : World) (st : State) :
  primary_key (db st) ->
  Forall (cacheFieldsKept cfg (files st)) (db st) ->
  Forall (cacheFieldsKept cfg (files (fst (tick cfg w st))))
         (db (fst (tick cfg w st))) /\
  primary_key (db (fst (tick cfg w st))).
Proof.
  intros Hpk Hinv. unfold tick.
  destruct (isRunning st); [auto|].
  destruct (evictionStep_keeps cfg w st Hinv) as (K1 & I1 & _).
  destruct (evictionStep cfg w st) as [st1 freed]. simpl in K1, I1.
  assert (Hpk1 : primary_key (db st1))
    by (unfold primary_key in *; congruence).
  destruct (prefetchStep_keeps cfg w st1 Hpk1 K1) as (K2 & I2).
  destruct (prefetchStep cfg w st1) as [st2 fetched]. simpl in *.
  split; auto. unfold primary_key in *. congruence.
Qed.

End CacheFieldsTheorem.

(** ** The theorems at the scenarios *)

Section Scenarios.
Import PhotoDatabase.
Local Open Scope string_scope.

Lemma distinct_NoDup l : Scenario.distinct l = true -> NoDup l.
Proof.
  induction l as [|x l IH]; simpl; intros H; constructor.
  - apply andb_true_iff in H as [H _]. intros Hin.
    apply negb_true_iff in H.
    assert (existsb (String.eqb x) l = true); [|congruence].
    apply existsb_exists. exists x. split; auto. apply String.eqb_refl.
  - apply IH. now apply andb_true_iff in H as [_ H].
Qed.

(** S1: b has never been shown, c was shown before a. *)
Lemma threePhotos_shown_oldest_first :
  PhotoDisplay.shownIds SingleRow Scenario.threeTicks Scenario.threePhotos
    = ["b"; "c"; "a"].
Proof. reflexivity. Qed.

Lemma display_cycle_witness :
  Permutation
    (PhotoDisplay.shownIds SingleRow Scenario.threeTicks
                           Scenario.threePhotos)
    (map id (cachedRows Scenario.threePhotos)).
Proof.
  apply (display_cycle Scenario.threePhotos Scenario.threeTicks).
  - apply distinct_NoDup. reflexivity.
  - reflexivity.
  - intros t p path [<-|[<-|[<-|[]]]] _ _; discriminate.
  - intros t [<-|[<-|[<-|[]]]]; reflexivity.
  - intros t p v [<-|[<-|[<-|[]]]] [<-|[<-|[<-|[]]]] Hv;
      inversion Hv; simpl; lia.
Defined.

Lemma evictionStep_evicts_ten_oldest_witness :
  snd (CacheManager.evictionStep Scenario.cfg Scenario.offline
                                 Scenario.overfull)
    = map CacheManager.Unlink
          (CacheManager.pathsOf
             (CacheManager.oldestCached 10
                (CacheManager.db Scenario.overfull))).
Proof.
  apply (evictionStep_evicts_ten_oldest
           Scenario.cfg Scenario.offline Scenario.overfull).
  vm_compute. reflexivity.
Defined.

Lemma initDatabase_rebuilds_empty_witness :
  Startup.initDatabase
    (Startup.mkEnv true Startup.IntegrityTimedOut true true true) Startup.Damaged
  = (Startup.Opened (Startup.Intact GDriveAPI.emptyStore),
     Startup.Intact GDriveAPI.emptyStore).
Proof.
  apply (initDatabase_rebuilds_empty
           (Startup.mkEnv true Startup.IntegrityTimedOut true true true)
           Startup.Damaged); try reflexivity.
  right. discriminate.
Defined.

Lemma oneBig_kept :
  Forall (CacheManager.cacheFieldsKept Scenario.cfg
            (CacheManager.files Scenario.oneBig))
         (CacheManager.db Scenario.oneBig).
Proof.
  constructor; [|constructor; [|constructor]].
  - right. exists (300 * Scenario.MiB), 4. repeat split; reflexivity.
  - left. split; reflexivity.
Qed.

Lemma tick_keeps_cache_fields_witness :
  Forall (CacheManager.cacheFieldsKept Scenario.cfg
            (CacheManager.files
               (fst (CacheManager.tick Scenario.cfg Scenario.online
                                       Scenario.oneBig))))
         (CacheManager.db
            (fst (CacheManager.tick Scenario.cfg Scenario.online
                                    Scenario.oneBig))) /\
  primary_key
    (CacheManager.db
       (fst (CacheManager.tick Scenario.cfg Scenario.online
                               Scenario.oneBig))).
Proof.
  apply tick_keeps_cache_fields.
  - apply distinct_NoDup. reflexivity.
  - apply oneBig_kept.
Defined.

(** C7 (as stated) fails on the eviction path: the one cached photo is
    over the limit and its row is consistent; after the tick its path and
    size are NULL while cached_at still holds the old time, so the row is
    neither all-NULL nor consistent. *)
Lemma tick_leaves_cached_at_after_eviction :
  Forall (CacheManager.cacheFieldsOk Scenario.cfg
            (CacheManager.files Scenario.oneBig))
         (CacheManager.db Scenario.oneBig) /\
  ~ Forall (CacheManager.cacheFieldsOk Scenario.cfg
              (CacheManager.files
                 (fst (CacheManager.tick Scenario.cfg Scenario.offline
                                         Scenario.oneBig))))
           (CacheManager.db
              (fst (CacheManager.tick Scenario.cfg Scenario.offline
                                      Scenario.oneBig))).
Proof.
  split.
  - constructor; [|constructor; [|constructor]].
    + right. exists (300 * Scenario.MiB), 4. repeat split; reflexivity.
    + left. repeat split; reflexivity.
  - intros H. rewrite Forall_forall in H.
    specialize (H (clear_cache_columns
                     (Scenario.cached "a" (Some 5) (300 * Scenario.MiB) 4))).
    destruct H as [(_ & _ & Hat)|(size & at_ & Hpath & _)].
    + vm_compute. left. reflexivity.
    + discriminate.
    + discriminate.
Qed.


Lemma evictOldest_frame_witness :
  Forall2 (fun p q =>
             CacheManager.sameOtherColumns p q /\
             (In p (CacheManager.oldestCached 10
                      (CacheManager.db Scenario.overfull)) ->
              q = clear_cache_columns p) /\
             (~ In p (CacheManager.oldestCached 10
                        (CacheManager.db Scenario.overfull)) -> q = p))
          (CacheManager.db Scenario.overfull)
          (CacheManager.db
             (fst (CacheManager.evictOldest 10 Scenario.offline
                                            Scenario.overfull))).
Proof.
  apply evictOldest_frame. apply distinct_NoDup. reflexivity.
Defined.

End Scenarios.

(** * Further properties of the code *)

(** ** The display scheduler, one tick at a time *)

Section DisplayTick.
Import PhotoDatabase PhotoDisplay.

(** X1.  What [displayNext] sends, whichever way [db.query] hands back its
    result: when a notification goes out it is for a cached row with the
    smallest view time among the cached rows, it carries the content of
    that row's cache file and the row's filename, and the table changes by
    that row's view time only; when nothing goes out (no cached row, the
    file cannot be read, or the result is an array) the table is left as it
    is. *)
Theorem displayNext_shows_oldest_cached (shape : QueryShape) (t : Tick)
        (db : Table) :
  match displayNext shape t db with
  | (Some n, db') =>
      exists p path,
        In p (cachedRows db) /\ cached_path p = Some path /\
        readFile t path = Some (n_image n) /\
        n_id n = id p /\ n_filename n = filename p /\
        (forall q, In q (cachedRows db) -> olderEq p q) /\
        db' = (if update_ok t then markViewed (now t) (id p) db else db)
  | (None, db') => db' = db
  end.
Proof.
  unfold displayNext. destruct shape; [reflexivity|]. unfold rowOf.
  destruct (nextPhoto (rnd t) db) as [photo|] eqn:Hnext; [|reflexivity].
  assert (Hne : cachedRows db <> []).
  { intros E. unfold nextPhoto in Hnext. rewrite E in Hnext. discriminate. }
  destruct (nextPhoto_oldest (rnd t) db Hne) as (p & Hp & Hin & Hmin).
  rewrite Hnext in Hp. inversion Hp; subst p.
  destruct (cached_path photo) as [path|] eqn:Hpath; [|reflexivity].
  destruct (readFile t path) as [buffer|] eqn:Hread; [|reflexivity].
  exists photo, path. simpl. repeat split; auto.
Qed.

Lemma option_eq_dec_last (i : string) (last : option string) :
  {Some i = last} + {Some i <> last}.
Proof.
  destruct last as [j|]; [|right; discriminate].
  destruct (string_dec i j) as [->|E]; [now left|right; congruence].
Qed.

Lemma two_cached_other (db : Table) (i : string) :
  primary_key db -> (2 <= List.length (cachedRows db))%nat ->
  exists q, In q (cachedRows db) /\ id q <> i.
Proof.
  intros Hpk Hlen. pose proof (primary_key_filter isCached db Hpk) as Hnd.
  fold (cachedRows db) in Hnd.
  destruct (cachedRows db) as [|a [|b l]]; simpl in Hlen; try lia.
  simpl in Hnd. apply NoDup_cons_iff in Hnd as [Hab _].
  destruct (string_dec (id a) i) as [E|E].
  - exists b. split; [right; now left|]. intros E2. apply Hab. left. congruence.
  - exists a. split; [now left|assumption].
Qed.

(** One tick of the steady state: the photo shown differs from the last one
    and becomes the last one. *)
Lemma displayNext_moves_on (t : Tick) (db : Table) (last : option string)
      (t0 : Z) :
  primary_key db -> (2 <= List.length (cachedRows db))%nat ->
  (forall p path, In p db -> cached_path p = Some path ->
                  readFile t path <> None) ->
  update_ok t = true ->
  shownLast db last t0 ->
  t0 <= now t -> (last <> None -> t0 < now t) ->
  exists n,
    displayNext SingleRow t db = (Some n, markViewed (now t) (n_id n) db) /\
    Some (n_id n) <> last /\
    shownLast (markViewed (now t) (n_id n) db) (Some (n_id n)) (now t).
Proof.
  intros Hpk Hlen Hread Hupd Hinv Hle Hlt.
  assert (Hne : cachedRows db <> []).
  { intros E. rewrite E in Hlen. simpl in Hlen. lia. }
  destruct (nextPhoto_oldest (rnd t) db Hne) as (p & Hnext & Hp & Hmin).
  assert (Hpdb : In p db) by (apply filter_In in Hp; tauto).
  assert (Hfresh : Some (id p) <> last).
  { intros E. destruct (two_cached_other db (id p) Hpk Hlen) as (q & Hq & Hne2).
    assert (Hqdb : In q db) by (apply filter_In in Hq; tauto).
    destruct (Hinv p Hpdb) as [Hlast _]. specialize (Hlast E).
    destruct (Hinv q Hqdb) as [_ Hold].
    assert (Hq2 : Some (id q) <> last) by (rewrite <- E; congruence).
    specialize (Hold Hq2). specialize (Hmin q Hq). unfold olderEq in *.
    rewrite Hlast in Hmin. destruct (last_viewed_at q) as [v|]; simpl in Hmin;
      [|discriminate].
    specialize (Hold v eq_refl). lia. }
  assert (exists path, cached_path p = Some path) as (path & Hpath).
  { apply filter_In in Hp as [_ Hc]. unfold isCached in Hc.
    destruct (cached_path p); [eauto|discriminate]. }
  assert (exists buffer, readFile t path = Some buffer) as (buffer & Hbuf).
  { specialize (Hread p path Hpdb Hpath).
    destruct (readFile t path); [eauto|congruence]. }
  exists (mkNotification (id p) buffer (filename p)). simpl.
  split; [|split; [assumption|]].
  - unfold displayNext, rowOf. now rewrite Hnext, Hpath, Hbuf, Hupd.
  - intros r Hr. apply in_markViewed in Hr as (r0 & Hr0 & _ & Hid & Hcase).
    split.
    + intros E. destruct Hcase as [[_ Hv]|[Hne2 _]]; [assumption|].
      exfalso. apply Hne2. congruence.
    + intros E v Hv. destruct Hcase as [[Heq _]|[Hne2 ->]].
      * exfalso. apply E. congruence.
      * destruct (Hinv r0 Hr0) as [Hlast Hold].
        destruct (option_eq_dec_last (id r0) last) as [El|El].
        -- assert (t0 < now t) by (apply Hlt; rewrite <- El; discriminate).
           rewrite (Hlast El) in Hv. inversion Hv; subst. assumption.
        -- specialize (Hold El v Hv). lia.
Qed.

Lemma noRepeat_nth l : forall prev k a b,
  noRepeat prev l ->
  nth_error l k = Some a -> nth_error l (S k) = Some b -> a <> b.
Proof.
  induction l as [|x l IH]; intros prev k a b Hn Ha Hb.
  - destruct k; discriminate.
  - destruct Hn as [_ Hn]. destruct k as [|k]; simpl in Ha, Hb.
    + inversion Ha; subst. destruct l as [|y l]; [discriminate|].
      simpl in Hb. inversion Hb; subst. destruct Hn as [Hn _]. congruence.
    + apply (IH (Some x) k a b); auto.
Qed.

Lemma displayTicks_no_repeat ts : forall db last t0,
  primary_key db -> (2 <= List.length (cachedRows db))%nat ->
  (forall t p path, In t ts -> In p db -> cached_path p = Some path ->
                    readFile t path <> None) ->
  (forall t, In t ts -> update_ok t = true) ->
  shownLast db last t0 ->
  (forall t, hd_error ts = Some t ->
             t0 <= now t /\ (last <> None -> t0 < now t)) ->
  Sorted (fun a b => now a < now b) ts ->
  noRepeat last (shownIds SingleRow ts db).
Proof.
  induction ts as [|t ts IH]; intros db last t0 Hpk Hlen Hread Hupd Hinv Hhd Hs.
  { exact I. }
  destruct (Hhd t eq_refl) as [Hle Hlt].
  destruct (displayNext_moves_on t db last t0) as (n & Hnow & Hfresh & Hinv1);
    auto.
  { intros p path. apply Hread. now left. }
  { apply Hupd. now left. }
  rewrite shownIds_cons, Hnow. simpl. split; [assumption|].
  inversion Hs as [|? ? Hs' Hrel]; subst.
  apply (IH _ (Some (n_id n)) (now t)); auto.
  - unfold primary_key. now rewrite markViewed_ids.
  - rewrite markViewed_cachedRows. unfold markViewed. now rewrite length_map.
  - intros t' q path Ht' Hq Hpath.
    apply in_markViewed in Hq as (q0 & Hq0 & Hc & _).
    apply (Hread t' q0 path); [now right|assumption|congruence].
  - intros t' Ht'. apply Hupd. now right.
  - intros t' Ht'. destruct ts as [|t2 ts]; simpl in Ht'; [discriminate|].
    inversion Ht'; subst. inversion Hrel; subst. split; intros; lia.
Qed.

(** X2.  No immediate repeat (scenario S6): when at least two photos are
    cached, their files stay readable, the view-time UPDATE goes through and
    the clock readings of the ticks increase from values later than the view
    times stored before, no photo is sent on two consecutive ticks, whatever
    RANDOM() draws and whichever way [db.query] hands back its result. *)
Theorem display_no_immediate_repeat (shape : QueryShape) (db : Table)
        (ts : list Tick) :
  primary_key db ->
  (2 <= List.length (cachedRows db))%nat ->
  (forall t p path, In t ts -> In p db ->
     cached_path p = Some path -> readFile t path <> None) ->
  (forall t, In t ts -> update_ok t = true) ->
  (forall t p v, In t ts -> In p db ->
     last_viewed_at p = Some v -> v < now t) ->
  Sorted (fun a b => now a < now b) ts ->
  forall k a b,
    nth_error (shownIds shape ts db) k = Some a ->
    nth_error (shownIds shape ts db) (S k) = Some b -> a <> b.
Proof.
  intros Hpk Hlen Hread Hupd Hclock Hs k a b.
  destruct shape.
  { unfold shownIds. rewrite displayTicks_array. destruct k; discriminate. }
  apply (noRepeat_nth _ None).
  destruct ts as [|t ts]; [exact I|].
  apply (displayTicks_no_repeat (t :: ts) db None (now t)); auto.
  - intros p Hp. split; [discriminate|].
    intros _ v Hv. apply (Hclock t p v); auto. now left.
  - intros t' Ht'. simpl in Ht'. inversion Ht'; subst.
    split; [lia|congruence].
Qed.

End DisplayTick.

(** ** The effects of a cache tick *)

Section TickEffects.
Import PhotoDatabase CacheManager.

Lemma pathsOf_length photos :
  (List.length (pathsOf photos) <= List.length photos)%nat.
Proof.
  unfold pathsOf. induction photos as [|p l IH]; simpl; auto.
  rewrite length_app. destruct (cached_path p); simpl; lia.
Qed.

Lemma prefetchStep_shape cfg w st :
  snd (prefetchStep cfg w st) = [] \/
  snd (prefetchStep cfg w st) = [Sleep 60000] \/
  exists ids,
    snd (prefetchStep cfg w st) = map Fetch ids /\
    (1 <= List.length ids <= 5)%nat /\
    forall i, In i ids ->
      exists p, In p (db st) /\ id p = i /\ cached_path p = None.
Proof.
  unfold prefetchStep. destruct (consecutiveFailures st >? 3); [now right; left|].
  destruct (photosToCache (db st)) as [|i ids] eqn:E; [now left|].
  right; right. exists (i :: ids).
  destruct (downloadAll cfg w (i :: ids) st) as [st1 failures]. cbn [snd].
  split; [reflexivity|]. split.
  - split; [simpl; lia|].
    rewrite <- E. unfold photosToCache. rewrite length_map, length_firstn. lia.
  - intros j Hj. rewrite <- E in Hj. unfold photosToCache in Hj.
    apply in_map_iff in Hj as (u & Hu & Hin). exists u.
    assert (Hud : In u (uncachedRows (db st))).
    { apply (Permutation_in _ (orderByViewed_perm (uncachedRows (db st)))).
      rewrite <- (firstn_skipn 5 (orderByViewed (uncachedRows (db st)))).
      apply in_or_app. now left. }
    apply filter_In in Hud as [Hud Hc]. repeat split; auto.
    unfold isCached in Hc. now destruct (cached_path u).
Qed.

(** X3.  The effects of one [tick], in program order: first the unlinks of
    the eviction, at most 10; then either nothing, or the 60 s sleep alone,
    or between 1 and 5 downloads.  Every download is for a row that has no
    cached path once the eviction is done: a tick never downloads a photo
    that is in the cache, and never downloads while it sleeps. *)
Theorem tick_effects_shape (cfg : Config) (w : World) (st : State) :
  exists paths rest,
    snd (tick cfg w st) = map Unlink paths ++ rest /\
    (List.length paths <= 10)%nat /\
    (rest = [] \/ rest = [Sleep 60000] \/
     exists ids,
       rest = map Fetch ids /\ (1 <= List.length ids <= 5)%nat /\
       forall i, In i ids ->
         exists p, In p (db (fst (evictionStep cfg w st))) /\
                   id p = i /\ cached_path p = None).
Proof.
  unfold tick. destruct (isRunning st).
  { exists [], []. simpl. split; [reflexivity|]. split; [lia|now left]. }
  assert (He : exists paths,
             snd (evictionStep cfg w st) = map Unlink paths /\
             (List.length paths <= 10)%nat).
  { unfold evictionStep. destruct (_ >? _).
    - exists (pathsOf (oldestCached 10 (db st))). split; [reflexivity|].
      etransitivity; [apply pathsOf_length|].
      unfold oldestCached. rewrite length_firstn. lia.
    - exists []. simpl. split; [reflexivity|lia]. }
  destruct He as (paths & He & Hl).
  pose proof (prefetchStep_shape cfg w (fst (evictionStep cfg w st))) as Hp.
  destruct (evictionStep cfg w st) as [st1 freed]. simpl in *.
  destruct (prefetchStep cfg w st1) as [st2 fetched]. simpl in *.
  exists paths, fetched. subst freed.
  split; [reflexivity|]. split; [assumption|exact Hp].
Qed.

Lemma sizes_perm (l l' : list Photo) :
  Permutation l l' ->
  fold_right (fun p acc => sizeOf p + acc) 0 l
  = fold_right (fun p acc => sizeOf p + acc) 0 l'.
Proof.
  induction 1; simpl; lia.
Qed.

Lemma sizes_partition (f : Photo -> bool) (l : list Photo) :
  fold_right (fun p acc => sizeOf p + acc) 0 l
  = fold_right (fun p acc => sizeOf p + acc) 0 (filter f l)
    + fold_right (fun p acc => sizeOf p + acc) 0
                 (filter (fun p => negb (f p)) l).
Proof.
  induction l as [|p l IH]; simpl; auto.
  destruct (f p); simpl; lia.
Qed.

Lemma cachedRows_of_cached (l : list Photo) :
  (forall p, In p l -> isCached p = true) -> cachedRows l = l.
Proof.
  unfold cachedRows. induction l as [|p l IH]; simpl; intros H; auto.
  rewrite (H p (or_introl eq_refl)). f_equal. apply IH.
  intros q Hq. apply H. now right.
Qed.

(** X4.  Bytes freed by an eviction pass: under the primary key, the sum of
    cached_size_bytes over the cached rows drops by exactly the sizes of the
    rows that were selected. *)
Theorem evictOldest_frees_selected_bytes (count : nat) (w : World) (st : State) :
  primary_key (db st) ->
  getCacheSizeBytes (db (fst (evictOldest count w st)))
  = getCacheSizeBytes (db st)
    - getCacheSizeBytes (oldestCached count (db st)).
Proof.
  intros Hpk. unfold evictOldest. simpl. rewrite clearAll_map.
  unfold getCacheSizeBytes at 1. rewrite cachedRows_after_clear.
  set (ids := map id (oldestCached count (db st))).
  unfold getCacheSizeBytes at 1.
  rewrite (sizes_partition (selected ids) (cachedRows (db st))).
  assert (Hperm : Permutation (filter (selected ids) (cachedRows (db st)))
                              (oldestCached count (db st))).
  { assert (Hnd : NoDup (cachedRows (db st))).
    { apply (NoDup_map_inv id). now apply primary_key_filter. }
    apply NoDup_Permutation.
    - now apply NoDup_filter.
    - unfold oldestCached.
      assert (Hs : NoDup (orderByViewed (cachedRows (db st)))).
      { apply (Permutation_NoDup
                 (Permutation_sym (orderByViewed_perm (cachedRows (db st))))).
        exact Hnd. }
      rewrite <- (firstn_skipn count (orderByViewed (cachedRows (db st))))
        in Hs.
      now apply NoDup_app_remove_r in Hs.
    - intros x. rewrite filter_In. split.
      + intros [Hx Hsel]. apply (selected_victim count (db st) x Hpk); auto.
        apply filter_In in Hx. tauto.
      + intros Hx. split; [now apply oldestCached_incl in Hx|].
        apply (selected_victim count (db st) x Hpk); auto.
        apply oldestCached_incl in Hx. apply filter_In in Hx. tauto. }
  rewrite (sizes_perm _ _ Hperm).
  unfold getCacheSizeBytes. rewrite (cachedRows_of_cached (oldestCached _ _)).
  - lia.
  - intros p Hp. apply oldestCached_incl in Hp. now apply filter_In in Hp.
Qed.

End TickEffects.

(** ** The Drive scan under a depth limit *)

Section DepthLimit.
Import GDriveAPI.

Lemma scanFolder_depth_fuel (drive : Drive) (maxDepth : Z) :
  0 <= maxDepth ->
  forall fuel folderId depth,
    0 <= depth <= maxDepth ->
    (Z.to_nat (maxDepth - depth) < fuel)%nat ->
    scanFolder fuel drive folderId maxDepth depth <> None.
Proof.
  intros Hmax. induction fuel as [|fuel IH]; intros folderId depth Hd Hfuel;
    [lia|].
  simpl.
  assert (E : (maxDepth =? -1) = false) by (apply Z.eqb_neq; lia).
  rewrite E. simpl.
  destruct (depth <? maxDepth) eqn:L; [|discriminate].
  apply Z.ltb_lt in L.
  generalize (@nil string) as visited.
  generalize (imagesIn drive folderId) as photos.
  induction (foldersIn drive folderId) as [|f rest IHl]; intros photos visited.
  - discriminate.
  - destruct (existsb (String.eqb f) visited); [apply IHl|].
    destruct (scanFolder fuel drive (Some f) maxDepth (depth + 1)) eqn:S.
    + apply IHl.
    + exfalso. apply (IH (Some f) (depth + 1)); auto; lia.
Qed.

(** X5.  A depth limit bounds the Drive scan: with maxDepth = N >= 0 the
    recursion of [scanFolder] is never deeper than N + 1 calls, so the scan
    returns on every Drive, also on one whose folders form a cycle. *)
Theorem scanFolder_bounded_depth_returns
        (drive : Drive) (folderId : option string) (maxDepth : Z) :
  0 <= maxDepth ->
  exists photos,
    scanFolder (S (Z.to_nat maxDepth)) drive folderId maxDepth 0 = Some photos.
Proof.
  intros Hmax.
  pose proof (scanFolder_depth_fuel drive maxDepth Hmax
                (S (Z.to_nat maxDepth)) folderId 0) as H.
  destruct (scanFolder (S (Z.to_nat maxDepth)) drive folderId maxDepth 0)
    as [photos|].
  - now exists photos.
  - exfalso. apply H; auto; [lia|]. rewrite Z.sub_0_r. lia.
Qed.

Lemma scanFolder_bounded_depth_returns_witness :
  exists photos,
    scanFolder 4
      (mkDrive (fun f => match f with Some "A"%string => ["a.jpg"%string]
                                    | _ => [] end)
               (fun f => match f with
                         | Some "A"%string => ["B"%string]
                         | Some "B"%string => ["A"%string]
                         | _ => []
                         end))
      (Some "A"%string) 3 0 = Some photos.
Proof.
  apply (scanFolder_bounded_depth_returns _ (Some "A"%string) 3). lia.
Defined.

End DepthLimit.

(** ** What an incremental scan returns and what it leaves alone *)

Section ScanResult.
Import PhotoDatabase GDriveAPI.
Local Open Scope string_scope.
Local Open Scope list_scope.
#[local] Arguments perform : simpl never.

Lemma in_imagesOf f cs :
  In f (imagesOf cs) ->
  trashed f = false /\
  exists m, mimeType f = Some m /\ String.prefix "image/" m = true.
Proof.
  unfold imagesOf. rewrite in_flat_map. intros (c & Hc & Hf).
  destruct (isDeletion c) eqn:D; [contradiction|].
  destruct (isImage c) eqn:I; [|contradiction].
  unfold isDeletion in D. unfold isImage in I.
  destruct (file c) as [g|]; [|contradiction].
  destruct Hf as [->|[]]. apply orb_false_iff in D as [_ D].
  split; auto. destruct (mimeType f) as [m|]; [|discriminate]. eauto.
Qed.

(** X7.  An incremental scan hands back live images only: every file in its
    result has a mime type that starts with image/ and is not trashed. *)
Theorem scanForChanges_returns_live_images (r : Remote) (st : Store)
        (imgs : list ChangedFile) :
  truthy (getSetting "changes_token" (settings st)) = true ->
  returned (scanForChanges r st) = Some imgs ->
  forall f, In f imgs ->
    trashed f = false /\
    exists m, mimeType f = Some m /\ String.prefix "image/" m = true.
Proof.
  intros Htok Hret f Hf. unfold scanForChanges in Hret. rewrite Htok in Hret.
  destruct (changePages_spec (responses r) st [] []) as (_ & _ & C).
  rewrite (C imgs Hret) in Hf. simpl in Hf.
  apply in_flat_map in Hf as (pg & _ & Hf). now apply in_imagesOf in Hf.
Qed.

Lemma scanForChanges_returns_live_images_witness :
  trashed Scenario.newImage = false /\
  exists m, mimeType Scenario.newImage = Some m /\
            String.prefix "image/" m = true.
Proof.
  apply (scanForChanges_returns_live_images
           Scenario.remote Scenario.synced [Scenario.newImage]);
    [reflexivity|reflexivity|now left].
Defined.

Lemma deletions_keep_settings acts : forall st,
  (forall a, In a acts -> exists i, a = DeletePhoto i) ->
  settings (fold_left (fun s a => perform a s) acts st) = settings st.
Proof.
  induction acts as [|a acts IH]; intros st H; simpl; auto.
  rewrite IH by (intros b Hb; apply H; now right).
  destruct (H a (or_introl eq_refl)) as (i & ->). reflexivity.
Qed.

(** X8.  The stored cursor moves only on a newStartPageToken: an incremental
    scan whose pages carry none (the listing broke off, or the last page had
    no new start token) leaves every setting as it was, whatever deletions it
    applied on the way. *)
Theorem scanForChanges_keeps_cursor (r : Remote) (st : Store) :
  truthy (getSetting "changes_token" (settings st)) = true ->
  (forall pg, In pg (consumed (responses r)) ->
              truthy (newStartPageToken pg) = false) ->
  settings (store (scanForChanges r st)) = settings st.
Proof.
  intros Htok Hno. unfold scanForChanges. rewrite Htok.
  destruct (changePages_spec (responses r) st [] []) as (_ & B & _).
  rewrite B. apply deletions_keep_settings.
  intros a Ha. apply in_flat_map in Ha as (pg & Hpg & Ha).
  unfold pageActions, cursorOf in Ha. rewrite (Hno pg Hpg) in Ha.
  rewrite app_nil_r in Ha. unfold deletionsOf in Ha.
  apply in_map_iff in Ha as (c & <- & _). eauto.
Qed.

Lemma scanForChanges_keeps_cursor_witness :
  settings
    (store (scanForChanges
              (mkRemote None None
                        [mkPage [mkChange "b" true None] (Some "p2") None])
              Scenario.synced))
  = settings Scenario.synced.
Proof.
  apply scanForChanges_keeps_cursor; [reflexivity|].
  intros pg [<-|[]]. reflexivity.
Defined.

End ScanResult.

(** ** Download retry for every number of attempts *)

Section RetryGeneral.
Import Retry.

Lemma attemptLoop_outcome {R} (get : Z -> option R) (maxRetries : Z) :
  forall n attempt,
    attempt <= maxRetries ->
    Z.of_nat n = maxRetries - attempt + 1 ->
    (forall r,
       fst (attemptLoop n attempt maxRetries get) = Resolved r <->
       exists k, attempt <= k <= maxRetries /\ get k = Some r /\
                 forall j, attempt <= j < k -> get j = None) /\
    (fst (attemptLoop n attempt maxRetries get) = Threw <->
     forall k, attempt <= k <= maxRetries -> get k = None) /\
    (List.length (requests (snd (attemptLoop n attempt maxRetries get)))
     <= n)%nat.
Proof.
  induction n as [|n IH]; intros attempt Hle Hn; [lia|].
  simpl. destruct (get attempt) as [r0|] eqn:G.
  - simpl. split; [|split; [|lia]].
    + intros r. split.
      * intros H. inversion H; subst. exists attempt.
        split; [lia|]. split; [assumption|]. intros j Hj. lia.
      * intros (k & Hk & Hg & Hnone).
        destruct (Z.eq_dec k attempt) as [->|Hne]; [congruence|].
        rewrite (Hnone attempt) in G by lia. discriminate.
    + split; [discriminate|]. intros H. rewrite (H attempt) in G by lia.
      discriminate.
  - destruct (attempt =? maxRetries) eqn:E.
    + apply Z.eqb_eq in E. simpl. split; [|split; [|lia]].
      * intros r. split; [discriminate|].
        intros (k & Hk & Hg & _). assert (k = attempt) by lia. congruence.
      * split; auto. intros _ k Hk. assert (k = attempt) by lia. congruence.
    + apply Z.eqb_neq in E.
      destruct (IH (attempt + 1)) as (A & B & C); try lia.
      destruct (attemptLoop n (attempt + 1) maxRetries get) as [out evs].
      simpl in *. split; [|split; [|lia]].
      * intros r. rewrite A. split.
        -- intros (k & Hk & Hg & Hnone). exists k.
           split; [lia|]. split; [assumption|].
           intros j Hj. destruct (Z.eq_dec j attempt) as [->|]; auto.
           apply Hnone. lia.
        -- intros (k & Hk & Hg & Hnone).
           assert (k <> attempt) by congruence.
           exists k. split; [lia|]. split; [assumption|].
           intros j Hj. apply Hnone. lia.
      * rewrite B. split.
        -- intros H k Hk. destruct (Z.eq_dec k attempt) as [->|]; auto.
           apply H. lia.
        -- intros H k Hk. apply H. lia.
Qed.

(** X9.  [downloadWithRetry] with any positive number of attempts: it
    resolves with the answer of the first attempt that succeeds, provided
    that attempt is among the first maxRetries; it throws exactly when all
    maxRetries attempts reject; and it never sends more than maxRetries
    requests. *)
Theorem downloadWithRetry_first_success {R} (maxRetries : Z)
        (get : Z -> option R) :
  1 <= maxRetries ->
  (forall r,
     fst (downloadWithRetry maxRetries get) = Resolved r <->
     exists k, 1 <= k <= maxRetries /\ get k = Some r /\
               forall j, 1 <= j < k -> get j = None) /\
  (fst (downloadWithRetry maxRetries get) = Threw <->
   forall k, 1 <= k <= maxRetries -> get k = None) /\
  Z.of_nat (List.length (requests (snd (downloadWithRetry maxRetries get))))
  <= maxRetries.
Proof.
  intros H. unfold downloadWithRetry.
  destruct (attemptLoop_outcome get maxRetries (Z.to_nat maxRetries) 1)
    as (A & B & C); try lia.
  repeat split; try apply A; try apply B. lia.
Qed.

Lemma downloadWithRetry_first_success_witness :
  fst (downloadWithRetry 5 (fun k => if k =? 4 then Some "stream"%string
                                     else None))
  = Resolved "stream"%string.
Proof.
  apply (downloadWithRetry_first_success 5); [lia|].
  exists 4. repeat split; try lia; try reflexivity.
  intros j Hj. destruct (j =? 4) eqn:E; auto. apply Z.eqb_eq in E. lia.
Defined.

(** X10.  The edge of the loop bound: with maxRetries of 0 or less
    [downloadWithRetry] sends no request and neither resolves with a
    response nor throws; the promise fulfils with undefined. *)
Theorem downloadWithRetry_without_attempts {R} (maxRetries : Z)
        (get : Z -> option R) :
  maxRetries <= 0 ->
  downloadWithRetry maxRetries get = (FellThrough, []).
Proof.
  intros H. unfold downloadWithRetry.
  replace (Z.to_nat maxRetries) with 0%nat by lia. reflexivity.
Qed.

Lemma downloadWithRetry_without_attempts_witness :
  downloadWithRetry 0 (fun _ : Z => Some tt) = (FellThrough, []).
Proof. apply downloadWithRetry_without_attempts. lia. Defined.

End RetryGeneral.

(** ** The OneDrive provider: requests, full scan, monitored folders *)

Section OneDriveRequests.
Import Retry OneDriveProvider.
#[local] Arguments Z.mul : simpl never.
#[local] Arguments Z.pow : simpl never.

Lemma requestLoop_outcome {R} (ask : Z -> Answer R) (maxRetries : Z) :
  forall n attempt,
    0 <= attempt < maxRetries ->
    Z.of_nat n = maxRetries - attempt ->
    (forall r,
       fst (requestLoop n attempt maxRetries ask) = Resolved r <->
       exists k, attempt <= k < maxRetries /\ ask k = Data r /\
                 forall j, attempt <= j < k -> ask j = Transient) /\
    (List.length (requests (snd (requestLoop n attempt maxRetries ask)))
     <= n)%nat /\
    Forall (fun d => 2000 <= d <= 60000)
           (delays (snd (requestLoop n attempt maxRetries ask))).
Proof.
  induction n as [|n IH]; intros attempt Hle Hn; [lia|].
  simpl. destruct (ask attempt) as [r0| |] eqn:G.
  - simpl. split; [|split; [lia|constructor]].
    intros r. split.
    + intros H. inversion H; subst. exists attempt.
      split; [lia|]. split; [assumption|]. intros j Hj. lia.
    + intros (k & Hk & Hg & Hall).
      destruct (Z.eq_dec k attempt) as [->|Hne]; [congruence|].
      rewrite (Hall attempt) in G by lia. discriminate.
  - destruct (attempt + 1 <? maxRetries) eqn:E.
    + apply Z.ltb_lt in E.
      destruct (IH (attempt + 1)) as (A & B & C); try lia.
      destruct (requestLoop n (attempt + 1) maxRetries ask) as [out evs].
      simpl in *. split; [|split; [lia|]].
      * intros r. rewrite A. split.
        -- intros (k & Hk & Hg & Hall). exists k.
           split; [lia|]. split; [assumption|].
           intros j Hj. destruct (Z.eq_dec j attempt) as [->|]; auto.
           apply Hall. lia.
        -- intros (k & Hk & Hg & Hall).
           assert (k <> attempt) by congruence.
           exists k. split; [lia|]. split; [assumption|].
           intros j Hj. apply Hall. lia.
      * constructor; auto.
        assert (2 <= 2 ^ (attempt + 1)).
        { change 2 with (2 ^ 1) at 1. apply Z.pow_le_mono_r; lia. }
        lia.
    + apply Z.ltb_ge in E. simpl. split; [|split; [lia|constructor]].
      intros r. split; [discriminate|].
      intros (k & Hk & Hg & _). assert (k = attempt) by lia. congruence.
  - simpl. split; [|split; [lia|constructor]].
    intros r. split; [discriminate|].
    intros (k & Hk & Hg & Hall).
    destruct (Z.eq_dec k attempt) as [->|Hne]; [congruence|].
    rewrite (Hall attempt) in G by lia. discriminate.
Qed.

(** X12.  [makeRequest] with any positive maxRetries.  Offline, it throws
    without sending a request, and so it does when the token is about to
    expire and the refresh fails.  Otherwise it resolves with the first
    answer that carries data, provided every answer before it was a
    retryable failure and it comes among the first maxRetries; an error
    that is not retryable ends the call at once.  It never sends more than
    maxRetries requests, and every wait between two requests lasts between
    2 s and 60 s. *)
Theorem makeRequest_first_data {R} (pre : Preflight)
        (tokenExpiry maxRetries : Z) (ask : Z -> Answer R) :
  1 <= maxRetries ->
  let '(out, evs, expiry) := makeRequest pre tokenExpiry maxRetries ask in
  (forall r,
     out = Resolved r <->
     reachesLoop pre tokenExpiry /\
     exists k, 0 <= k < maxRetries /\ ask k = Data r /\
               forall j, 0 <= j < k -> ask j = Transient) /\
  (~ reachesLoop pre tokenExpiry -> out = Threw /\ evs = []) /\
  Z.of_nat (List.length (requests evs)) <= maxRetries /\
  Forall (fun d => 2000 <= d <= 60000) (delays evs) /\
  (tokenStale pre tokenExpiry = false -> expiry = tokenExpiry).
Proof.
  intros H. unfold makeRequest, reachesLoop.
  destruct (requestLoop_outcome ask maxRetries (Z.to_nat maxRetries) 0)
    as (A & B & C); try lia.
  destruct (online pre); simpl.
  - destruct (tokenStale pre tokenExpiry) eqn:S.
    + destruct (refresh pre) as [|e|e].
      * split; [|split; [|split; [simpl; lia|split; [constructor|]]]].
        -- intros r. split; [discriminate|].
           intros [[_ Hr] _]. destruct (Hr eq_refl). discriminate.
        -- auto.
        -- discriminate.
      * split; [|split; [|split; [simpl; lia|split; [constructor|]]]].
        -- intros r. split; [discriminate|].
           intros [[_ Hr] _]. destruct (Hr eq_refl). discriminate.
        -- auto.
        -- discriminate.
      * destruct (requestLoop (Z.to_nat maxRetries) 0 maxRetries ask)
          as [out evs].
        simpl in *. split; [|split; [|split; [lia|split; [exact C|]]]].
        -- intros r. rewrite A. split.
           ++ intros Hk. split; [|exact Hk]. split; [reflexivity|].
              intros _. now exists e.
           ++ intros [_ Hk]. exact Hk.
        -- intros Hn. exfalso. apply Hn. split; [reflexivity|].
           intros _. now exists e.
        -- discriminate.
    + destruct (requestLoop (Z.to_nat maxRetries) 0 maxRetries ask)
        as [out evs].
      simpl in *. split; [|split; [|split; [lia|split; [exact C|]]]].
      * intros r. rewrite A. split.
        -- intros Hk. split; [|exact Hk]. split; [reflexivity|].
           discriminate.
        -- intros [_ Hk]. exact Hk.
      * intros Hn. exfalso. apply Hn. split; [reflexivity|discriminate].
      * reflexivity.
  - split; [|split; [|split; [simpl; lia|split; [constructor|]]]].
    + intros r. split; [discriminate|]. intros [[Ho _] _]. discriminate.
    + auto.
    + destruct (tokenStale pre tokenExpiry); [discriminate|reflexivity].
Qed.

Lemma makeRequest_first_data_witness :
  fst (fst (makeRequest (mkPreflight true 400000 (Refreshed 3600000))
                        500000 4
                        (fun k => if k =? 2 then Data "page"%string
                                  else Transient)))
  = Resolved "page"%string.
Proof.
  pose proof (makeRequest_first_data
                (mkPreflight true 400000 (Refreshed 3600000)) 500000 4
                (fun k => if k =? 2 then Data "page"%string
                          else Transient)) as H.
  destruct (makeRequest (mkPreflight true 400000 (Refreshed 3600000))
                        500000 4 _) as [[out evs] expiry].
  destruct H as (A & _); [lia|]. simpl. apply A.
  split.
  - split; [reflexivity|]. intros _. now exists 3600000.
  - exists 2. split; [lia|]. split; [reflexivity|].
    intros j Hj. destruct (j =? 2) eqn:E; auto. apply Z.eqb_eq in E. lia.
Defined.

End OneDriveRequests.

Section OneDriveFullScan.
Import OneDriveProvider OneDriveSync.

Lemma mapSet_keys {A} (key : A -> string) x m k :
  In k (map key (mapSet key x m)) <-> k = key x \/ In k (map key m).
Proof.
  induction m as [|y m IH]; simpl.
  - intuition.
  - destruct (String.eqb (key y) (key x)) eqn:E; simpl.
    + apply String.eqb_eq in E. rewrite E. intuition.
    + rewrite IH. intuition.
Qed.

Lemma mapSet_NoDup {A} (key : A -> string) x m :
  NoDup (map key m) -> NoDup (map key (mapSet key x m)).
Proof.
  induction m as [|y m IH]; simpl; intros H.
  - repeat constructor. intros [].
  - apply NoDup_cons_iff in H as [Hy H].
    destruct (String.eqb (key y) (key x)) eqn:E; simpl.
    + apply String.eqb_eq in E. rewrite <- E. now constructor.
    + apply String.eqb_neq in E. constructor; auto.
      rewrite mapSet_keys. intros [Hk|Hk]; auto.
Qed.

Lemma uniqueFold_keys {A} (key : A -> string) l : forall m,
  NoDup (map key m) ->
  NoDup (map key (fold_left (fun m x => mapSet key x m) l m)) /\
  forall k, In k (map key (fold_left (fun m x => mapSet key x m) l m)) <->
            In k (map key m) \/ In k (map key l).
Proof.
  induction l as [|x l IH]; intros m Hm; simpl.
  - split; auto. intuition.
  - destruct (IH (mapSet key x m) (mapSet_NoDup key x m Hm)) as [A1 B1].
    split; auto. intros k. rewrite B1, mapSet_keys. intuition.
Qed.

(** X13.  The duplicate filter of [fullScan]: in its result no id occurs
    twice, and the ids are those of the input, none lost and none added. *)
Theorem uniqueById_keys {A} (key : A -> string) (l : list A) :
  NoDup (map key (uniqueById key l)) /\
  forall k, In k (map key (uniqueById key l)) <-> In k (map key l).
Proof.
  unfold uniqueById.
  destruct (uniqueFold_keys key l []) as [A1 B1]; [constructor|].
  split; auto. intros k. rewrite B1. simpl. intuition.
Qed.

Lemma mapSet_find {A} (key : A -> string) x m k :
  find (fun y => String.eqb (key y) k) (mapSet key x m)
  = if String.eqb (key x) k then Some x
    else find (fun y => String.eqb (key y) k) m.
Proof.
  induction m as [|y m IH]; simpl.
  - now destruct (String.eqb (key x) k).
  - destruct (String.eqb (key y) (key x)) eqn:E; simpl.
    + apply String.eqb_eq in E. rewrite E.
      now destruct (String.eqb (key x) k).
    + rewrite IH. destruct (String.eqb (key y) k) eqn:F; auto.
      destruct (String.eqb (key x) k) eqn:G; auto.
      apply String.eqb_eq in F, G. apply String.eqb_neq in E. congruence.
Qed.

Lemma find_app {A} (f : A -> bool) l1 l2 :
  find f (l1 ++ l2)
  = match find f l1 with Some x => Some x | None => find f l2 end.
Proof.
  induction l1 as [|x l1 IH]; simpl; auto. now destruct (f x).
Qed.

Lemma uniqueFold_find {A} (key : A -> string) k l : forall m,
  find (fun y => String.eqb (key y) k)
       (fold_left (fun m x => mapSet key x m) l m)
  = match find (fun y => String.eqb (key y) k) (rev l) with
    | Some x => Some x
    | None => find (fun y => String.eqb (key y) k) m
    end.
Proof.
  induction l as [|x l IH]; intros m; simpl; auto.
  rewrite IH, find_app, mapSet_find. simpl.
  destruct (find _ (rev l)); auto.
  now destruct (String.eqb (key x) k).
Qed.

(** X14.  Which duplicate survives: for every id the record kept is the last
    one of the input with that id (a later scan result overwrites an earlier
    one). *)
Theorem uniqueById_last_wins {A} (key : A -> string) (l : list A) (k : string) :
  find (fun y => String.eqb (key y) k) (uniqueById key l)
  = find (fun y => String.eqb (key y) k) (rev l).
Proof.
  unfold uniqueById. rewrite uniqueFold_find. simpl.
  now destruct (find _ (rev l)).
Qed.

Lemma scanAll_returns (drive : Drive) (universe : list string) :
  (forall f i, In (FolderItem i) (drive f) -> In i universe) ->
  ~ In ""%string universe ->
  forall folders allPhotos,
    (forall fc f, In fc folders -> folderIdOf fc = Some f -> In f universe) ->
    exists photos,
      scanAll (List.length universe + 2) drive folders allPhotos = Some photos.
Proof.
  intros Hk Hne. induction folders as [|fc rest IH]; intros allPhotos Hf; simpl.
  - eauto.
  - destruct (scanFolder_returns drive universe Hk Hne (depthOf fc)
                (List.length universe + 2) (folderIdOf fc) 0 [])
      as (p & v & E & _).
    + intros f Ef. apply (Hf fc f); auto. now left.
    + constructor.
    + intros x [].
    + destruct (folderIdOf fc); simpl; lia.
    + rewrite E. apply IH. intros fc' f Hin. apply Hf. now right.
Qed.

(** X15.  [fullScan] on a finite OneDrive: it returns, whatever cycles the
    folders form and however the configured folders overlap, and its result
    lists no photo twice. *)
Theorem fullScan_returns_unique (drive : Drive) (universe : list string)
        (folders : list FolderConfig) :
  (forall f i, In (FolderItem i) (drive f) -> In i universe) ->
  ~ In ""%string universe ->
  (forall fc f, In fc folders -> folderIdOf fc = Some f -> In f universe) ->
  exists photos,
    fullScan (List.length universe + 2) drive folders = Some photos /\
    NoDup photos.
Proof.
  intros Hk Hne Hf. unfold fullScan. destruct folders as [|fc rest].
  - exists []. split; [reflexivity|constructor].
  - destruct (scanAll_returns drive universe Hk Hne (fc :: rest) [] Hf)
      as (all & E).
    rewrite E. exists (uniqueById (fun i => i) all). split; [reflexivity|].
    destruct (uniqueFold_keys (fun i : string => i) all []) as [H _];
      [constructor|].
    unfold uniqueById. now rewrite map_id in H.
Qed.

End OneDriveFullScan.

Section MonitoredFolders.
Import OneDriveSync.

Lemma climb_sent parents ancestorId : forall steps cur visited,
  (snd (climb steps parents cur ancestorId visited) <= steps)%nat.
Proof.
  induction steps as [|steps IH]; intros cur visited; simpl; auto.
  destruct (String.eqb cur ""); simpl; [lia|].
  destruct (existsb _ visited); simpl; [lia|].
  destruct (match ancestorId with Some a => String.eqb cur a | None => false end);
    simpl; [lia|].
  destruct (parents cur) as [p| |]; simpl; try lia.
  destruct (String.eqb p ""); simpl; [lia|].
  specialize (IH p (cur :: visited)).
  destruct (climb steps parents p ancestorId (cur :: visited)). simpl in *. lia.
Qed.

Lemma climb_sound parents ancestorId : forall steps cur visited,
  fst (climb steps parents cur ancestorId visited) = true ->
  exists a, ancestorId = Some a /\ Ancestor parents cur a.
Proof.
  induction steps as [|steps IH]; intros cur visited; simpl; [discriminate|].
  destruct (String.eqb cur ""); simpl; [discriminate|].
  destruct (existsb _ visited); simpl; [discriminate|].
  destruct ancestorId as [a|].
  - destruct (String.eqb cur a) eqn:E.
    + intros _. apply String.eqb_eq in E. subst. exists a.
      split; [reflexivity|constructor].
    + destruct (parents cur) as [p| |] eqn:P; simpl; try discriminate.
      destruct (String.eqb p ""); simpl; [discriminate|].
      specialize (IH p (cur :: visited)).
      destruct (climb steps parents p (Some a) (cur :: visited)) as [found sent].
      simpl in *. intros H. destruct (IH H) as (a' & Ea & Ha).
      exists a'. split; auto. now apply (ancestor_up parents cur p a').
  - destruct (parents cur) as [p| |] eqn:P; simpl; try discriminate.
    destruct (String.eqb p ""); simpl; [discriminate|].
    specialize (IH p (cur :: visited)).
    destruct (climb steps parents p None (cur :: visited)) as [found sent].
    simpl in *. intros H. destruct (IH H) as (a' & Ea & _). discriminate.
Qed.

(** X16.  [isDescendantOf] is sound and bounded: it sends at most 20
    requests, whatever the parent references say (also when they form a
    cycle), and it answers true only when the given ancestor is the folder
    itself or lies on the chain of its parents. *)
Theorem isDescendantOf_sound (parents : string -> Lookup) (folderId : string)
        (ancestorId : option string) :
  (snd (isDescendantOf parents folderId ancestorId) <= 20)%nat /\
  (fst (isDescendantOf parents folderId ancestorId) = true ->
   exists a, ancestorId = Some a /\ Ancestor parents folderId a).
Proof.
  unfold isDescendantOf. split; [apply climb_sent|apply climb_sound].
Qed.

Lemma isPhotoInMonitoredFolders_root_help
      (folders : list FolderConfig) (parents : string -> Lookup)
      (parentId : option string) :
  folders <> [] ->
  isPhotoInMonitoredFolders folders parents parentId = true ->
  exists fc m, In fc folders /\ fc_id fc = Some m.
Proof.
  intros Hne H. unfold isPhotoInMonitoredFolders in H.
  destruct folders as [|fc0 rest]; [congruence|].
  destruct parentId as [parent|]; [|discriminate].
  destruct (String.eqb parent ""); [discriminate|].
  apply existsb_exists in H as (fc & Hfc & Hok).
  apply orb_true_iff in Hok as [Hok|Hok].
  - destruct (fc_id fc) as [m|] eqn:E; [|discriminate]. eauto.
  - apply climb_sound in Hok as (a & Ea & _). eauto.
Qed.

(** X17.  The incremental filter accepts only what is monitored: when
    folders are configured, [isPhotoInMonitoredFolders] answers true only
    for an item whose parent is a configured folder or lies below one. *)
Theorem isPhotoInMonitoredFolders_sound
        (folders : list FolderConfig) (parents : string -> Lookup)
        (parentId : option string) :
  folders <> [] ->
  isPhotoInMonitoredFolders folders parents parentId = true ->
  exists parent fc m,
    parentId = Some parent /\ In fc folders /\ fc_id fc = Some m /\
    Ancestor parents parent m.
Proof.
  intros Hne H. unfold isPhotoInMonitoredFolders in H.
  destruct folders as [|fc0 rest]; [congruence|].
  destruct parentId as [parent|]; [|discriminate].
  destruct (String.eqb parent ""); [discriminate|].
  apply existsb_exists in H as (fc & Hfc & Hok).
  apply orb_true_iff in Hok as [Hok|Hok].
  - destruct (fc_id fc) as [m|] eqn:E; [|discriminate].
    apply String.eqb_eq in Hok. subst m.
    exists parent, fc, parent. repeat split; auto. constructor.
  - apply climb_sound in Hok as (a & Ea & Ha).
    exists parent, fc, a. auto.
Qed.

Lemma isPhotoInMonitoredFolders_sound_witness :
  exists parent fc m,
    Some "sub"%string = Some parent /\
    In fc [mkFolderConfig (Some "album"%string) None] /\
    fc_id fc = Some m /\
    Ancestor (fun f => if String.eqb f "sub" then ParentIs "album"%string
                       else NoParent) parent m.
Proof.
  apply isPhotoInMonitoredFolders_sound; [discriminate|reflexivity].
Defined.

(** X18.  A folder configured as the root (no id) never matches in the
    incremental filter: when every configured folder is the root, each
    changed item is turned away, whatever its parent. *)
Theorem isPhotoInMonitoredFolders_root_only
        (folders : list FolderConfig) (parents : string -> Lookup)
        (parentId : option string) :
  folders <> [] ->
  (forall fc, In fc folders -> fc_id fc = None) ->
  isPhotoInMonitoredFolders folders parents parentId = false.
Proof.
  intros Hne Hroot.
  destruct (isPhotoInMonitoredFolders folders parents parentId) eqn:E; auto.
  destruct (isPhotoInMonitoredFolders_root_help folders parents parentId Hne E)
    as (fc & m & Hfc & Hm).
  rewrite (Hroot fc Hfc) in Hm. discriminate.
Qed.

Lemma isPhotoInMonitoredFolders_root_only_witness :
  isPhotoInMonitoredFolders
    [mkFolderConfig None (Some 2)]
    (fun _ => ParentIs "root-folder"%string) (Some "sub"%string)
  = false.
Proof.
  apply isPhotoInMonitoredFolders_root_only; [discriminate|].
  intros fc [<-|[]]. reflexivity.
Defined.

End MonitoredFolders.

(** ** The OneDrive provider: incremental changes *)

Section OneDriveChanges.
Import OneDriveSync.




End OneDriveChanges.

(** ** The connection state and the API client *)

Section Connection.
Import ConnectionState.
#[local] Arguments Z.mul : simpl never.
#[local] Arguments Z.pow : simpl never.
#[local] Arguments Z.min : simpl never.

Lemma step_invariant (s : State) (e : Event) :
  maxBackoffDelay s = 300000 ->
  1000 <= backoffDelay s <= 300000 ->
  0 <= consecutiveFailures s <= failureCount s ->
  (isOnline s = false <-> 3 <= consecutiveFailures s) ->
  maxBackoffDelay (step s e) = 300000 /\
  1000 <= backoffDelay (step s e) <= 300000 /\
  0 <= consecutiveFailures (step s e) <= failureCount (step s e) /\
  (isOnline (step s e) = false <-> 3 <= consecutiveFailures (step s e)).
Proof.
  intros Hm Hb Hc Ho. destruct e as [|now]; simpl.
  - split; [assumption|]. split; [rewrite Hm; lia|]. split; [lia|].
    destruct (consecutiveFailures s + 1 >=? 3) eqn:E; simpl.
    + assert (3 <= consecutiveFailures s + 1).
      { apply Z.geb_le in E. lia. }
      destruct (isOnline s); simpl; split; auto.
    + assert (consecutiveFailures s + 1 < 3).
      { rewrite Z.geb_leb in E. apply Z.leb_gt in E. lia. }
      split; intros H1; [|lia].
      apply Ho in H1. lia.
  - split; [assumption|]. split; [lia|]. split; [lia|].
    split; [discriminate|lia].
Qed.

Lemma run_invariant (events : list Event) : forall s,
  maxBackoffDelay s = 300000 ->
  1000 <= backoffDelay s <= 300000 ->
  0 <= consecutiveFailures s <= failureCount s ->
  (isOnline s = false <-> 3 <= consecutiveFailures s) ->
  maxBackoffDelay (run events s) = 300000 /\
  1000 <= backoffDelay (run events s) <= 300000 /\
  0 <= consecutiveFailures (run events s) <= failureCount (run events s) /\
  (isOnline (run events s) = false <-> 3 <= consecutiveFailures (run events s)).
Proof.
  induction events as [|e events IH]; intros s Hm Hb Hc Ho.
  - simpl. auto.
  - simpl. destruct (step_invariant s e Hm Hb Hc Ho) as (A & B & C & D).
    apply IH; auto.
Qed.

(** X19.  The connection state, whatever failures and successes are
    reported to it from its construction on: the back-off delay stays
    between 1 s and 5 min, the count of consecutive failures never exceeds
    the count of all failures, and the state is offline exactly when three
    or more failures came in a row. *)
Theorem connection_offline_iff_three_failures (now : Z)
        (events : list Event) :
  let s := run events (init now) in
  1000 <= backoffDelay s <= 300000 /\
  0 <= consecutiveFailures s <= failureCount s /\
  (isOnline s = false <-> 3 <= consecutiveFailures s).
Proof.
  destruct (run_invariant events (init now)) as (_ & B & C & D);
    simpl; try lia; auto.
Qed.

Lemma failures_after_success (k : nat) : forall s,
  maxBackoffDelay s = 300000 ->
  backoffDelay s = 1000 -> consecutiveFailures s = 0 -> isOnline s = true ->
  let s' := run (repeat Failure k) s in
  backoffDelay s' = Z.min (1000 * 2 ^ Z.of_nat k) 300000 /\
  consecutiveFailures s' = Z.of_nat k /\
  isOnline s' = (Z.of_nat k <? 3) /\
  maxBackoffDelay s' = 300000.
Proof.
  induction k as [|k IH]; intros s Hm Hb Hc Ho.
  - simpl. rewrite Hb, Hc, Ho. repeat split; auto.
  - cbv zeta. change (repeat Failure (S k)) with (Failure :: repeat Failure k).
    rewrite repeat_cons. unfold run in *. rewrite fold_left_app.
    specialize (IH s Hm Hb Hc Ho). cbv zeta in IH.
    destruct IH as (A & B & C & D).
    set (s1 := fold_left step (repeat Failure k) s) in *.
    replace (Z.of_nat (S k)) with (Z.of_nat k + 1) by lia.
    simpl. rewrite A, B, C, D.
    rewrite Z.pow_add_r by lia. change (2 ^ 1) with 2.
    assert (0 < 2 ^ Z.of_nat k) by (apply Z.pow_pos_nonneg; lia).
    split; [lia|]. split; [reflexivity|]. split; [|reflexivity].
    destruct (Z.of_nat k + 1 >=? 3) eqn:E1;
      destruct (Z.of_nat k <? 3) eqn:E2;
      destruct (Z.of_nat k + 1 <? 3) eqn:E3; simpl; auto;
      rewrite ?Z.geb_leb in *;
      rewrite ?Z.leb_le, ?Z.leb_gt, ?Z.ltb_lt, ?Z.ltb_ge in *; lia.
Qed.

(** X20.  Exponential back-off: once a success was reported, [k] failures
    in a row leave a back-off delay of min(1000 * 2^k, 300000) ms (1 s, 2 s,
    4 s, ... up to 5 min), and the state is online as long as [k] is below
    three. *)
Theorem backoff_after_failures (t0 now : Z) (before : list Event)
        (k : nat) :
  let s := run (before ++ Success now :: repeat Failure k) (init t0) in
  backoffDelay s = Z.min (1000 * 2 ^ Z.of_nat k) 300000 /\
  consecutiveFailures s = Z.of_nat k /\
  isOnline s = (Z.of_nat k <? 3).
Proof.
  cbv zeta. unfold run. rewrite fold_left_app. simpl.
  destruct (run_invariant before (init t0)) as (M & _);
    simpl; try lia; auto.
  unfold run in M.
  destruct (failures_after_success k
              (fst (markSuccess now (fold_left step before (init t0)))))
    as (A & B & C & _); auto.
Qed.

End Connection.

Section ApiClient.
Import ConnectionState GDriveClient.
#[local] Arguments Z.mul : simpl never.
#[local] Arguments Z.min : simpl never.

Lemma calls_waitsBefore {R} attempt (t : Try R) s :
  calls (waitsBefore attempt t s) = [] /\
  retryDelays (waitsBefore attempt t s) = [].
Proof.
  unfold waitsBefore.
  destruct (negb (shouldRetry (clockCheck t) s) && (attempt >? 1));
    [destruct (negb (shouldRetry (clockWait t) s))|]; simpl; auto.
Qed.

Lemma markFailure_offline (s : State) :
  3 <= consecutiveFailures (fst (markFailure s)) ->
  isOnline (fst (markFailure s)) = false.
Proof.
  simpl. intros H.
  assert (E : (consecutiveFailures s + 1 >=? 3) = true).
  { apply Z.geb_le. lia. }
  rewrite E. destruct (isOnline s); reflexivity.
Qed.

Lemma callLoop_outcome {R} (tries : Z -> Try R) (retries : Z) :
  forall n attempt s,
    1 <= attempt <= retries ->
    Z.of_nat n = retries - attempt + 1 ->
    forall out s' effects,
      callLoop n attempt retries tries s = (out, s', effects) ->
      (forall r,
         out = Retry.Resolved r <->
         exists k, attempt <= k <= retries /\
                   answer (tries k) = Result r /\
                   forall j, attempt <= j < k ->
                     exists status,
                       answer (tries j) = Error status /\
                       isNonRetryableError status = false) /\
      out <> Retry.FellThrough /\
      (List.length (calls effects) <= n)%nat /\
      Forall (fun d => 2000 <= d <= 10000) (retryDelays effects) /\
      (forall r, out = Retry.Resolved r ->
         isOnline s' = true /\ consecutiveFailures s' = 0 /\
         backoffDelay s' = 1000) /\
      (out = Retry.Threw ->
         consecutiveFailures s'
         = consecutiveFailures s + Z.of_nat (List.length (calls effects)) /\
         (3 <= consecutiveFailures s' -> isOnline s' = false)).
Proof.
  induction n as [|n IH]; intros attempt s Hle Hn out s' effects; [lia|].
  cbn [callLoop].
  destruct (calls_waitsBefore attempt (tries attempt) s) as [W1 W2].
  destruct (answer (tries attempt)) as [value|status] eqn:G.
  - intros H. inversion H; subst; clear H.
    unfold calls, retryDelays in *. rewrite !flat_map_app, W1, W2. simpl.
    split; [|split; [discriminate|split; [lia|split; [constructor|]]]].
    + intros r. split.
      * intros H. inversion H; subst. exists attempt.
        split; [lia|]. split; [assumption|]. intros j Hj. lia.
      * intros (k & Hk & Hg & Hall).
        destruct (Z.eq_dec k attempt) as [->|Hne]; [congruence|].
        destruct (Hall attempt) as (st & E & _); [lia|]. congruence.
    + split; [auto|discriminate].
  - destruct (isNonRetryableError status) eqn:N;
      [|destruct (attempt =? retries) eqn:E].
    + intros H. inversion H; subst; clear H.
      unfold calls, retryDelays in *. rewrite !flat_map_app, W1, W2.
      split; [|split; [discriminate|split; [simpl; lia|
                                            split; [constructor|]]]].
      * intros r. split; [discriminate|].
        intros (k & Hk & Hg & Hall).
        destruct (Z.eq_dec k attempt) as [->|Hne]; [congruence|].
        destruct (Hall attempt) as (st & E & E'); [lia|]. congruence.
      * split; [discriminate|]. intros _.
        split; [simpl; lia|]. apply markFailure_offline.
    + apply Z.eqb_eq in E.
      intros H. inversion H; subst; clear H.
      unfold calls, retryDelays in *. rewrite !flat_map_app, W1, W2.
      split; [|split; [discriminate|split; [simpl; lia|
                                            split; [constructor|]]]].
      * intros r. split; [discriminate|].
        intros (k & Hk & Hg & Hall). assert (k = retries) by lia.
        congruence.
      * split; [discriminate|]. intros _.
        split; [simpl; lia|]. apply markFailure_offline.
    + apply Z.eqb_neq in E.
      destruct (callLoop n (attempt + 1) retries tries (fst (markFailure s)))
        as [[out1 s1] effects1] eqn:L.
      intros H. inversion H; subst; clear H.
      destruct (IH (attempt + 1) (fst (markFailure s))
                   ltac:(lia) ltac:(lia) _ _ _ L)
        as (A & B & C & D & F & T).
      unfold calls, retryDelays in *. rewrite !flat_map_app, W1, W2.
      cbn [flat_map app List.length].
      split; [|split; [assumption|split; [simpl; lia|split]]].
      * intros r. rewrite A. split.
        -- intros (k & Hk & Hg & Hall). exists k.
           split; [lia|]. split; [assumption|].
           intros j Hj. destruct (Z.eq_dec j attempt) as [->|].
           ++ exists status. auto.
           ++ apply Hall. lia.
        -- intros (k & Hk & Hg & Hall).
           assert (k <> attempt) by congruence.
           exists k. split; [lia|]. split; [assumption|].
           intros j Hj. apply Hall. lia.
      * simpl. constructor; auto. lia.
      * split; [assumption|]. intros Ht. destruct (T Ht) as [T1 T2].
        split; [|assumption]. rewrite T1. simpl. lia.
Qed.





Lemma callLoop_all_fail {R} (tries : Z -> Try R) (retries : Z) :
  (forall k, 1 <= k <= retries ->
     exists status, answer (tries k) = Error status /\
                    isNonRetryableError status = false) ->
  forall n attempt s,
    1 <= attempt <= retries ->
    Z.of_nat n = retries - attempt + 1 ->
    fst (fst (callLoop n attempt retries tries s)) = Retry.Threw /\
    List.length (calls (snd (callLoop n attempt retries tries s))) = n.
Proof.
  intros Hall. induction n as [|n IH]; intros attempt s Hle Hn; [lia|].
  cbn [callLoop].
  destruct (calls_waitsBefore attempt (tries attempt) s) as [W1 _].
  destruct (Hall attempt Hle) as (status & G & N). rewrite G, N.
  destruct (attempt =? retries) eqn:E.
  - apply Z.eqb_eq in E. simpl. split; [reflexivity|].
    unfold calls in *. rewrite flat_map_app, W1. simpl. f_equal. lia.
  - apply Z.eqb_neq in E.
    destruct (IH (attempt + 1) (fst (markFailure s))) as [A B]; try lia.
    destruct (callLoop n (attempt + 1) retries tries (fst (markFailure s)))
      as [[out1 s1] effects1].
    simpl in *. split; [assumption|].
    unfold calls in *. rewrite flat_map_app, W1. simpl. f_equal. exact B.
Qed.

(** X22.  A call that uses up its attempts: when every one of the [retries]
    attempts fails with an error that may be retried, [callAPI] throws
    after exactly [retries] calls of [fn], each of which counted as a
    consecutive failure; with three attempts or more (the default is three)
    the connection is offline afterwards. *)
Theorem callAPI_exhausted_goes_offline {R} (retries : Z)
        (tries : Z -> Try R) (s : State) :
  1 <= retries ->
  0 <= consecutiveFailures s ->
  (forall k, 1 <= k <= retries ->
     exists status, answer (tries k) = Error status /\
                    isNonRetryableError status = false) ->
  let '(out, s', effects) := callAPI retries tries s in
  out = Retry.Threw /\
  Z.of_nat (List.length (calls effects)) = retries /\
  consecutiveFailures s' = consecutiveFailures s + retries /\
  (3 <= retries -> isOnline s' = false).
Proof.
  intros H Hc Hall. unfold callAPI.
  destruct (callLoop_all_fail tries retries Hall (Z.to_nat retries) 1 s)
    as [A B]; try lia.
  destruct (callLoop (Z.to_nat retries) 1 retries tries s)
    as [[out s'] effects] eqn:L.
  destruct (callLoop_outcome tries retries (Z.to_nat retries) 1 s
              ltac:(lia) ltac:(lia) _ _ _ L) as (_ & _ & _ & _ & _ & T).
  simpl in A, B. destruct (T A) as [T1 T2].
  split; [assumption|]. split; [lia|]. split; [lia|].
  intros H3. apply T2. lia.
Qed.

Lemma callAPI_exhausted_goes_offline_witness :
  isOnline (snd (fst (callAPI 3
                        (fun _ => mkTry (@Error unit None) 0 0 0)
                        (init 0))))
  = false.
Proof.
  pose proof (callAPI_exhausted_goes_offline 3
                (fun _ => mkTry (@Error unit None) 0 0 0) (init 0)) as H.
  destruct (callAPI 3 _ (init 0)) as [[out s'] effects].
  destruct H as (_ & _ & _ & A).
  - lia.
  - simpl. lia.
  - intros k _. exists None. split; reflexivity.
  - simpl. apply A. lia.
Defined.

End ApiClient.

(** ** The adaptive cache manager of the first design *)

Section StreamLimit.
Import CacheManagerV1.
#[local] Arguments Z.mul : simpl never.

Lemma onEvent_settled maxBytes timeout (st : Stream) (e : StreamEvent) :
  promise st <> Pending ->
  promise (onEvent maxBytes timeout st e) = promise st.
Proof.
  intros H. destruct e as [n| | | |]; simpl.
  - destruct (downloadedBytes st + Z.of_N n >? maxBytes); simpl; auto.
    destruct (promise st); auto. contradiction.
  - destruct (promise st); auto. contradiction.
  - destruct (promise st); auto. contradiction.
  - destruct (promise st); auto. contradiction.
  - destruct (timeout =? 0); simpl; auto.
    destruct (promise st); auto. contradiction.
Qed.

Lemma settled_stays maxBytes timeout (events : list StreamEvent) :
  forall st, promise st <> Pending ->
  promise (fold_left (onEvent maxBytes timeout) events st) = promise st.
Proof.
  induction events as [|e events IH]; intros st H; simpl; [reflexivity|].
  rewrite IH; rewrite onEvent_settled; auto.
Qed.

Lemma bytesOf_nonneg (chunks : list N) : 0 <= bytesOf chunks.
Proof. induction chunks as [|n chunks IH]; simpl; lia. Qed.

Lemma stream_fulfilled maxBytes timeout :
  timeout <> 0 ->
  forall events received,
    received <= maxBytes ->
    promise (fold_left (onEvent maxBytes timeout) events
                       (mkStream Pending received)) = Fulfilled <->
    exists chunks rest,
      events = map Chunk chunks ++ Finish :: rest /\
      received + bytesOf chunks <= maxBytes.
Proof.
  intros Ht. induction events as [|e events IH]; intros received Hr.
  - simpl. split; [discriminate|].
    intros (chunks & rest & E & _). destruct chunks; discriminate.
  - simpl. destruct e as [n| | | |].
    + simpl. destruct (received + Z.of_N n >? maxBytes) eqn:G.
      * rewrite settled_stays by (simpl; discriminate). simpl.
        split; [discriminate|].
        intros (chunks & rest & E & Hb).
        destruct chunks as [|m chunks]; [discriminate|].
        simpl in E, Hb. inversion E; subst.
        pose proof (bytesOf_nonneg chunks).
        apply Z.gtb_lt in G. lia.
      * assert (received + Z.of_N n <= maxBytes).
        { rewrite Z.gtb_ltb in G. apply Z.ltb_ge in G. lia. }
        rewrite IH by assumption. split.
        -- intros (chunks & rest & E & Hb). exists (n :: chunks), rest.
           simpl. split; [now rewrite E|lia].
        -- intros (chunks & rest & E & Hb).
           destruct chunks as [|m chunks]; [discriminate|].
           simpl in E, Hb. inversion E; subst.
           exists chunks, rest. split; [reflexivity|lia].
    + rewrite settled_stays by (simpl; discriminate). simpl.
      split; [discriminate|].
      intros (chunks & rest & E & _). destruct chunks; discriminate.
    + rewrite settled_stays by (simpl; discriminate). simpl.
      split; [discriminate|].
      intros (chunks & rest & E & _). destruct chunks; discriminate.
    + rewrite settled_stays by (simpl; discriminate). simpl.
      split; [|reflexivity]. intros _. exists [], events.
      split; [reflexivity|]. simpl. lia.
    + unfold onEvent at 2.
      destruct (timeout =? 0) eqn:G; [apply Z.eqb_eq in G; contradiction|].
      rewrite settled_stays by (simpl; discriminate). simpl.
      split; [discriminate|].
      intros (chunks & rest & E & _). destruct chunks; discriminate.
Qed.

(** X23.  The size limit of [streamDownload]: with a timer armed and a
    limit that is not negative, the promise fulfils exactly when the write
    stream finishes after nothing but data chunks whose lengths add up to
    at most maxSizeMB * 1024 * 1024 bytes; an error, the timer or one byte
    too many before the finish makes it reject or leaves it pending. *)
Theorem streamDownload_fulfils_within_limit (maxSizeMB timeout : Z)
        (events : list StreamEvent) :
  0 <= maxSizeMB ->
  timeout <> 0 ->
  (streamDownload maxSizeMB timeout events = Fulfilled <->
   exists chunks rest,
     events = map Chunk chunks ++ Finish :: rest /\
     bytesOf chunks <= maxSizeMB * 1024 * 1024).
Proof.
  intros Hm Ht. unfold streamDownload.
  rewrite (stream_fulfilled (maxSizeMB * 1024 * 1024) timeout Ht events 0)
    by lia.
  split; intros (chunks & rest & E & Hb); exists chunks, rest;
    (split; [assumption|lia]).
Qed.

Lemma streamDownload_fulfils_within_limit_witness :
  streamDownload 50 60000 [Chunk 65536; Chunk 1024; Finish] = Fulfilled.
Proof.
  apply (streamDownload_fulfils_within_limit 50 60000); [lia|lia|].
  exists [65536%N; 1024%N], []. split; [reflexivity|].
  vm_compute. discriminate.
Defined.

End StreamLimit.

Section MetricsWindow.
Import CacheManagerV1.

Lemma skipn_S_tl {A} (k : nat) : forall l : list A,
  skipn (S k) l = tl (skipn k l).
Proof.
  induction k as [|k IH]; intros [|x l]; simpl; auto.
  rewrite <- IH. reflexivity.
Qed.

Lemma window_push (ds : list Z) (d : Z) :
  (let pushed := skipn (List.length ds - 10) ds ++ [d] in
   if (10 <? List.length pushed)%nat then tl pushed else pushed)
  = skipn (List.length (ds ++ [d]) - 10) (ds ++ [d]).
Proof.
  cbv zeta. rewrite !length_app, length_skipn. simpl.
  destruct (Nat.le_gt_cases 10 (List.length ds)) as [H|H].
  - replace (10 <? List.length ds - (List.length ds - 10) + 1)%nat
      with true by (symmetry; apply Nat.ltb_lt; lia).
    replace (List.length ds + 1 - 10)%nat
      with (S (List.length ds - 10)) by lia.
    rewrite skipn_S_tl, skipn_app.
    replace (List.length ds - 10 - List.length ds)%nat with 0%nat by lia.
    reflexivity.
  - replace (10 <? List.length ds - (List.length ds - 10) + 1)%nat
      with false by (symmetry; apply Nat.ltb_ge; lia).
    replace (List.length ds - 10)%nat with 0%nat by lia.
    replace (List.length ds + 1 - 10)%nat with 0%nat by lia.
    reflexivity.
Qed.

(** X24.  The window of [updateMetrics]: after any number of ticks the
    metrics hold the durations of the last ten of them, oldest first, and
    the average is taken over exactly those. *)
Theorem updateMetrics_keeps_last_ten (durations : list Z) :
  let m := fold_left (fun m d => updateMetrics d m) durations
                     initialMetrics in
  recentDownloads m
  = skipn (List.length durations - 10) durations /\
  (durations <> [] ->
   avgSum m = fold_left Z.add (recentDownloads m) 0 /\
   avgCount m = Z.of_nat (List.length (recentDownloads m)) /\
   1 <= avgCount m <= 10).
Proof.
  cbv zeta. induction durations as [|d durations IH] using rev_ind.
  - simpl. split; [reflexivity|]. intros H. contradiction.
  - rewrite fold_left_app. simpl. destruct IH as [IH _].
    set (m := fold_left (fun m d => updateMetrics d m) durations
                        initialMetrics) in *.
    assert (W : recentDownloads (updateMetrics d m)
                = skipn (List.length (durations ++ [d]) - 10)
                        (durations ++ [d])).
    { unfold updateMetrics. simpl. rewrite IH. apply window_push. }
    assert (C : avgCount (updateMetrics d m)
                = Z.of_nat (List.length (recentDownloads (updateMetrics d m))))
      by reflexivity.
    assert (B : 1 <= avgCount (updateMetrics d m) <= 10).
    { rewrite C, W, length_skipn, length_app. simpl. lia. }
    split; [exact W|]. intros _.
    split; [reflexivity|]. split; [reflexivity|exact B].
Qed.

End MetricsWindow.

Section EvictOld.
Import PhotoDatabase CacheManagerV1.

Lemma insertRow_In le r l x : In x (insertRow le r l) <-> x = r \/ In x l.
Proof.
  induction l as [|q l IH]; simpl.
  - intuition.
  - destruct (le r q); simpl; [intuition|]. rewrite IH. intuition.
Qed.

Lemma orderRows_In le l x : In x (orderRows le l) <-> In x l.
Proof.
  induction l as [|r l IH]; simpl; [tauto|].
  rewrite insertRow_In, IH. intuition.
Qed.

Lemma firstn_In_inv {A} (n : nat) (l : list A) x :
  In x (firstn n l) -> In x l.
Proof.
  intros H. rewrite <- (firstn_skipn n l). apply in_or_app. now left.
Qed.

Lemma clearSelected_map photos : forall d,
  clearSelected photos d =
  map (fun r => if existsb (String.eqb (rowId r)) (map rowId photos)
                then onPhoto clear_cache_columns r else r) d.
Proof.
  unfold clearSelected.
  induction photos as [|q photos IH]; intros d; simpl.
  - now rewrite map_id.
  - rewrite IH, map_map. apply map_ext. intros r.
    destruct (String.eqb (rowId r) (rowId q)) eqn:E; simpl.
    + change (rowId (onPhoto clear_cache_columns r)) with (rowId r).
      now destruct (existsb _ _).
    + reflexivity.
Qed.

Lemma rows_inj d p q :
  primary_key d -> In p d -> In q d -> rowId p = rowId q -> p = q.
Proof.
  unfold primary_key. induction d as [|x d IH]; simpl; intros Hn Hp Hq E.
  - contradiction.
  - apply NoDup_cons_iff in Hn as [Hx Hn].
    destruct Hp as [->|Hp], Hq as [->|Hq]; auto.
    + exfalso. apply Hx. rewrite E. now apply in_map.
    + exfalso. apply Hx. rewrite <- E. now apply in_map.
Qed.

Lemma photosToEvict_spec now d r :
  In r (photosToEvict now d) ->
  In r d /\ isCached (photo r) = true /\
  exists v, last_viewed_at (photo r) = Some v /\ v < now - 600000.
Proof.
  unfold photosToEvict. intros H.
  apply firstn_In_inv, orderRows_In, filter_In in H as [Hin He].
  unfold evictable in He. apply andb_true_iff in He as [Hc Hv].
  split; [assumption|]. split; [assumption|].
  destruct (last_viewed_at (photo r)) as [v|]; [|discriminate].
  exists v. split; [reflexivity|]. apply Z.ltb_lt in Hv. lia.
Qed.

Lemma unlinkEach_other unlink_ok paths : forall fs path,
  ~ In path paths -> unlinkEach unlink_ok paths fs path = fs path.
Proof.
  unfold unlinkEach.
  induction paths as [|q paths IH]; intros fs path Hn; simpl; auto.
  rewrite IH by (intros H; apply Hn; now right).
  destruct (unlink_ok q); auto. unfold CacheManager.removeFile.
  destruct (String.eqb path q) eqn:E; auto.
  apply String.eqb_eq in E. subst. exfalso. apply Hn. now left.
Qed.

Lemma in_rowPaths photos path :
  In path (pathsOf photos) ->
  exists r, In r photos /\ cached_path (photo r) = Some path.
Proof.
  unfold pathsOf, CacheManager.pathsOf.
  intros H. apply in_flat_map in H as (p & Hp & Hin).
  apply in_map_iff in Hp as (r & <- & Hr).
  exists r. split; [assumption|].
  destruct (cached_path (photo r)); simpl in Hin; [|contradiction].
  destruct Hin as [->|[]]. reflexivity.
Qed.

(** X25.  What [evictOldPhotos] takes: under the primary key, a row either
    stays as it is or loses its cached_path and cached_size_bytes, and the
    latter happens only to rows that were cached and last viewed more than
    ten minutes before the call, so a photo that was never viewed is never
    evicted; at most 20 rows are evicted per call; a file leaves the cache
    directory only if it is the cache file of such a row; and when the
    transaction fails the table is as before. *)
Theorem evictOldPhotos_spares_unviewed_and_recent
        (now : Z) (unlink_ok : string -> bool) (commit_ok : bool)
        (d : Table) (fs : CacheManager.Files) :
  primary_key d ->
  let '(out, d', fs') := evictOldPhotos now unlink_ok commit_ok d fs in
  Forall2 (fun r r' =>
             r' = r \/
             (r' = onPhoto clear_cache_columns r /\
              isCached (photo r) = true /\
              exists v, last_viewed_at (photo r) = Some v /\
                        v < now - 600000))
          d d' /\
  match out with
  | Retry.Resolved n => 0 <= n <= 20
  | Retry.Threw => d' = d
  | Retry.FellThrough => False
  end /\
  forall path,
    fs' path <> fs path ->
    exists r v, In r d /\ cached_path (photo r) = Some path /\
                last_viewed_at (photo r) = Some v /\ v < now - 600000.
Proof.
  intros Hpk. unfold evictOldPhotos.
  assert (Hsame : Forall2 (fun r r' : Row =>
             r' = r \/
             (r' = onPhoto clear_cache_columns r /\
              isCached (photo r) = true /\
              exists v, last_viewed_at (photo r) = Some v /\
                        v < now - 600000)) d d).
  { rewrite <- (map_id d) at 2. apply Forall2_map_self. intros r _.
    now left. }
  assert (Hlen : (List.length (photosToEvict now d) <= 20)%nat).
  { unfold photosToEvict. rewrite length_firstn. lia. }
  assert (Hfiles : forall path,
             unlinkEach unlink_ok (pathsOf (photosToEvict now d)) fs path
             <> fs path ->
             exists r v, In r d /\ cached_path (photo r) = Some path /\
                         last_viewed_at (photo r) = Some v /\
                         v < now - 600000).
  { intros path Hne.
    destruct (in_dec string_dec path (pathsOf (photosToEvict now d)))
      as [Hin|Hn].
    - apply in_rowPaths in Hin as (r & Hr & Hp).
      apply photosToEvict_spec in Hr as (Hd & _ & v & Hv & Hlt).
      exists r, v. auto.
    - exfalso. apply Hne. now apply unlinkEach_other. }
  destruct (photosToEvict now d) as [|p photos] eqn:Sel.
  - split; [assumption|]. split; [lia|]. intros path H. now contradiction H.
  - destruct commit_ok.
    + split; [|split; [simpl in *; lia|assumption]].
      rewrite clearSelected_map. apply Forall2_map_self. intros r Hr.
      destruct (existsb (String.eqb (rowId r)) (map rowId (p :: photos)))
        eqn:E; [|now left].
      right. split; [reflexivity|].
      apply existsb_exists in E as (k & Hk & E).
      apply String.eqb_eq in E.
      apply in_map_iff in Hk as (q & Hq & Hin).
      rewrite <- Sel in Hin.
      apply photosToEvict_spec in Hin as (Hd & Hc & Hv).
      assert (q = r) by (apply (rows_inj d); auto; congruence).
      subst q. auto.
    + split; [assumption|]. split; [reflexivity|assumption].
Qed.

Lemma evictOldPhotos_spares_unviewed_and_recent_witness :
  Forall2 (fun r r' =>
             r' = r \/
             (r' = onPhoto clear_cache_columns r /\
              isCached (photo r) = true /\
              exists v, last_viewed_at (photo r) = Some v /\
                        v < 1000000 - 600000))
          Scenario.album
          (snd (fst (evictOldPhotos 1000000 (fun _ => true) true
                                    Scenario.album (fun _ => None)))).
Proof.
  pose proof (evictOldPhotos_spares_unviewed_and_recent
                1000000 (fun _ => true) true Scenario.album
                (fun _ => None)) as H.
  destruct (evictOldPhotos 1000000 (fun _ => true) true Scenario.album
                           (fun _ => None)) as [[out d'] fs'].
  simpl. apply H. apply distinct_NoDup. reflexivity.
Defined.

End EvictOld.

Section DownloadAndCache.
Import PhotoDatabase CacheManagerV1.
#[local] Arguments Z.mul : simpl never.
#[local] Arguments streamDownload : simpl never.
#[local] Arguments Retry.downloadWithRetry : simpl never.
#[local] Arguments ImagePipeline.isValidImage : simpl never.

Lemma tempPath_neq_finalPath cfg i : tempPath cfg i <> finalPath cfg i.
Proof.
  unfold tempPath, finalPath. intros H.
  apply append_cancel_l in H. simpl in H. inversion H as [H1].
  apply append_cancel_l in H1. discriminate.
Qed.

Lemma in_updatePhoto i f d r' :
  In r' (updatePhoto i f d) ->
  exists r, In r d /\
            r' = (if String.eqb (rowId r) i then f r else r).
Proof.
  unfold updatePhoto. intros H. apply in_map_iff in H as (r & E & Hr).
  exists r. auto.
Qed.

Lemma failedDownload_marks src i temp final d fs e d' fs' :
  failedDownload src i temp final d fs = (e, d', fs') ->
  (e = Returned false None /\ d' = updatePhoto i problematicFields d /\
   fs' = cleanupFailedDownload src temp final fs) \/
  (e = Rejects /\ d' = d /\ mark_ok src = false).
Proof.
  unfold failedDownload. destruct (mark_ok src); intros H; inversion H; auto.
Qed.

(** X26.  A download reported as a success: the JPEG of the photo is in the
    cache directory under [<id>.jpg] with the size that was returned, which
    is at least 1 KiB; the temporary file is gone; the image passed
    [isValidImage]; the stream finished within 50 MiB; and every row with
    the id of the photo records that path, that size and the time of the
    update. *)
Theorem downloadAndCachePhoto_success_recorded
        (cfg : Config) (src : Source) (i : string) (d : Table)
        (fs : CacheManager.Files) size d' fs' :
  downloadAndCachePhoto cfg src i d fs = (Returned true size, d', fs') ->
  exists bytes m,
    size = Some bytes /\ 1024 <= bytes /\
    fs' (finalPath cfg i) = Some bytes /\
    fs' (tempPath cfg i) = None /\
    metadata src = Some m /\ ImagePipeline.isValidImage m = true /\
    (exists chunks rest,
       stream src = map Chunk chunks ++ Finish :: rest /\
       bytesOf chunks <= 50 * 1024 * 1024) /\
    forall r, In r d' -> rowId r = i ->
      cached_path (photo r) = Some (finalPath cfg i) /\
      cached_size_bytes (photo r) = Some bytes /\
      cached_at (photo r) = Some (clock src).
Proof.
  unfold downloadAndCachePhoto.
  destruct (fst (Retry.downloadWithRetry 3 (get src))) as [response| |];
    try (intros H; apply failedDownload_marks in H as [(H & _)|(H & _)];
         discriminate).
  destruct (streamDownload 50 60000 (stream src)) eqn:S;
    try (intros H; apply failedDownload_marks in H as [(H & _)|(H & _)];
         discriminate);
    [intros H; discriminate|].
  destruct (metadata src) as [m|];
    try (intros H; apply failedDownload_marks in H as [(H & _)|(H & _)];
         discriminate).
  destruct (ImagePipeline.isValidImage m) eqn:V; simpl negb; cbv iota;
    try (intros H; apply failedDownload_marks in H as [(H & _)|(H & _)];
         discriminate).
  destruct (encoded src) as [bytes|];
    try (intros H; apply failedDownload_marks in H as [(H & _)|(H & _)];
         discriminate).
  destruct (bytes <? 1024) eqn:B;
    try (intros H; apply failedDownload_marks in H as [(H & _)|(H & _)];
         discriminate).
  destruct (unlinkTemp_ok src); simpl negb; cbv iota;
    try (intros H; apply failedDownload_marks in H as [(H & _)|(H & _)];
         discriminate).
  destruct (update_ok src);
    try (intros H; apply failedDownload_marks in H as [(H & _)|(H & _)];
         discriminate).
  intros H. inversion H; subst; clear H.
  exists bytes, m. split; [reflexivity|].
  split; [apply Z.ltb_ge in B; lia|].
  assert (Hne : String.eqb (finalPath cfg i) (tempPath cfg i) = false).
  { apply String.eqb_neq. intros E. symmetry in E.
    now apply tempPath_neq_finalPath in E. }
  split.
  { unfold CacheManager.removeFile, CacheManager.writeFile.
    rewrite Hne, String.eqb_refl. reflexivity. }
  split.
  { unfold CacheManager.removeFile. now rewrite String.eqb_refl. }
  split; [reflexivity|]. split; [exact V|]. split.
  { unfold streamDownload in S.
    apply (stream_fulfilled (50 * 1024 * 1024) 60000) in S; try lia.
    destruct S as (chunks & rest & E & Hb).
    exists chunks, rest. split; [assumption|lia]. }
  intros r Hr Hi. apply in_updatePhoto in Hr as (r0 & _ & ->).
  destruct (String.eqb (rowId r0) i) eqn:E.
  - simpl. auto.
  - apply String.eqb_neq in E. contradiction.
Qed.

Lemma downloadAndCachePhoto_success_recorded_witness :
  exists bytes,
    snd (downloadAndCachePhoto Scenario.cfgV1 Scenario.goodSource "c"
                               Scenario.album (fun _ => None))
        (finalPath Scenario.cfgV1 "c") = Some bytes /\
    1024 <= bytes.
Proof.
  destruct (downloadAndCachePhoto_success_recorded
              Scenario.cfgV1 Scenario.goodSource "c" Scenario.album
              (fun _ => None) (Some 204800)
              (snd (fst (downloadAndCachePhoto
                           Scenario.cfgV1 Scenario.goodSource "c"
                           Scenario.album (fun _ => None))))
              (snd (downloadAndCachePhoto
                      Scenario.cfgV1 Scenario.goodSource "c"
                      Scenario.album (fun _ => None)))
              eq_refl)
    as (bytes & m & _ & Hb & Hf & _).
  exists bytes. split; assumption.
Defined.

Lemma downloadAndCachePhoto_cases cfg src i d fs :
  (exists bytes fs',
     downloadAndCachePhoto cfg src i d fs
     = (Returned true (Some bytes),
        updatePhoto i (cachedFields (finalPath cfg i) (clock src) bytes) d,
        fs')) \/
  (exists fs',
     downloadAndCachePhoto cfg src i d fs = (NeverSettles, d, fs') /\
     streamDownload 50 60000 (stream src) = Pending) \/
  (exists temp final fs0,
     downloadAndCachePhoto cfg src i d fs
     = failedDownload src i temp final d fs0 /\
     ((temp = None /\ final = None /\ fs0 = fs /\
       forall r, fst (Retry.downloadWithRetry 3 (get src))
                 <> Retry.Resolved r) \/
      (temp = Some (tempPath cfg i) /\ final = Some (finalPath cfg i) /\
       exists r, fst (Retry.downloadWithRetry 3 (get src))
                 = Retry.Resolved r))).
Proof.
  unfold downloadAndCachePhoto.
  destruct (fst (Retry.downloadWithRetry 3 (get src))) as [response| |].
  2,3: right; right; exists None, None, fs; split; [reflexivity|];
       left; repeat split; discriminate.
  assert (Hr : exists r : unit,
             @Retry.Resolved unit response = Retry.Resolved r)
    by (now exists response).
  destruct (streamDownload 50 60000 (stream src)) eqn:S.
  - right; left. eexists. split; reflexivity.
  - destruct (metadata src) as [m|];
      [|right; right; do 3 eexists; split; [reflexivity|right; auto]].
    destruct (ImagePipeline.isValidImage m); simpl negb; cbv iota;
      [|right; right; do 3 eexists; split; [reflexivity|right; auto]].
    destruct (encoded src) as [bytes|];
      [|right; right; do 3 eexists; split; [reflexivity|right; auto]].
    destruct (bytes <? 1024);
      [right; right; do 3 eexists; split; [reflexivity|right; auto]|].
    destruct (unlinkTemp_ok src); simpl negb; cbv iota;
      [|right; right; do 3 eexists; split; [reflexivity|right; auto]].
    destruct (update_ok src);
      [|right; right; do 3 eexists; split; [reflexivity|right; auto]].
    left. do 2 eexists. reflexivity.
  - right; right. do 3 eexists. split; [reflexivity|right; auto].
Qed.

Lemma cleanup_removes_both src temp final fs :
  cleanupTemp_ok src = true -> cleanupFinal_ok src = true ->
  cleanupFailedDownload src (Some temp) (Some final) fs temp = None /\
  cleanupFailedDownload src (Some temp) (Some final) fs final = None.
Proof.
  intros Ht Hf. unfold cleanupFailedDownload, CacheManager.removeFile.
  rewrite Ht, Hf, !String.eqb_refl. destruct (String.eqb temp final); auto.
Qed.

Lemma photosToDownload_wanted n d r :
  In r (photosToDownload n d) ->
  In r d /\ cached_path (photo r) = None /\ is_deleted r = Some 0.
Proof.
  unfold photosToDownload. intros H.
  apply firstn_In_inv, orderRows_In, filter_In in H as [Hin Hw].
  unfold wanted in Hw. apply andb_true_iff in Hw as [Hc Hd].
  split; [assumption|]. split.
  - unfold isCached in Hc. destruct (cached_path (photo r)); auto.
    discriminate.
  - destruct (is_deleted r) as [flag|]; [|discriminate].
    apply Z.eqb_eq in Hd. now subst.
Qed.

(** X27.  A download reported as a failure: every row with the id of the
    photo is marked deleted and uncached, so the query of the prefetch step
    never selects the photo again, whatever its batch size; no row is added
    or removed; and when the request got a response and the two unlinks of
    the clean-up go through, neither the temporary file nor the JPEG of the
    photo is left in the cache directory (without a response no file is
    touched). *)
Theorem downloadAndCachePhoto_failure_tombstones
        (cfg : Config) (src : Source) (i : string) (d : Table)
        (fs : CacheManager.Files) size d' fs' :
  downloadAndCachePhoto cfg src i d fs = (Returned false size, d', fs') ->
  map rowId d' = map rowId d /\
  (forall r, In r d' -> rowId r = i ->
     is_deleted r = Some 1 /\ cached_path (photo r) = None) /\
  (forall n r, In r (photosToDownload n d') -> rowId r <> i) /\
  match fst (Retry.downloadWithRetry 3 (get src)) with
  | Retry.Resolved _ =>
      cleanupTemp_ok src = true -> cleanupFinal_ok src = true ->
      fs' (tempPath cfg i) = None /\ fs' (finalPath cfg i) = None
  | _ => fs' = fs
  end.
Proof.
  intros H.
  destruct (downloadAndCachePhoto_cases cfg src i d fs)
    as [(bytes & fs1 & E)|[(fs1 & E & _)|(temp & final & fs0 & E & C)]];
    try congruence.
  rewrite E in H.
  apply failedDownload_marks in H as [(_ & -> & ->)|(H & _)];
    [|discriminate].
  assert (Hrows : forall r, In r (updatePhoto i problematicFields d) ->
                    rowId r = i ->
                    is_deleted r = Some 1 /\ cached_path (photo r) = None).
  { intros r Hr Hi. apply in_updatePhoto in Hr as (r0 & _ & ->).
    destruct (String.eqb (rowId r0) i) eqn:E0.
    - simpl. auto.
    - apply String.eqb_neq in E0. contradiction. }
  split.
  { unfold updatePhoto. rewrite map_map. apply map_ext. intros r.
    now destruct (String.eqb (rowId r) i). }
  split; [exact Hrows|]. split.
  { intros n r Hr Hi.
    apply photosToDownload_wanted in Hr as (Hin & _ & Hd).
    destruct (Hrows r Hin Hi) as [H1 _]. congruence. }
  destruct C as [(-> & -> & -> & Hn)|(-> & -> & r & Hr)].
  - destruct (fst (Retry.downloadWithRetry 3 (get src))) as [r| |];
      [now contradiction (Hn r)|reflexivity|reflexivity].
  - rewrite Hr. apply cleanup_removes_both.
Qed.

Lemma downloadAndCachePhoto_failure_tombstones_witness :
  Forall (fun r => rowId r <> "c"%string)
         (photosToDownload 5
            (snd (fst (downloadAndCachePhoto
                         Scenario.cfgV1 Scenario.deadSource "c"
                         Scenario.album (fun _ => None))))).
Proof.
  apply Forall_forall. intros r.
  apply (downloadAndCachePhoto_failure_tombstones
           Scenario.cfgV1 Scenario.deadSource "c" Scenario.album
           (fun _ => None) None
           (snd (fst (downloadAndCachePhoto
                        Scenario.cfgV1 Scenario.deadSource "c"
                        Scenario.album (fun _ => None))))
           (snd (downloadAndCachePhoto
                   Scenario.cfgV1 Scenario.deadSource "c"
                   Scenario.album (fun _ => None)))
           eq_refl).
Defined.

Lemma downloadEach_settled cfg source ids : forall d fs,
  (forall i, In i ids -> mark_ok (source i) = true) ->
  let results := fst (fst (downloadEach cfg source ids d fs)) in
  List.length results = List.length ids /\
  forallb (fun e => negb (isRejects e)) results = true /\
  (existsb isNeverSettles results = true ->
   exists i, In i ids /\
             streamDownload 50 60000 (stream (source i)) = Pending).
Proof.
  induction ids as [|i ids IH]; intros d fs Hm; cbv zeta.
  - simpl. repeat split; auto. discriminate.
  - cbn [downloadEach].
    assert (He : let e := fst (fst (downloadAndCachePhoto
                                      cfg (source i) i d fs)) in
                 isRejects e = false /\
                 (isNeverSettles e = true ->
                  streamDownload 50 60000 (stream (source i)) = Pending)).
    { destruct (downloadAndCachePhoto_cases cfg (source i) i d fs)
        as [(bytes & fs1 & E)|[(fs1 & E & P)|(temp & final & fs0 & E & _)]];
        rewrite E; cbv zeta.
      - simpl. split; [reflexivity|discriminate].
      - simpl. auto.
      - unfold failedDownload. rewrite (Hm i (or_introl eq_refl)). simpl.
        split; [reflexivity|discriminate]. }
    destruct (downloadAndCachePhoto cfg (source i) i d fs) as [[e d1] fs1].
    specialize (IH d1 fs1 (fun j Hj => Hm j (or_intror Hj))).
    destruct (downloadEach cfg source ids d1 fs1) as [[es d2] fs2].
    simpl in *. destruct IH as (L & R & N). destruct He as [He1 He2].
    split; [now rewrite L|]. split; [now rewrite He1|].
    intros H. apply orb_true_iff in H as [H|H].
    + exists i. split; auto.
    + destruct (N H) as (j & Hj & P). exists j. split; auto.
Qed.

(** X28.  What [batchDownloadPhotos] counts: as long as the updates that
    mark failed photos go through, it reports every photo of the batch as
    succeeded and none as failed, also when downloads failed, because
    [downloadAndCachePhoto] turns a failure into a fulfilled promise; it
    can only fail to report, when a stream never settles. *)
Theorem batchDownloadPhotos_counts_failures_as_succeeded
        (cfg : Config) (source : string -> Source) (ids : list string)
        (d : Table) (fs : CacheManager.Files) :
  (forall i, In i ids -> mark_ok (source i) = true) ->
  match fst (fst (batchDownloadPhotos cfg source ids d fs)) with
  | Some (succeeded, failed) =>
      succeeded = Z.of_nat (List.length ids) /\ failed = 0
  | None =>
      exists i, In i ids /\
                streamDownload 50 60000 (stream (source i)) = Pending
  end.
Proof.
  intros Hm. unfold batchDownloadPhotos.
  pose proof (downloadEach_settled cfg source ids d fs Hm) as H.
  destruct (downloadEach cfg source ids d fs) as [[results d'] fs'].
  cbv zeta in H. simpl in *. destruct H as (L & R & N).
  destruct (existsb isNeverSettles results) eqn:E.
  - now apply N.
  - assert (G : forall l,
               forallb (fun e => negb (isRejects e)) l = true ->
               existsb isNeverSettles l = false ->
               filter isReturned l = l /\ filter isRejects l = []).
    { induction l as [|e l IHl]; simpl; auto.
      intros H1 H2. apply andb_true_iff in H1 as [H1 H1'].
      apply orb_false_iff in H2 as [H2 H2'].
      destruct (IHl H1' H2') as [A B].
      destruct e; simpl in *; try discriminate.
      rewrite A, B. auto. }
    destruct (G results R E) as [A B]. rewrite A, B, L. auto.
Qed.

Lemma batchDownloadPhotos_counts_failures_as_succeeded_witness :
  match fst (fst (batchDownloadPhotos
                    Scenario.cfgV1 (fun _ => Scenario.deadSource)
                    ["c"; "d"]%string Scenario.album (fun _ => None))) with
  | Some (succeeded, failed) => succeeded = 2 /\ failed = 0
  | None =>
      exists i, In i ["c"; "d"]%string /\
                streamDownload 50 60000 (stream Scenario.deadSource)
                = Pending
  end.
Proof.
  apply (batchDownloadPhotos_counts_failures_as_succeeded
           Scenario.cfgV1 (fun _ => Scenario.deadSource)
           ["c"; "d"]%string Scenario.album (fun _ => None)).
  intros i _. reflexivity.
Defined.

End DownloadAndCache.

Section CacheTickV1.
Import PhotoDatabase CacheManagerV1.
#[local] Arguments Z.mul : simpl never.
#[local] Arguments downloadAndCachePhoto : simpl never.
#[local] Arguments calculateOptimalBatchSize : simpl never.
#[local] Arguments photosToEvict : simpl never.
#[local] Arguments photosToDownload : simpl never.
#[local] Arguments getCacheState : simpl never.

Lemma fetched_app a b : fetched (a ++ b) = fetched a ++ fetched b.
Proof. unfold fetched. apply flat_map_app. Qed.

Lemma unlinked_app a b : unlinked (a ++ b) = unlinked a ++ unlinked b.
Proof. unfold unlinked. apply flat_map_app. Qed.

Lemma fetched_Fetch ids : fetched (map CacheManager.Fetch ids) = ids.
Proof. induction ids as [|i ids IH]; simpl; congruence. Qed.

Lemma fetched_Unlink paths : fetched (map CacheManager.Unlink paths) = [].
Proof. induction paths as [|i paths IH]; simpl; congruence. Qed.

Lemma unlinked_Unlink paths :
  unlinked (map CacheManager.Unlink paths) = paths.
Proof. induction paths as [|i paths IH]; simpl; congruence. Qed.

Lemma unlinked_Fetch ids : unlinked (map CacheManager.Fetch ids) = [].
Proof. induction ids as [|i ids IH]; simpl; congruence. Qed.

Lemma rowPaths_length photos :
  (List.length (pathsOf photos) <= List.length photos)%nat.
Proof.
  unfold pathsOf. rewrite <- (length_map photo photos).
  apply pathsOf_length.
Qed.

(** The parts of a tick: the files it unlinks, the table it prefetches
    from, the photos it fetches and the table it leaves. *)
Lemma cacheTick_shape shape cfg w st :
  exists freed ids d1 fs1,
    snd (cacheTick shape cfg w st)
    = map CacheManager.Unlink freed ++ map CacheManager.Fetch ids /\
    (List.length freed <= 20)%nat /\
    (shape = RowArray -> freed = []) /\
    (d1 = db st \/
     d1 = clearSelected (photosToEvict (now w) (db st)) (db st)) /\
    (ids = [] \/
     0 < calculateOptimalBatchSize
           cfg (downloadMetrics st)
           (fieldOf shape (cachedCount (getCacheState (db st)))) /\
     ids = map rowId
               (photosToDownload
                  (calculateOptimalBatchSize
                     cfg (downloadMetrics st)
                     (fieldOf shape (cachedCount (getCacheState (db st)))))
                  d1)) /\
    db (fst (cacheTick shape cfg w st))
    = snd (fst (downloadEach cfg (source w) ids d1 fs1)).
Proof.
  unfold cacheTick. destruct (isTickRunning st).
  { exists [], [], (db st), (files st). simpl.
    split; [reflexivity|]. split; [lia|]. split; [reflexivity|].
    split; [now left|]. split; [now left|reflexivity]. }
  assert (Hlen : (List.length (pathsOf (photosToEvict (now w) (db st)))
                  <= 20)%nat).
  { etransitivity; [apply rowPaths_length|].
    unfold photosToEvict. rewrite length_firstn. lia. }
  set (batch := calculateOptimalBatchSize
                  cfg (downloadMetrics st)
                  (fieldOf shape (cachedCount (getCacheState (db st))))).
  assert (Hids : forall d1,
             (if batch >? 0 then map rowId (photosToDownload batch d1)
              else []) = [] \/
             0 < batch /\
             (if batch >? 0 then map rowId (photosToDownload batch d1)
              else []) = map rowId (photosToDownload batch d1)).
  { intros d1. destruct (batch >? 0) eqn:E; [|now left].
    right. split; [|reflexivity]. apply Z.gtb_lt in E. lia. }
  destruct (gtNumber (fieldOf shape (totalBytes (getCacheState (db st))))
                     (maxCacheSizeMB cfg * 1024 * 1024)) eqn:Over.
  - assert (Hrow : shape <> RowArray).
    { intros ->. simpl in Over. discriminate. }
    unfold evictOldPhotos.
    destruct (photosToEvict (now w) (db st)) as [|p photos] eqn:Sel.
    + set (ids := if batch >? 0
                  then map rowId (photosToDownload batch (db st)) else []).
      unfold batchDownloadPhotos.
      destruct (downloadEach cfg (source w) ids (db st) (files st))
        as [[results d2] fs2] eqn:D.
      exists [], ids, (db st), (files st). rewrite D.
      destruct (existsb isNeverSettles results); simpl;
        (split; [reflexivity|]); (split; [lia|]); (split; [reflexivity|]);
        (split; [now left|]); (split; [apply Hids|reflexivity]).
    + destruct (commit_ok w).
      * set (d1 := clearSelected (p :: photos) (db st)).
        set (fs1 := unlinkEach (unlink_ok w) (pathsOf (p :: photos))
                               (files st)).
        set (ids := if batch >? 0
                    then map rowId (photosToDownload batch d1) else []).
        unfold batchDownloadPhotos.
        destruct (downloadEach cfg (source w) ids d1 fs1)
          as [[results d2] fs2] eqn:D.
        exists (pathsOf (p :: photos)), ids, d1, fs1. rewrite D.
        destruct (existsb isNeverSettles results); simpl;
          (split; [reflexivity|]); (split; [exact Hlen|]);
          (split; [intros E; now contradiction Hrow|]);
          (split; [now right|]); (split; [apply Hids|reflexivity]).
      * exists (pathsOf (p :: photos)), [], (db st),
               (unlinkEach (unlink_ok w) (pathsOf (p :: photos)) (files st)).
        simpl. rewrite app_nil_r.
        split; [reflexivity|]. split; [exact Hlen|].
        split; [intros E; now contradiction Hrow|]. auto.
  - set (ids := if batch >? 0
                then map rowId (photosToDownload batch (db st)) else []).
    unfold batchDownloadPhotos.
    destruct (downloadEach cfg (source w) ids (db st) (files st))
      as [[results d2] fs2] eqn:D.
    exists [], ids, (db st), (files st). rewrite D.
    destruct (existsb isNeverSettles results); simpl;
      (split; [reflexivity|]); (split; [lia|]); (split; [reflexivity|]);
      (split; [now left|]); (split; [apply Hids|reflexivity]).
Qed.

Lemma batch_bound cfg m (count : option Z) :
  calculateOptimalBatchSize cfg m count
  <= Z.max 10 (batchDownloadSize cfg) /\
  (forall c, count = Some c -> 10 <= c -> prefetchAheadCount cfg < c ->
             calculateOptimalBatchSize cfg m count = 0) /\
  (count = None ->
   calculateOptimalBatchSize cfg m count
   <= Z.max 1 (batchDownloadSize cfg) /\
   (1 <= batchDownloadSize cfg ->
    1 <= calculateOptimalBatchSize cfg m count)).
Proof.
  assert (Hhalf : batchDownloadSize cfg / 2
                  <= Z.max 1 (batchDownloadSize cfg)).
  { apply Z.div_le_upper_bound; lia. }
  unfold calculateOptimalBatchSize. destruct count as [c|]; simpl.
  - destruct (c <? 10) eqn:A.
    + apply Z.ltb_lt in A. split; [lia|]. split; [|discriminate].
      intros c' E. inversion E; subst. lia.
    + apply Z.ltb_ge in A.
      destruct (c >? prefetchAheadCount cfg) eqn:B.
      * split; [lia|]. split; [reflexivity|discriminate].
      * assert (c <= prefetchAheadCount cfg).
        { rewrite Z.gtb_ltb in B. apply Z.ltb_ge in B. lia. }
        split; [destruct (ticksTooLong cfg m); lia|].
        split; [|discriminate].
        intros c' E. inversion E; subst. lia.
  - split; [destruct (ticksTooLong cfg m); lia|].
    split; [discriminate|]. intros _.
    destruct (ticksTooLong cfg m); lia.
Qed.

Lemma in_clearSelected photos d r :
  In r (clearSelected photos d) ->
  exists r0, In r0 d /\ rowId r0 = rowId r /\ is_deleted r0 = is_deleted r.
Proof.
  rewrite clearSelected_map. intros H.
  apply in_map_iff in H as (r0 & E & Hr). exists r0.
  split; [assumption|].
  destruct (existsb (String.eqb (rowId r0)) (map rowId photos));
    subst; auto.
Qed.

Lemma cacheTick_fetches_wanted shape cfg w st i :
  In i (fetched (snd (cacheTick shape cfg w st))) ->
  exists r, In r (db st) /\ rowId r = i /\ is_deleted r = Some 0.
Proof.
  destruct (cacheTick_shape shape cfg w st)
    as (freed & ids & d1 & fs1 & E & _ & _ & Hd & Hi & _).
  rewrite E, fetched_app, fetched_Unlink, fetched_Fetch. simpl.
  destruct Hi as [->|[_ ->]]; [intros []|].
  intros H. apply in_map_iff in H as (r & Hr & Hin).
  apply photosToDownload_wanted in Hin as (Hin & _ & Hdel).
  destruct Hd as [->| ->].
  - exists r. auto.
  - apply in_clearSelected in Hin as (r0 & H0 & H1 & H2).
    exists r0. split; [assumption|]. split; congruence.
Qed.

Lemma length_insertRow le r l :
  List.length (insertRow le r l) = S (List.length l).
Proof.
  induction l as [|q l IH]; simpl; [reflexivity|].
  destruct (le r q); simpl; congruence.
Qed.

Lemma length_orderRows le l :
  List.length (orderRows le l) = List.length l.
Proof.
  induction l as [|r l IH]; simpl; [reflexivity|].
  now rewrite length_insertRow, IH.
Qed.

Lemma photosToDownload_some batch d r :
  1 <= batch -> In r d -> wanted r = true ->
  photosToDownload batch d <> [].
Proof.
  intros Hb Hr Hw E. apply (f_equal (@List.length Row)) in E.
  unfold photosToDownload in E.
  rewrite length_firstn, length_orderRows in E. simpl in E.
  assert (Hin : In r (filter wanted d)) by (apply filter_In; auto).
  destruct (filter wanted d); [contradiction|]. simpl in E. lia.
Qed.

(** With an array for the measurement the tick goes straight to the
    prefetch: nothing is over the limit and no count is too high. *)
Lemma cacheTick_array cfg w st :
  isTickRunning st = false ->
  snd (cacheTick RowArray cfg w st)
  = map CacheManager.Fetch
        (if calculateOptimalBatchSize cfg (downloadMetrics st) None >? 0
         then map rowId
                  (photosToDownload
                     (calculateOptimalBatchSize cfg (downloadMetrics st) None)
                     (db st))
         else []).
Proof.
  intros H. unfold cacheTick. rewrite H. simpl.
  destruct (batchDownloadPhotos _ _ _ _ _) as [[result d2] fs2].
  destruct result; reflexivity.
Qed.

(** X29.  The limits of one tick, whichever way [db.query] hands back the
    measurement of the cache: its effects are unlinks followed by
    downloads; it starts at most max(10, batchDownloadSize) downloads and
    unlinks at most 20 files; every photo it fetches has a row with
    is_deleted = 0 in the table the tick found.  When the measurement
    arrives as the row, the tick starts no download once at least ten and
    more than prefetchAheadCount photos are cached.  When it arrives as an
    array, totalBytes and cachedCount are undefined: the tick never evicts,
    whatever the size of the cache, it starts at most
    max(1, batchDownloadSize) downloads, and with a batchDownloadSize of 1
    or more it downloads whenever a photo is waiting, however many are
    cached. *)
Theorem cacheTick_limits (shape : QueryShape) (cfg : Config) (w : World)
        (st : State) :
  let effects := snd (cacheTick shape cfg w st) in
  effects = map CacheManager.Unlink (unlinked effects)
            ++ map CacheManager.Fetch (fetched effects) /\
  Z.of_nat (List.length (fetched effects))
  <= Z.max 10 (batchDownloadSize cfg) /\
  (List.length (unlinked effects) <= 20)%nat /\
  (forall i, In i (fetched effects) ->
     exists r, In r (db st) /\ rowId r = i /\ is_deleted r = Some 0) /\
  match shape with
  | SingleRow =>
      10 <= cachedCount (getCacheState (db st)) ->
      prefetchAheadCount cfg < cachedCount (getCacheState (db st)) ->
      fetched effects = []
  | RowArray =>
      unlinked effects = [] /\
      Z.of_nat (List.length (fetched effects))
      <= Z.max 1 (batchDownloadSize cfg) /\
      (isTickRunning st = false -> 1 <= batchDownloadSize cfg ->
       forall r, In r (db st) -> wanted r = true -> fetched effects <> [])
  end.
Proof.
  cbv zeta.
  split; [|split; [|split; [|split; [apply cacheTick_fetches_wanted|]]]];
    destruct (cacheTick_shape shape cfg w st)
      as (freed & ids & d1 & fs1 & E & Hlen & Harr & _ & Hi & _);
    destruct (batch_bound cfg (downloadMetrics st)
                (fieldOf shape (cachedCount (getCacheState (db st)))))
      as (B1 & B2 & B3).
  - rewrite E, ?fetched_app, ?unlinked_app, ?fetched_Unlink, ?fetched_Fetch,
            ?unlinked_Unlink, ?unlinked_Fetch, ?app_nil_r. reflexivity.
  - rewrite E, fetched_app, fetched_Unlink, fetched_Fetch. simpl.
    destruct Hi as [->|[Hpos ->]]; [simpl; lia|].
    rewrite length_map. unfold photosToDownload. rewrite length_firstn. lia.
  - rewrite E, unlinked_app, unlinked_Unlink, unlinked_Fetch, app_nil_r.
    exact Hlen.
  - destruct shape.
    + destruct (B3 eq_refl) as [B4 B5]. split; [|split].
      * rewrite E, unlinked_app, unlinked_Unlink, unlinked_Fetch, app_nil_r.
        apply Harr. reflexivity.
      * rewrite E, fetched_app, fetched_Unlink, fetched_Fetch. simpl.
        destruct Hi as [->|[Hpos ->]]; [simpl; lia|].
        rewrite length_map. unfold photosToDownload.
        rewrite length_firstn. simpl in *. lia.
      * intros Hrun Hb r Hr Hw. rewrite (cacheTick_array cfg w st Hrun).
        rewrite fetched_Fetch. simpl in B5. specialize (B5 Hb).
        replace (calculateOptimalBatchSize cfg (downloadMetrics st) None >? 0)
          with true by (symmetry; apply Z.gtb_lt; lia).
        intros E0. apply map_eq_nil in E0.
        now apply (photosToDownload_some _ _ r B5 Hr Hw).
    + intros H1 H2.
      rewrite E, fetched_app, fetched_Unlink, fetched_Fetch. simpl.
      destruct Hi as [->|[Hpos ->]]; [reflexivity|].
      unfold fieldOf in B2, Hpos. rewrite (B2 _ eq_refl H1 H2) in Hpos. lia.
Qed.

Lemma downloadAndCachePhoto_rows cfg src j d fs :
  exists g,
    snd (fst (downloadAndCachePhoto cfg src j d fs)) = map g d /\
    forall r, rowId (g r) = rowId r /\
              (is_deleted (g r) = is_deleted r \/
               is_deleted (g r) = Some 1).
Proof.
  destruct (downloadAndCachePhoto_cases cfg src j d fs)
    as [(bytes & fs1 & E)|[(fs1 & E & _)|(temp & final & fs0 & E & _)]];
    rewrite E.
  - eexists. split; [reflexivity|]. intros r. cbv beta.
    destruct (String.eqb (rowId r) j); auto.
  - exists (fun r => r). simpl. rewrite map_id. auto.
  - unfold failedDownload. destruct (mark_ok src); simpl.
    + eexists. split; [reflexivity|]. intros r. cbv beta.
      destruct (String.eqb (rowId r) j); auto.
    + exists (fun r => r). rewrite map_id. auto.
Qed.

Lemma unwanted_map (g : Row -> Row) i d :
  (forall r, rowId (g r) = rowId r /\
             (is_deleted (g r) = is_deleted r \/
              is_deleted (g r) = Some 1)) ->
  (forall r, In r d -> rowId r = i -> is_deleted r <> Some 0) ->
  forall r, In r (map g d) -> rowId r = i -> is_deleted r <> Some 0.
Proof.
  intros Hg Hd r Hr Hi. apply in_map_iff in Hr as (r0 & <- & H0).
  destruct (Hg r0) as [G1 [G2|G2]].
  - rewrite G2. apply Hd; congruence.
  - rewrite G2. discriminate.
Qed.

Lemma downloadEach_unwanted cfg source i ids : forall d fs,
  (forall r, In r d -> rowId r = i -> is_deleted r <> Some 0) ->
  forall r, In r (snd (fst (downloadEach cfg source ids d fs))) ->
            rowId r = i -> is_deleted r <> Some 0.
Proof.
  induction ids as [|j ids IH]; intros d fs Hd; [exact Hd|].
  cbn [downloadEach].
  destruct (downloadAndCachePhoto_rows cfg (source j) j d fs)
    as (g & E & Hg).
  destruct (downloadAndCachePhoto cfg (source j) j d fs) as [[e d1] fs1].
  simpl in E. subst d1.
  specialize (IH (map g d) fs1 (unwanted_map g i d Hg Hd)).
  destruct (downloadEach cfg source ids (map g d) fs1) as [[es d2] fs2].
  exact IH.
Qed.

Lemma cacheTick_unwanted shape cfg w st i :
  (forall r, In r (db st) -> rowId r = i -> is_deleted r <> Some 0) ->
  forall r, In r (db (fst (cacheTick shape cfg w st))) ->
            rowId r = i -> is_deleted r <> Some 0.
Proof.
  intros Hd.
  destruct (cacheTick_shape shape cfg w st)
    as (freed & ids & d1 & fs1 & _ & _ & _ & H1 & _ & E).
  rewrite E. apply downloadEach_unwanted.
  destruct H1 as [->| ->]; [exact Hd|].
  intros r Hr Hi. apply in_clearSelected in Hr as (r0 & H0 & H2 & H3).
  rewrite <- H3. apply Hd; congruence.
Qed.

(** X30.  A photo that is marked deleted stays out: when no row with the id
    of a photo has is_deleted = 0 (as after one failed download of it), no
    later tick fetches that photo, whatever the ticks meet and whichever
    way [db.query] hands back the measurement of the cache. *)
Theorem deleted_photo_never_fetched (shape : QueryShape) (cfg : Config)
        (ws : list World) (st : State) (i : string) :
  (forall r, In r (db st) -> rowId r = i -> is_deleted r <> Some 0) ->
  Forall (fun effects => ~ In i (fetched effects))
         (snd (cacheTicks shape cfg ws st)).
Proof.
  revert st. induction ws as [|w ws IH]; intros st Hd; simpl.
  - constructor.
  - pose proof (cacheTick_unwanted shape cfg w st i Hd) as H1.
    pose proof (cacheTick_fetches_wanted shape cfg w st i) as H2.
    destruct (cacheTick shape cfg w st) as [st1 effects].
    specialize (IH st1 H1).
    destruct (cacheTicks shape cfg ws st1) as [st2 later].
    simpl in *. constructor; [|exact IH].
    intros Hin. destruct (H2 Hin) as (r & Hr & Hi & Hz).
    now apply (Hd r Hr Hi).
Qed.

Lemma deleted_photo_never_fetched_witness :
  Forall (fun effects => ~ In "d"%string (fetched effects))
         (snd (cacheTicks RowArray Scenario.cfgV1
                          [Scenario.worldV1; Scenario.worldV1]
                          Scenario.stateV1)).
Proof.
  apply deleted_photo_never_fetched.
  intros r [<-|[<-|[<-|[<-|[]]]]] Hi; simpl in *; discriminate.
Defined.

End CacheTickV1.

(** ** The properties above at the scenarios *)

Section FurtherScenarios.
Import PhotoDatabase.

Lemma loopDrive_folders f i :
  In (OneDriveProvider.FolderItem i) (Scenario.loopDrive f) ->
  In i Scenario.loopFolders.
Proof.
  unfold Scenario.loopDrive, Scenario.loopFolders.
  destruct f as [g|].
  - destruct (String.eqb g "x").
    + intros [H|[H|[]]]; inversion H; simpl; auto.
    + destruct (String.eqb g "y").
      * intros [H|[H|[]]]; inversion H; simpl; auto.
      * intros [].
  - intros [H|[]]; inversion H; simpl; auto.
Qed.

Lemma loopFolders_named : ~ In ""%string Scenario.loopFolders.
Proof. intros [H|[H|[]]]; discriminate. Qed.

Lemma display_no_immediate_repeat_witness :
  nth_error (PhotoDisplay.shownIds SingleRow Scenario.threeTicks
                                   Scenario.threePhotos) 0
  <> nth_error (PhotoDisplay.shownIds SingleRow Scenario.threeTicks
                                      Scenario.threePhotos) 1.
Proof.
  destruct (nth_error (PhotoDisplay.shownIds SingleRow Scenario.threeTicks
                                             Scenario.threePhotos) 0)
    as [a|] eqn:Ea; [|discriminate].
  destruct (nth_error (PhotoDisplay.shownIds SingleRow Scenario.threeTicks
                                             Scenario.threePhotos) 1)
    as [b|] eqn:Eb; [|discriminate].
  intros H. inversion H as [Hab]. revert Hab.
  apply (display_no_immediate_repeat SingleRow Scenario.threePhotos
                                     Scenario.threeTicks)
    with (k := 0%nat); auto.
  - apply distinct_NoDup. reflexivity.
  - simpl. lia.
  - intros t p path [<-|[<-|[<-|[]]]] _ _; discriminate.
  - intros t [<-|[<-|[<-|[]]]]; reflexivity.
  - intros t p v [<-|[<-|[<-|[]]]] [<-|[<-|[<-|[]]]] Hv;
      inversion Hv; simpl; lia.
  - repeat constructor; simpl; lia.
Defined.

Lemma evictOldest_frees_selected_bytes_witness :
  CacheManager.getCacheSizeBytes
    (CacheManager.db
       (fst (CacheManager.evictOldest 10 Scenario.offline Scenario.overfull)))
  = CacheManager.getCacheSizeBytes (CacheManager.db Scenario.overfull)
    - CacheManager.getCacheSizeBytes
        (CacheManager.oldestCached 10 (CacheManager.db Scenario.overfull)).
Proof.
  apply evictOldest_frees_selected_bytes. apply distinct_NoDup. reflexivity.
Defined.

Lemma OneDrive_scanFolder_enters_once_witness :
  exists photos visited,
    OneDriveProvider.scanFolder (List.length Scenario.loopFolders + 2)
      Scenario.loopDrive (Some "x"%string) (-1) 0 []
    = Some (photos, visited) /\
    NoDup visited /\ incl visited Scenario.loopFolders.
Proof.
  apply (OneDrive_scanFolder_enters_once Scenario.loopDrive
           Scenario.loopFolders loopDrive_folders loopFolders_named).
  intros f H. inversion H. simpl. auto.
Defined.

Lemma fullScan_returns_unique_witness :
  exists photos,
    OneDriveSync.fullScan (List.length Scenario.loopFolders + 2)
      Scenario.loopDrive Scenario.bothFolders = Some photos /\
    NoDup photos.
Proof.
  apply (fullScan_returns_unique Scenario.loopDrive Scenario.loopFolders
           Scenario.bothFolders loopDrive_folders loopFolders_named).
  intros fc f [<-|[<-|[]]] H; inversion H; simpl; auto.
Defined.

End FurtherScenarios.
